(** * Open/R: Link-Monitor and route-selection utilities

    A shallow embedding of
    - [openr/link-monitor/LinkMonitor.cpp] (peer derivation, metric pipeline,
      drain commands, start-up state), and
    - the templated helpers of [openr/common/Util.h]
      ([selectBestPrefixMetrics], [selectMplsNextHops]),
    together with the properties the specification states about them.

    Conventions.  A C++ [int32_t] is a [Z] whose wrap-around is written with
    [Int32.wrap]; [std::string] is [string]; [std::unordered_map] is a [gmap]
    that is traversed through [map_to_list], every loop being also defined
    on an arbitrary traversal order so that no result depends on the order of
    the hash table; [std::set] is a [gset]. *)

From Stdlib Require Import ZArith String Ascii List Bool Lia.
From stdpp Require Import gmap strings list fin_maps pretty.

Local Open Scope Z_scope.

(** ** Machine integers *)

Module Int32.

Definition min_signed : Z := - 2 ^ 31.
Definition max_signed : Z := 2 ^ 31 - 1.
Definition modulus : Z := 2 ^ 32.

(** Two's complement reduction of an integer to 32 bits, the effect of a
    narrowing conversion to [int] and of 32-bit arithmetic that overflows. *)
Definition wrap (z : Z) : Z := (z - min_signed) mod modulus + min_signed.

Definition in_range (z : Z) : Prop := min_signed <= z <= max_signed.

Definition in_rangeb (z : Z) : bool := (min_signed <=? z) && (z <=? max_signed).

End Int32.

(** ** Helpers of [openr/common/Util.h] *)

Module Util.

(** [thrift::PrefixMetrics], the fields that route selection reads. *)
Record PrefixMetrics : Type := mkPrefixMetrics {
  path_preference : Z;
  source_preference : Z;
  distance : Z
}.

(** The template parameter [MetricsWrapper]: any type that offers
    [metrics_ref()]. *)
Class MetricsWrapper (W : Type) : Type := metrics_ref : W -> PrefixMetrics.

#[global] Instance PrefixMetrics_wrapper : MetricsWrapper PrefixMetrics :=
  fun m => m.

(** The three metric fields are [int32_t] values. *)
Definition int32_metrics (m : PrefixMetrics) : bool :=
  Int32.in_rangeb (path_preference m)
  && Int32.in_rangeb (source_preference m)
  && Int32.in_rangeb (distance m).

Definition MetricsTuple : Type := Z * Z * Z.

(** [operator<] of [std::tuple<int32_t, int32_t, int32_t>]. *)
Definition tuple_ltb (a b : MetricsTuple) : bool :=
  let '(a1, a2, a3) := a in
  let '(b1, b2, b3) := b in
  (a1 <? b1) || ((a1 =? b1) && ((a2 <? b2) || ((a2 =? b2) && (a3 <? b3)))).

Definition tuple_leb (a b : MetricsTuple) : bool := negb (tuple_ltb b a).

(** The tuple built in the loop body; [distance * -1] is an [int32_t]
    product. *)
Definition metricsTuple (m : PrefixMetrics) : MetricsTuple :=
  (path_preference m, source_preference m, Int32.wrap (distance m * -1)).


Definition worstMetricsTuple : MetricsTuple :=
  (Int32.min_signed, Int32.min_signed, Int32.min_signed).

Section SelectBest.
Context {Key : Type} `{Countable Key}.
Context {W : Type} `{MetricsWrapper W}.

(** One iteration of the loop: the pair is
    ([bestMetricsTuple], [bestKeys]). *)
Definition selectBest_step (acc : MetricsTuple * gset Key) (kv : Key * W)
  : MetricsTuple * gset Key :=
  let metricsTuple := metricsTuple (metrics_ref kv.2) in
  if tuple_ltb metricsTuple acc.1 then acc
  else
    let acc' := if tuple_ltb acc.1 metricsTuple
                then (metricsTuple, ∅) else acc in
    (acc'.1, {[ kv.1 ]} ∪ acc'.2).

(** The loop on a given traversal order of the map. *)
Definition selectBest_loop (prefixes : list (Key * W))
  : MetricsTuple * gset Key :=
  foldl selectBest_step (worstMetricsTuple, ∅) prefixes.

Definition selectBestPrefixMetrics (prefixes : gmap Key W) : gset Key :=
  (selectBest_loop (map_to_list prefixes)).2.
End SelectBest.

(** *** MPLS next-hop selection *)

(** [thrift::MplsActionCode], [thrift::MplsAction] and
    [thrift::NextHopThrift], with the fields that [createMplsAction] and
    [createNextHop] take. *)
Inductive MplsActionCode : Type := PUSH | SWAP | PHP | POP_AND_LOOKUP.

#[global] Instance MplsActionCode_eq_dec : EqDecision MplsActionCode.
Proof. solve_decision. Defined.

Record MplsAction : Type := createMplsAction {
  action : MplsActionCode;
  swapLabel : option Z;
  pushLabels : option (list Z)
}.

Record NextHopThrift : Type := createNextHop {
  address : string;
  nh_ifName : option string;
  nh_metric : Z;
  mplsAction : option MplsAction;
  nh_area : option string;
  neighborNodeName : option string
}.

Definition hasAction (code : MplsActionCode) (nextHop : NextHopThrift) : bool :=
  match mplsAction nextHop with
  | Some a => bool_decide (action a = code)
  | None => false
  end.

(** Modelled from the spec: the body of [selectMplsNextHops] is in
    [Util.cpp], which is not among the sources; only its declaration and the
    comment on it are.  "Across the next-hop set of one MPLS route, PHP (POP)
    next-hops are preferred over SWAP; if any PHP is present, all SWAP
    next-hops are dropped", and the result is the "subset of nextHops with
    the same MplsActionCode". *)
Definition selectMplsNextHops (nextHops : list NextHopThrift)
  : list NextHopThrift :=
  let mplsActionCode :=
    if existsb (hasAction PHP) nextHops then PHP else SWAP in
  List.filter (hasAction mplsActionCode) nextHops.

(** *** Prefix advertisements *)

Inductive PrefixType : Type := LOOPBACK | BGP | CONFIG | OTHER_PREFIX_TYPE.
Inductive PrefixForwardingType : Type := IP | SR_MPLS.
Inductive PrefixForwardingAlgorithm : Type := SP_ECMP | KSP2_ED_ECMP.

Record PrefixEntry : Type := mkPrefixEntry {
  prefix : string;
  type : PrefixType;
  forwardingType : PrefixForwardingType;
  forwardingAlgorithm : PrefixForwardingAlgorithm;
  tags : gset string;
  metrics : PrefixMetrics
}.

#[global] Instance PrefixEntry_wrapper : MetricsWrapper PrefixEntry := metrics.

(** *** MPLS labels *)

(** [isMplsLabelValid]: the label is an [int32_t] and the mask an
    [unsigned int], so the conjunction is taken on the label converted to 32
    unsigned bits. *)
Definition isMplsLabelValid (mplsLabel : Z) : bool :=
  Z.land (mplsLabel mod Int32.modulus) 0xfff00000 =? 0.

End Util.

(** ** [openr/link-monitor/LinkMonitor.cpp] *)

Module LinkMonitor.
Import Util.

(** *** Thrift structures and values held by the module *)

Record PeerSpec : Type := createPeerSpec {
  cmdUrl : string;
  thriftPeerAddr : string;
  ctrlPort : Z
}.

#[global] Instance PeerSpec_eq_dec : EqDecision PeerSpec.
Proof. solve_decision. Defined.

Record Adjacency : Type := mkAdjacency {
  otherNodeName : string;
  ifName : string;
  nextHopV6 : string;
  nextHopV4 : string;
  metric : Z;
  adjLabel : Z;
  adj_isOverloaded : bool;
  rtt : Z;
  timestamp : Z;
  weight : Z;
  otherIfName : string
}.

(** [createThriftAdjacency], from its declaration: every argument fills the
    field of its name.  [rtt] is an [int32_t] parameter that the module
    calls with an [int64_t], which is narrowed at the call. *)
Definition createThriftAdjacency (nodeName ifName nextHopV6 nextHopV4 : string)
    (metric adjLabel : Z) (isOverloaded : bool) (rtt timestamp weight : Z)
    (remoteIfName : string) : Adjacency :=
  mkAdjacency nodeName ifName nextHopV6 nextHopV4
    metric adjLabel isOverloaded (Int32.wrap rtt)
    timestamp weight remoteIfName.

(** A key of [adjacencies_]: (remote node name, local interface name).
    [thrift::AdjKey] holds the same two strings. *)
Abbreviation AdjacencyKey := (string * string)%type (only parsing).
Abbreviation AdjKey := (string * string)%type (only parsing).

Record AdjacencyValue : Type := mkAdjacencyValue {
  area : string;
  peerSpec : PeerSpec;
  adjacency : Adjacency;
  isRestarting : bool
}.

Record KvStorePeerValue : Type := mkKvStorePeerValue {
  tPeerSpec : PeerSpec;
  initialSynced : bool
}.

Record PerfEvent : Type := mkPerfEvent {
  pe_nodeName : string;
  eventDescr : string;
  unixTs : Z
}.

Record AdjacencyDatabase : Type := mkAdjacencyDatabase {
  thisNodeName : string;
  db_isOverloaded : bool;
  adjacencies : list Adjacency;
  db_nodeLabel : Z;
  db_area : string;
  perfEvents : option (list PerfEvent)
}.

(** The persisted [thrift::LinkMonitorState]. *)
Record LinkMonitorState : Type := mkLinkMonitorState {
  isOverloaded : bool;
  overloadedLinks : gset string;
  linkMetricOverrides : gmap string Z;
  nodeLabel : Z;
  adjMetricOverrides : gmap AdjKey Z
}.

(** A default-constructed [thrift::LinkMonitorState]. *)
Definition defaultLinkMonitorState : LinkMonitorState :=
  mkLinkMonitorState false ∅ ∅ 0 ∅.

Definition set_isOverloaded (b : bool) (s : LinkMonitorState) :=
  mkLinkMonitorState b (overloadedLinks s) (linkMetricOverrides s)
    (nodeLabel s) (adjMetricOverrides s).
Definition set_overloadedLinks (l : gset string) (s : LinkMonitorState) :=
  mkLinkMonitorState (isOverloaded s) l (linkMetricOverrides s)
    (nodeLabel s) (adjMetricOverrides s).
Definition set_linkMetricOverrides (m : gmap string Z) (s : LinkMonitorState) :=
  mkLinkMonitorState (isOverloaded s) (overloadedLinks s) m
    (nodeLabel s) (adjMetricOverrides s).
Definition set_nodeLabel (l : Z) (s : LinkMonitorState) :=
  mkLinkMonitorState (isOverloaded s) (overloadedLinks s)
    (linkMetricOverrides s) l (adjMetricOverrides s).
Definition set_adjMetricOverrides (m : gmap AdjKey Z) (s : LinkMonitorState) :=
  mkLinkMonitorState (isOverloaded s) (overloadedLinks s)
    (linkMetricOverrides s) (nodeLabel s) m.

Record SparkNeighbor : Type := createSparkNeighbor {
  nodeName : string;
  transportAddressV4 : string;
  transportAddressV6 : string;
  kvStoreCmdPort : Z;
  openrCtrlThriftPort : Z;
  label : Z;
  rttUs : Z;
  remoteIfName : string;
  localIfName : string;
  nbr_area : string
}.

Inductive SparkNeighborEventType : Type :=
| NEIGHBOR_UP
| NEIGHBOR_DOWN
| NEIGHBOR_RESTARTED
| NEIGHBOR_RTT_CHANGE
| NEIGHBOR_RESTARTING
| NEIGHBOR_UNKNOWN (value : Z).

Record SparkNeighborEvent : Type := createSparkNeighborEvent {
  eventType : SparkNeighborEventType;
  info : SparkNeighbor
}.

Record InterfaceInfo : Type := createThriftInterfaceInfo {
  isUp : bool;
  ifIndex : Z;
  networks : list string
}.

Definition set_isUp (b : bool) (i : InterfaceInfo) : InterfaceInfo :=
  createThriftInterfaceInfo b (ifIndex i) (networks i).

(** [InterfaceEntry] is declared in [InterfaceEntry.h], which is not among
    the sources: an entry is what its observers return when the module
    reads it. *)
Record InterfaceEntry : Type := mkInterfaceEntry {
  getIfName : string;
  getInterfaceInfo : InterfaceInfo;
  isActive : bool;
  getWeight : Z;
  getBackoffDuration : Z;
  getGlobalUnicastNetworks : bool -> list PrefixEntry
}.

(** [AreaConfiguration]: the two interface-name matchers of an area. *)
Record AreaConfiguration : Type := mkAreaConfiguration {
  shouldDiscoverOnIface : string -> bool;
  shouldRedistributeIface : string -> bool
}.

Record InterfaceDatabase : Type := mkInterfaceDatabase {
  ifdb_thisNodeName : string;
  interfaces : gmap string InterfaceInfo
}.

Inductive PrefixUpdateCommand : Type :=
| ADD_PREFIXES | WITHDRAW_PREFIXES | WITHDRAW_PREFIXES_BY_TYPE
| SYNC_PREFIXES_BY_TYPE.

Record PrefixUpdateRequest : Type := mkPrefixUpdateRequest {
  cmd : PrefixUpdateCommand;
  req_type : PrefixType;
  prefixes : list PrefixEntry;
  dstAreas : gset string
}.

Record PeerUpdateRequest : Type := mkPeerUpdateRequest {
  req_area : string;
  peerAddParams : option (gmap string PeerSpec);
  peerDelParams : option (list string)
}.

(** A [LogSample]: the fields added to it, in order. *)
Abbreviation LogSample := (list (string * string)) (only parsing).

(** The constants of [Constants.h] that the module reads. *)
Record Constants : Type := mkConstants {
  kAdjDbMarker : string;
  kDefaultPathPreference : Z;
  kDefaultSourcePreference : Z;
  kDefaultAdjWeight : Z
}.

Definition kConfigKey : string := "link-monitor-config".

(** *** The module object *)

(** The members of [LinkMonitor] that the modelled methods read or write.
    A timer or a throttle is the flag [isScheduled()] / [isActive()];
    [now_] is the wall clock as [std::chrono::system_clock::now()] reads
    it. *)
Record LinkMonitor : Type := mkLinkMonitor {
  constants : Constants;
  nodeId_ : string;
  enablePerfMeasurement_ : bool;
  enableV4_ : bool;
  enableSegmentRouting_ : bool;
  prefixForwardingType_ : PrefixForwardingType;
  prefixForwardingAlgorithm_ : PrefixForwardingAlgorithm;
  useRttMetric_ : bool;
  linkflapMaxBackoff_ : Z;
  ttlKeyInKvStore_ : Z;
  areas_ : gmap string AreaConfiguration;
  mockMode_ : bool;
  state_ : LinkMonitorState;
  adjacencies_ : gmap AdjacencyKey AdjacencyValue;
  interfaces_ : gmap string InterfaceEntry;
  peers_ : gmap string (gmap string KvStorePeerValue);
  adjHoldTimer_ : bool;
  advertiseAdjacenciesThrottled_ : bool;
  advertiseIfaceAddrThrottled_ : bool;
  advertiseIfaceAddrTimer_ : bool;
  now_ : Z
}.

Definition set_state_ (f : LinkMonitorState -> LinkMonitorState)
    (l : LinkMonitor) : LinkMonitor :=
  mkLinkMonitor (constants l) (nodeId_ l) (enablePerfMeasurement_ l)
    (enableV4_ l) (enableSegmentRouting_ l) (prefixForwardingType_ l)
    (prefixForwardingAlgorithm_ l) (useRttMetric_ l) (linkflapMaxBackoff_ l)
    (ttlKeyInKvStore_ l) (areas_ l) (mockMode_ l) (f (state_ l))
    (adjacencies_ l) (interfaces_ l) (peers_ l) (adjHoldTimer_ l)
    (advertiseAdjacenciesThrottled_ l) (advertiseIfaceAddrThrottled_ l)
    (advertiseIfaceAddrTimer_ l) (now_ l).

Definition set_adjacencies_
    (f : gmap AdjacencyKey AdjacencyValue -> gmap AdjacencyKey AdjacencyValue)
    (l : LinkMonitor) : LinkMonitor :=
  mkLinkMonitor (constants l) (nodeId_ l) (enablePerfMeasurement_ l)
    (enableV4_ l) (enableSegmentRouting_ l) (prefixForwardingType_ l)
    (prefixForwardingAlgorithm_ l) (useRttMetric_ l) (linkflapMaxBackoff_ l)
    (ttlKeyInKvStore_ l) (areas_ l) (mockMode_ l) (state_ l)
    (f (adjacencies_ l)) (interfaces_ l) (peers_ l) (adjHoldTimer_ l)
    (advertiseAdjacenciesThrottled_ l) (advertiseIfaceAddrThrottled_ l)
    (advertiseIfaceAddrTimer_ l) (now_ l).

Definition set_interfaces_ (i : gmap string InterfaceEntry)
    (l : LinkMonitor) : LinkMonitor :=
  mkLinkMonitor (constants l) (nodeId_ l) (enablePerfMeasurement_ l)
    (enableV4_ l) (enableSegmentRouting_ l) (prefixForwardingType_ l)
    (prefixForwardingAlgorithm_ l) (useRttMetric_ l) (linkflapMaxBackoff_ l)
    (ttlKeyInKvStore_ l) (areas_ l) (mockMode_ l) (state_ l)
    (adjacencies_ l) i (peers_ l) (adjHoldTimer_ l)
    (advertiseAdjacenciesThrottled_ l) (advertiseIfaceAddrThrottled_ l)
    (advertiseIfaceAddrTimer_ l) (now_ l).

Definition set_peers_
    (f : gmap string (gmap string KvStorePeerValue)
         -> gmap string (gmap string KvStorePeerValue))
    (l : LinkMonitor) : LinkMonitor :=
  mkLinkMonitor (constants l) (nodeId_ l) (enablePerfMeasurement_ l)
    (enableV4_ l) (enableSegmentRouting_ l) (prefixForwardingType_ l)
    (prefixForwardingAlgorithm_ l) (useRttMetric_ l) (linkflapMaxBackoff_ l)
    (ttlKeyInKvStore_ l) (areas_ l) (mockMode_ l) (state_ l)
    (adjacencies_ l) (interfaces_ l) (f (peers_ l)) (adjHoldTimer_ l)
    (advertiseAdjacenciesThrottled_ l) (advertiseIfaceAddrThrottled_ l)
    (advertiseIfaceAddrTimer_ l) (now_ l).

Definition set_adjHoldTimer_ (b : bool) (l : LinkMonitor) : LinkMonitor :=
  mkLinkMonitor (constants l) (nodeId_ l) (enablePerfMeasurement_ l)
    (enableV4_ l) (enableSegmentRouting_ l) (prefixForwardingType_ l)
    (prefixForwardingAlgorithm_ l) (useRttMetric_ l) (linkflapMaxBackoff_ l)
    (ttlKeyInKvStore_ l) (areas_ l) (mockMode_ l) (state_ l)
    (adjacencies_ l) (interfaces_ l) (peers_ l) b
    (advertiseAdjacenciesThrottled_ l) (advertiseIfaceAddrThrottled_ l)
    (advertiseIfaceAddrTimer_ l) (now_ l).

Definition set_advertiseAdjacenciesThrottled_ (b : bool) (l : LinkMonitor)
  : LinkMonitor :=
  mkLinkMonitor (constants l) (nodeId_ l) (enablePerfMeasurement_ l)
    (enableV4_ l) (enableSegmentRouting_ l) (prefixForwardingType_ l)
    (prefixForwardingAlgorithm_ l) (useRttMetric_ l) (linkflapMaxBackoff_ l)
    (ttlKeyInKvStore_ l) (areas_ l) (mockMode_ l) (state_ l)
    (adjacencies_ l) (interfaces_ l) (peers_ l) (adjHoldTimer_ l)
    b (advertiseIfaceAddrThrottled_ l)
    (advertiseIfaceAddrTimer_ l) (now_ l).

Definition set_advertiseIfaceAddrThrottled_ (b : bool) (l : LinkMonitor)
  : LinkMonitor :=
  mkLinkMonitor (constants l) (nodeId_ l) (enablePerfMeasurement_ l)
    (enableV4_ l) (enableSegmentRouting_ l) (prefixForwardingType_ l)
    (prefixForwardingAlgorithm_ l) (useRttMetric_ l) (linkflapMaxBackoff_ l)
    (ttlKeyInKvStore_ l) (areas_ l) (mockMode_ l) (state_ l)
    (adjacencies_ l) (interfaces_ l) (peers_ l) (adjHoldTimer_ l)
    (advertiseAdjacenciesThrottled_ l) b
    (advertiseIfaceAddrTimer_ l) (now_ l).

Definition set_advertiseIfaceAddrTimer_ (b : bool) (l : LinkMonitor)
  : LinkMonitor :=
  mkLinkMonitor (constants l) (nodeId_ l) (enablePerfMeasurement_ l)
    (enableV4_ l) (enableSegmentRouting_ l) (prefixForwardingType_ l)
    (prefixForwardingAlgorithm_ l) (useRttMetric_ l) (linkflapMaxBackoff_ l)
    (ttlKeyInKvStore_ l) (areas_ l) (mockMode_ l) (state_ l)
    (adjacencies_ l) (interfaces_ l) (peers_ l) (adjHoldTimer_ l)
    (advertiseAdjacenciesThrottled_ l) (advertiseIfaceAddrThrottled_ l)
    b (now_ l).

Definition set_now_ (t : Z) (l : LinkMonitor) : LinkMonitor :=
  mkLinkMonitor (constants l) (nodeId_ l) (enablePerfMeasurement_ l)
    (enableV4_ l) (enableSegmentRouting_ l) (prefixForwardingType_ l)
    (prefixForwardingAlgorithm_ l) (useRttMetric_ l) (linkflapMaxBackoff_ l)
    (ttlKeyInKvStore_ l) (areas_ l) (mockMode_ l) (state_ l)
    (adjacencies_ l) (interfaces_ l) (peers_ l) (adjHoldTimer_ l)
    (advertiseAdjacenciesThrottled_ l) (advertiseIfaceAddrThrottled_ l)
    (advertiseIfaceAddrTimer_ l) t.

(** *** What a method does to the outside *)

Inductive Effect : Type :=
| (** [kvStoreClient_->persistKey(area, key, value, ttl)] *)
  PersistKey (area key : string) (adjDb : AdjacencyDatabase) (ttl : Z)
| (** [configStore_->storeThriftObj(key, state)] *)
  StoreThriftObj (key : string) (state : LinkMonitorState)
| (** [prefixUpdatesQueue_.push] *)
  PushPrefixUpdate (request : PrefixUpdateRequest)
| (** [peerUpdatesQueue_.push] *)
  PushPeerUpdate (request : PeerUpdateRequest)
| (** [interfaceUpdatesQueue_.push] *)
  PushInterfaceDb (ifDb : InterfaceDatabase)
| (** [logSampleQueue_.push] *)
  PushLogSample (sample : LogSample)
| (** [LOG(ERROR)] *)
  LogError (message : string)
| (** [p.setValue()]: the command's future completes with a value *)
  SetValue
| (** [p.setException(...)]: the command's future completes with an error *)
  SetException (what : string).

(** A method: it reads and writes the object, emits effects in order, and a
    failed [CHECK] aborts it. *)
Definition M (A : Type) : Type :=
  LinkMonitor -> option (A * LinkMonitor * list Effect).

#[global] Instance M_ret : MRet M := fun A a l => Some (a, l, []).

#[global] Instance M_bind : MBind M := fun A B k c l =>
  match c l with
  | None => None
  | Some (a, l1, out1) =>
      match k a l1 with
      | None => None
      | Some (b, l2, out2) => Some (b, l2, out1 ++ out2)
      end
  end.

Definition get : M LinkMonitor := fun l => Some (l, l, []).
Definition modify (f : LinkMonitor -> LinkMonitor) : M unit :=
  fun l => Some (tt, f l, []).
Definition emit (e : Effect) : M unit := fun l => Some (tt, l, [e]).
Definition CHECK (b : bool) : M unit :=
  fun l => if b then Some (tt, l, []) else None.

Fixpoint forM_ {A : Type} (f : A -> M unit) (xs : list A) : M unit :=
  match xs with
  | [] => mret tt
  | x :: xs => f x ;; forM_ f xs
  end.

Fixpoint foldM {A B : Type} (f : B -> A -> M B) (b : B) (xs : list A) : M B :=
  match xs with
  | [] => mret b
  | x :: xs => b' ← f b x; foldM f b' xs
  end.

(** A value, or the exception that ends the method. *)
Definition orThrow {A : Type} (o : option A) : M A :=
  fun l => match o with Some a => Some (a, l, []) | None => None end.

(** [std::unordered_map::at]: throws when the key is absent. *)
Definition at_ {K V : Type} `{Countable K} (m : gmap K V) (k : K) : M V :=
  orThrow (m !! k).

(** [std::unordered_map::emplace]: no effect when the key is present. *)
Definition emplace {K V : Type} `{Countable K} (k : K) (v : V) (m : gmap K V)
  : gmap K V :=
  match m !! k with Some _ => m | None => <[k := v]> m end.

(** *** Metric of a measured round-trip time *)

(** [getRttMetric]: [rttUs / 100] is an [int64_t] quotient, truncated
    towards zero, and [(int)] narrows it to 32 bits. *)
Definition getRttMetric (rttUs : Z) : Z :=
  Z.max (Int32.wrap (rttUs ÷ 100)) 1.

(** *** Peers of the KvStore, from the adjacencies *)

(** First loop of [getPeersFromAdjacencies]: the smallest interface of every
    neighbor; [it->second > iface] is [operator>] of [std::string]. *)
Definition neighborToIface_step (areaId : string)
    (neighborToIface : gmap string string)
    (kv : AdjacencyKey * AdjacencyValue) : gmap string string :=
  let adjKey := kv.1 in
  let adjValue := kv.2 in
  if negb (bool_decide (area adjValue = areaId)) || isRestarting adjValue
  then neighborToIface
  else
    let nodeName := adjKey.1 in
    let iface := adjKey.2 in
    match neighborToIface !! nodeName with
    | None => <[nodeName := iface]> neighborToIface
    | Some cur =>
        if String.ltb iface cur
        then <[nodeName := iface]> neighborToIface
        else neighborToIface
    end.

(** Second loop: [peers.emplace(kv.first, adjacencies.at(kv).peerSpec)];
    [None] is the exception of [at]. *)
Definition peers_step (adjacencies : gmap AdjacencyKey AdjacencyValue)
    (peers : option (gmap string PeerSpec)) (kv : string * string)
  : option (gmap string PeerSpec) :=
  match peers, adjacencies !! kv with
  | Some peers, Some adjValue => Some (emplace kv.1 (peerSpec adjValue) peers)
  | _, _ => None
  end.

(** The two loops, on given traversal orders of the two hash maps. *)
Definition neighborToIface_loop (areaId : string)
    (adjacencies : list (AdjacencyKey * AdjacencyValue)) : gmap string string :=
  foldl (neighborToIface_step areaId) ∅ adjacencies.

Definition peers_loop (adjacencies : gmap AdjacencyKey AdjacencyValue)
    (neighborToIface : list (string * string))
  : option (gmap string PeerSpec) :=
  foldl (peers_step adjacencies) (Some ∅) neighborToIface.

Definition getPeersFromAdjacencies
    (adjacencies : gmap AdjacencyKey AdjacencyValue) (areaId : string)
  : option (gmap string PeerSpec) :=
  let neighborToIface :=
    neighborToIface_loop areaId (map_to_list adjacencies) in
  peers_loop adjacencies (map_to_list neighborToIface).

(** *** The advertised adjacency database *)

Definition set_adj_isOverloaded (b : bool) (a : Adjacency) : Adjacency :=
  mkAdjacency (otherNodeName a) (ifName a) (nextHopV6 a) (nextHopV4 a)
    (metric a) (adjLabel a) b (rtt a) (timestamp a) (weight a)
    (otherIfName a).

Definition set_metric (m : Z) (a : Adjacency) : Adjacency :=
  mkAdjacency (otherNodeName a) (ifName a) (nextHopV6 a) (nextHopV4 a)
    m (adjLabel a) (adj_isOverloaded a) (rtt a) (timestamp a) (weight a)
    (otherIfName a).

Definition set_rtt (r : Z) (a : Adjacency) : Adjacency :=
  mkAdjacency (otherNodeName a) (ifName a) (nextHopV6 a) (nextHopV4 a)
    (metric a) (adjLabel a) (adj_isOverloaded a) r (timestamp a) (weight a)
    (otherIfName a).

(** [addPerfEvent], from its declaration: one more event, stamped with the
    current time. *)
Definition addPerfEvent (perfEvents : list PerfEvent)
    (nodeName eventDescr : string) (now : Z) : list PerfEvent :=
  perfEvents ++ [mkPerfEvent nodeName eventDescr now].

(** Body of the loop of [buildAdjacencyDatabase]: [None] is [continue], a
    value is what [emplace_back] appends. *)
Definition buildAdjacency (state : LinkMonitorState) (areaId : string)
    (adjValue : AdjacencyValue) : option Adjacency :=
  if negb (bool_decide (area adjValue = areaId)) then None
  else
    let adj := adjacency adjValue in
    let adj :=
      set_adj_isOverloaded
        (bool_decide (ifName adj ∈ overloadedLinks state)) adj in
    let adj :=
      set_metric
        (default (metric adj) (linkMetricOverrides state !! ifName adj))
        adj in
    let adjKey : AdjKey := (otherNodeName adj, ifName adj) in
    let adj :=
      set_metric (default (metric adj) (adjMetricOverrides state !! adjKey))
        adj in
    Some adj.

Definition buildAdjacencyDatabase (areaId : string) (l : LinkMonitor)
  : AdjacencyDatabase :=
  mkAdjacencyDatabase
    (nodeId_ l)
    (isOverloaded (state_ l))
    (omap (fun kv => buildAdjacency (state_ l) areaId kv.2)
       (map_to_list (adjacencies_ l)))
    (if enableSegmentRouting_ l then nodeLabel (state_ l) else 0)
    areaId
    (if enablePerfMeasurement_ l
     then Some (addPerfEvent [] (nodeId_ l) "ADJ_DB_UPDATED" (now_ l))
     else None).

(** *** Peer sessions *)

Definition logPeerEvent (event peerName : string) (peerSpec : PeerSpec)
  : M unit :=
  l ← get;
  emit (PushLogSample
          [("event", event); ("node_name", nodeId_ l);
           ("peer_name", peerName); ("cmd_url", cmdUrl peerSpec)]).

Definition advertiseKvStorePeers (areaId : string)
    (upPeers : gmap string PeerSpec) : M unit :=
  l ← get;
  (* old and new peer list; [std::move] leaves [peers_[area]] empty *)
  let oldPeers := default ∅ (peers_ l !! areaId) in
  modify (set_peers_ <[areaId := ∅]>);;
  newPeers ← orThrow (getPeersFromAdjacencies (adjacencies_ l) areaId);
  (* peers to delete *)
  toDelPeers ← foldM (fun toDelPeers kv =>
      if bool_decide (newPeers !! kv.1 = None)
      then logPeerEvent "DEL_PEER" kv.1 (tPeerSpec kv.2);;
           mret (toDelPeers ++ [kv.1])
      else mret toDelPeers)
    [] (map_to_list oldPeers);
  let peerDelParams :=
    if (0 <? length toDelPeers)%nat then Some toDelPeers else None in
  (* peers to add *)
  toAddPeers ← foldM (fun toAddPeers kv =>
      let nodeName := kv.1 in
      let peerSpec := kv.2 in
      let oldPeerVal := oldPeers !! nodeName in
      let initialSynced :=
        match oldPeerVal with
        | None => false
        | Some v => initialSynced v
        end in
      modify (set_peers_ (fun peers =>
        <[areaId := emplace nodeName
                      (mkKvStorePeerValue peerSpec initialSynced)
                      (default ∅ (peers !! areaId))]> peers));;
      if match oldPeerVal with
         | Some v => bool_decide (tPeerSpec v = peerSpec)
         | None => false
         end
      then mret toAddPeers
      else logPeerEvent "ADD_PEER" nodeName peerSpec;;
           mret (emplace nodeName peerSpec toAddPeers))
    (∅ : gmap string PeerSpec) (map_to_list newPeers);
  toAddPeers ← foldM (fun toAddPeers kv =>
      let name := kv.1 in
      let spec := kv.2 in
      l1 ← get;
      areaPeers ← at_ (peers_ l1) areaId;
      (* upPeer MUST already be in current state peers_ *)
      CHECK (bool_decide (is_Some (areaPeers !! name)));;
      if bool_decide (is_Some (toAddPeers !! name)) then mret toAddPeers
      else
        peer ← at_ areaPeers name;
        if bool_decide (spec ≠ tPeerSpec peer) then mret toAddPeers
        else mret (emplace name spec toAddPeers))
    toAddPeers (map_to_list upPeers);
  let peerAddParams :=
    if (0 <? size toAddPeers)%nat then Some toAddPeers else None in
  if bool_decide (is_Some peerDelParams) || bool_decide (is_Some peerAddParams)
  then emit (PushPeerUpdate
               (mkPeerUpdateRequest areaId peerAddParams peerDelParams))
  else mret tt.

Definition advertiseKvStorePeers_all (upPeers : gmap string PeerSpec)
  : M unit :=
  l ← get;
  forM_ (fun kv => advertiseKvStorePeers kv.1 upPeers)
    (map_to_list (areas_ l)).

(** *** Advertising adjacencies *)

(** Modelled from the spec: [AsyncThrottle] is not among the sources.  "At
    most one fire per window; coalesce; cancellable.  State machine: IDLE ->
    ARMED (on request) -> IDLE (on fire or cancel)."  A request arms the
    throttle, or leaves it armed. *)
Definition advertiseAdjacenciesThrottled : M unit :=
  modify (set_advertiseAdjacenciesThrottled_ true).

Definition advertiseIfaceAddrThrottled : M unit :=
  modify (set_advertiseIfaceAddrThrottled_ true).

Definition advertiseAdjacencies_area (areaId : string) : M unit :=
  l ← get;
  if adjHoldTimer_ l then mret tt
  else
    (* cancel throttle timeout if scheduled *)
    (if advertiseAdjacenciesThrottled_ l
     then modify (set_advertiseAdjacenciesThrottled_ false)
     else mret tt);;
    l ← get;
    let adjDb := buildAdjacencyDatabase areaId l in
    (* persist [adj:node_Id] into KvStore *)
    let keyName := kAdjDbMarker (constants l) +:+ nodeId_ l in
    emit (PersistKey areaId keyName adjDb (ttlKeyInKvStore_ l));;
    (* config is most likely to have changed; the result is not awaited *)
    emit (StoreThriftObj kConfigKey (state_ l)).

Definition advertiseAdjacencies : M unit :=
  l ← get;
  forM_ (fun kv => advertiseAdjacencies_area kv.1) (map_to_list (areas_ l)).

(** *** Advertising interfaces and their addresses *)

Definition anyAreaShouldDiscoverOnIface (l : LinkMonitor) (iface : string)
  : bool :=
  foldl (fun anyMatch kv => anyMatch || shouldDiscoverOnIface kv.2 iface)
    false (map_to_list (areas_ l)).

Definition anyAreaShouldRedistributeIface (l : LinkMonitor) (iface : string)
  : bool :=
  foldl (fun anyMatch kv => anyMatch || shouldRedistributeIface kv.2 iface)
    false (map_to_list (areas_ l)).

Definition advertiseInterfaces : M unit :=
  l ← get;
  let ifDb :=
    foldl (fun ifDb kv =>
        if negb (anyAreaShouldDiscoverOnIface l kv.1) then ifDb
        else
          let interfaceInfo :=
            set_isUp (isActive kv.2) (getInterfaceInfo kv.2) in
          emplace kv.1 interfaceInfo ifDb)
      ∅ (map_to_list (interfaces_ l)) in
  emit (PushInterfaceDb (mkInterfaceDatabase (nodeId_ l) ifDb)).

(** What the inner loop of [advertiseRedistAddrs] does to one prefix. *)
Definition redistPrefix (l : LinkMonitor) (interface : InterfaceEntry)
    (p : PrefixEntry) : PrefixEntry :=
  mkPrefixEntry (prefix p) (type p)
    (prefixForwardingType_ l) (prefixForwardingAlgorithm_ l)
    ({[ nodeId_ l +:+ ":" +:+ getIfName interface ]}
       ∪ ({[ "INTERFACE_SUBNET"%string ]} ∪ tags p))
    (mkPrefixMetrics (kDefaultPathPreference (constants l))
       (kDefaultSourcePreference (constants l)) (distance (metrics p))).

Definition advertiseRedistAddrs : M unit :=
  l ← get;
  if adjHoldTimer_ l then mret tt
  else
    let areaPrefixes : gmap string (list PrefixEntry) :=
      foldl (fun areaPrefixes kv =>
          let interface := kv.2 in
          (* ignore in-active interfaces *)
          if negb (isActive interface) then areaPrefixes
          else
            let ifacePrefixes :=
              map (redistPrefix l interface)
                (getGlobalUnicastNetworks interface (enableV4_ l)) in
            foldl (fun areaPrefixes akv =>
                if shouldRedistributeIface akv.2 (getIfName interface)
                then <[akv.1 :=
                         default [] (areaPrefixes !! akv.1) ++ ifacePrefixes]>
                       areaPrefixes
                else areaPrefixes)
              areaPrefixes (map_to_list (areas_ l)))
        ∅ (map_to_list (interfaces_ l)) in
    forM_ (fun kv =>
        emit (PushPrefixUpdate
                (mkPrefixUpdateRequest SYNC_PREFIXES_BY_TYPE LOOPBACK
                   (default [] (areaPrefixes !! kv.1)) {[ kv.1 ]})))
      (map_to_list (areas_ l)).

Definition getRetryTimeOnUnstableInterfaces (l : LinkMonitor) : Z :=
  foldl (fun minRemainMs kv =>
      let interface := kv.2 in
      if isActive interface then minRemainMs
      else
        let curRemainMs := getBackoffDuration interface in
        if 0 <? curRemainMs
        then Z.min (linkflapMaxBackoff_ l) curRemainMs
        else minRemainMs)
    0 (map_to_list (interfaces_ l)).

Definition advertiseIfaceAddr : M unit :=
  l ← get;
  let retryTime := getRetryTimeOnUnstableInterfaces l in
  advertiseInterfaces;;
  advertiseRedistAddrs;;
  (* cancel throttle timeout if scheduled *)
  l ← get;
  (if advertiseIfaceAddrThrottled_ l
   then modify (set_advertiseIfaceAddrThrottled_ false)
   else mret tt);;
  if negb (retryTime =? 0)
  then modify (set_advertiseIfaceAddrTimer_ true)
  else mret tt.

(** *** Neighbor events *)

Definition enumName (t : SparkNeighborEventType) : string :=
  match t with
  | NEIGHBOR_UP => "NEIGHBOR_UP"
  | NEIGHBOR_DOWN => "NEIGHBOR_DOWN"
  | NEIGHBOR_RESTARTED => "NEIGHBOR_RESTARTED"
  | NEIGHBOR_RTT_CHANGE => "NEIGHBOR_RTT_CHANGE"
  | NEIGHBOR_RESTARTING => "NEIGHBOR_RESTARTING"
  | NEIGHBOR_UNKNOWN _ => ""
  end.

Definition logNeighborEvent (event : SparkNeighborEvent) : M unit :=
  emit (PushLogSample
          [("event", enumName (eventType event));
           ("neighbor", nodeName (info event));
           ("interface", localIfName (info event));
           ("remote_interface", remoteIfName (info event));
           ("area", nbr_area (info event));
           ("rtt_us", pretty (rttUs (info event)))]).

Definition neighborUpEvent (event : SparkNeighborEvent) : M unit :=
  l ← get;
  let nbr := info event in
  let neighborAddrV4 := transportAddressV4 nbr in
  let neighborAddrV6 := transportAddressV6 nbr in
  let remoteNodeName := nodeName nbr in
  let areaId := nbr_area nbr in
  (* current unixtime *)
  let timestamp := now_ l in
  let weight :=
    match interfaces_ l !! localIfName nbr with
    | Some interface => getWeight interface
    | None => 1
    end in
  let newAdj :=
    createThriftAdjacency
      remoteNodeName (localIfName nbr) neighborAddrV6 neighborAddrV4
      (if useRttMetric_ l then getRttMetric (rttUs nbr) else 1)
      (if enableSegmentRouting_ l then label nbr else 0)
      false
      (if useRttMetric_ l then rttUs nbr else 0)
      timestamp weight (remoteIfName nbr) in
  let repUrl :=
    if negb (mockMode_ l)
    then "tcp://[" +:+ neighborAddrV6 +:+ "%" +:+ localIfName nbr +:+ "]:"
         +:+ pretty (kvStoreCmdPort nbr)
    else "inproc://" +:+ remoteNodeName +:+ "-kvstore-cmd-global" in
  let peerAddr :=
    if negb (mockMode_ l)
    then neighborAddrV6 +:+ "%" +:+ localIfName nbr
    else "::1%" +:+ localIfName nbr in
  CHECK (negb (String.eqb repUrl ""));;
  CHECK (negb (String.eqb peerAddr ""));;
  let peerSpec := createPeerSpec repUrl peerAddr (openrCtrlThriftPort nbr) in
  let adjId : AdjacencyKey := (remoteNodeName, localIfName nbr) in
  modify (set_adjacencies_
            <[adjId := mkAdjacencyValue areaId peerSpec newAdj false]>);;
  (* advertise KvStore peers immediately *)
  advertiseKvStorePeers areaId {[ remoteNodeName := peerSpec ]};;
  (* advertise new adjacencies in a throttled fashion *)
  advertiseAdjacenciesThrottled.

Definition neighborDownEvent (event : SparkNeighborEvent) : M unit :=
  let nbr := info event in
  let adjId : AdjacencyKey := (nodeName nbr, localIfName nbr) in
  modify (set_adjacencies_ (delete adjId));;
  (* advertise both peers and adjacencies *)
  advertiseKvStorePeers (nbr_area nbr) ∅;;
  advertiseAdjacencies_area (nbr_area nbr).

Definition set_isRestarting (b : bool) (v : AdjacencyValue) : AdjacencyValue :=
  mkAdjacencyValue (area v) (peerSpec v) (adjacency v) b.

Definition set_adjacency (f : Adjacency -> Adjacency) (v : AdjacencyValue)
  : AdjacencyValue :=
  mkAdjacencyValue (area v) (peerSpec v) (f (adjacency v)) (isRestarting v).

Definition neighborRestartingEvent (event : SparkNeighborEvent) : M unit :=
  let nbr := info event in
  let adjId : AdjacencyKey := (nodeName nbr, localIfName nbr) in
  (* update the restarting bit and advertise peers *)
  modify (set_adjacencies_ (alter (set_isRestarting true) adjId));;
  advertiseKvStorePeers (nbr_area nbr) ∅.

Definition neighborRttChangeEvent (event : SparkNeighborEvent) : M unit :=
  l ← get;
  let nbr := info event in
  let newRttMetric := getRttMetric (rttUs nbr) in
  let adjId : AdjacencyKey := (nodeName nbr, localIfName nbr) in
  match adjacencies_ l !! adjId with
  | Some _ =>
      modify (set_adjacencies_
                (alter (set_adjacency
                          (fun adj => set_rtt (Int32.wrap (rttUs nbr))
                                        (set_metric newRttMetric adj)))
                       adjId));;
      advertiseAdjacenciesThrottled
  | None => mret tt
  end.

Definition processNeighborEvent (event : SparkNeighborEvent) : M unit :=
  l ← get;
  match eventType event with
  | NEIGHBOR_UP | NEIGHBOR_RESTARTED =>
      logNeighborEvent event;; neighborUpEvent event
  | NEIGHBOR_RESTARTING =>
      logNeighborEvent event;; neighborRestartingEvent event
  | NEIGHBOR_DOWN =>
      logNeighborEvent event;; neighborDownEvent event
  | NEIGHBOR_RTT_CHANGE =>
      if negb (useRttMetric_ l) then mret tt
      else logNeighborEvent event;; neighborRttChangeEvent event
  | NEIGHBOR_UNKNOWN value =>
      emit (LogError ("Unknown event type " +:+ pretty value))
  end.

(** *** Drain commands *)

Definition setNodeOverload (overloaded : bool) : M unit :=
  l ← get;
  (if bool_decide (isOverloaded (state_ l) = overloaded) then mret tt
   else
     modify (set_state_ (set_isOverloaded overloaded));;
     advertiseAdjacencies);;
  emit SetValue.

Definition setInterfaceOverload (interfaceName : string) (overloaded : bool)
  : M unit :=
  l ← get;
  let cmd :=
    if overloaded then "SET_LINK_OVERLOAD" else "UNSET_LINK_OVERLOAD" in
  if bool_decide (interfaces_ l !! interfaceName = None)
  then
    emit (LogError ("Skip cmd: [" +:+ cmd +:+ "] due to unknown interface: "
                    +:+ interfaceName));;
    emit SetValue
  else if overloaded
          && bool_decide (interfaceName ∈ overloadedLinks (state_ l))
  then emit SetValue
  else if negb overloaded
          && negb (bool_decide (interfaceName ∈ overloadedLinks (state_ l)))
  then emit SetValue
  else
    (if overloaded
     then modify (set_state_ (fun st =>
            set_overloadedLinks ({[ interfaceName ]} ∪ overloadedLinks st) st))
     else modify (set_state_ (fun st =>
            set_overloadedLinks (overloadedLinks st ∖ {[ interfaceName ]}) st)));;
    advertiseAdjacenciesThrottled;;
    emit SetValue.

Definition setLinkMetric (interfaceName : string) (overrideMetric : option Z)
  : M unit :=
  l ← get;
  let cmd :=
    if bool_decide (is_Some overrideMetric)
    then "SET_LINK_METRIC" else "UNSET_LINK_METRIC" in
  let current := linkMetricOverrides (state_ l) !! interfaceName in
  if bool_decide (interfaces_ l !! interfaceName = None)
  then
    emit (LogError ("Skip cmd: [" +:+ cmd +:+ "] due to unknown interface: "
                    +:+ interfaceName));;
    emit SetValue
  else if bool_decide (is_Some overrideMetric)
          && bool_decide (is_Some current)
          && bool_decide (current = overrideMetric)
  then emit SetValue
  else if negb (bool_decide (is_Some overrideMetric))
          && negb (bool_decide (is_Some current))
  then emit SetValue
  else
    match overrideMetric with
    | Some value =>
        modify (set_state_ (fun st =>
          set_linkMetricOverrides
            (<[interfaceName := value]> (linkMetricOverrides st)) st))
    | None =>
        modify (set_state_ (fun st =>
          set_linkMetricOverrides
            (delete interfaceName (linkMetricOverrides st)) st))
    end;;
    advertiseAdjacenciesThrottled;;
    emit SetValue.

Definition setAdjacencyMetric (interfaceName adjNodeName : string)
    (overrideMetric : option Z) : M unit :=
  l ← get;
  let cmd :=
    if bool_decide (is_Some overrideMetric)
    then "SET_ADJACENCY_METRIC" else "UNSET_ADJACENCY_METRIC" in
  let adjKey : AdjKey := (adjNodeName, interfaceName) in
  let current := adjMetricOverrides (state_ l) !! adjKey in
  (* invalid adj encountered: ignore *)
  if bool_decide (adjacencies_ l !! (adjNodeName, interfaceName) = None)
  then
    emit (LogError ("Skip cmd: [" +:+ cmd +:+ "] due to unknown adj: ["
                    +:+ adjNodeName +:+ ":" +:+ interfaceName +:+ "]"));;
    emit SetValue
  else if bool_decide (is_Some overrideMetric)
          && bool_decide (is_Some current)
          && bool_decide (current = overrideMetric)
  then emit SetValue
  else if negb (bool_decide (is_Some overrideMetric))
          && negb (bool_decide (is_Some current))
  then emit SetValue
  else
    match overrideMetric with
    | Some value =>
        modify (set_state_ (fun st =>
          set_adjMetricOverrides
            (<[adjKey := value]> (adjMetricOverrides st)) st))
    | None =>
        modify (set_state_ (fun st =>
          set_adjMetricOverrides
            (delete adjKey (adjMetricOverrides st)) st))
    end;;
    advertiseAdjacenciesThrottled;;
    emit SetValue.

(** *** Construction *)

(** What the constructor reads from [Config]. *)
Record Config : Type := mkConfig {
  getNodeName : string;
  isV4Enabled : bool;
  isSegmentRoutingEnabled : bool;
  prefix_forwarding_type : PrefixForwardingType;
  prefix_forwarding_algorithm : PrefixForwardingAlgorithm;
  use_rtt_metric : bool;
  linkflap_max_backoff_ms : Z;
  getKvStoreKeyTtl : Z;
  getAreas : gmap string AreaConfiguration
}.

(** The part of the constructor that sets [state_]: [loaded] is the result
    of [configStore_->loadThriftObj<thrift::LinkMonitorState>(kConfigKey)],
    [None] when it holds no value. *)
Definition initialState (loaded : option LinkMonitorState)
    (assumeDrained overrideDrainState : bool) : LinkMonitorState :=
  let state_ :=
    match loaded with
    | Some state => state
    | None =>
        (* no persistent store found, use assumeDrained *)
        set_isOverloaded assumeDrained defaultLinkMonitorState
    end in
  (* overrideDrainState provided, use assumeDrained *)
  if overrideDrainState then set_isOverloaded assumeDrained state_
  else state_.

(** The constructed object: the hold timer is scheduled, the throttles are
    idle, nothing is known of neighbors or interfaces. *)
Definition LinkMonitor_new (c : Constants) (config : Config)
    (enablePerfMeasurement : bool) (loaded : option LinkMonitorState)
    (assumeDrained overrideDrainState : bool) (now : Z) : LinkMonitor :=
  mkLinkMonitor c
    (getNodeName config)
    enablePerfMeasurement
    (isV4Enabled config)
    (isSegmentRoutingEnabled config)
    (prefix_forwarding_type config)
    (prefix_forwarding_algorithm config)
    (use_rtt_metric config)
    (linkflap_max_backoff_ms config)
    (getKvStoreKeyTtl config)
    (getAreas config)
    false
    (initialState loaded assumeDrained overrideDrainState)
    ∅ ∅ ∅
    true false false false now.

(** *** The event loop *)

(** What the event base can run next: an event read from a queue, a command
    posted by the control handler, or the expiry of a timer.

    [InterfacesChanged] stands for [processNetlinkEvent] and
    [syncInterfaces]: they update [InterfaceEntry] objects, whose code is not
    among the sources, and an entry that changes may request
    [advertiseIfaceAddrThrottled_] or schedule [advertiseIfaceAddrTimer_].
    What the handlers themselves log or throw (the [value()] of an address
    without prefix) is not part of it, so nothing is stated about such a
    turn ending normally.
    [NodeLabelAllocated] is the callback given to the range allocator. *)
Inductive Input : Type :=
| NeighborEvent (event : SparkNeighborEvent)
| InterfacesChanged (interfaces : gmap string InterfaceEntry)
    (throttle timer : bool)
| SetNodeOverload (overloaded : bool)
| SetInterfaceOverload (interfaceName : string) (overloaded : bool)
| SetLinkMetric (interfaceName : string) (overrideMetric : option Z)
| SetAdjacencyMetric (interfaceName adjNodeName : string)
    (overrideMetric : option Z)
| AdjHoldTimerExpired
| AdvertiseAdjacenciesThrottledExpired
| AdvertiseIfaceAddrThrottledExpired
| AdvertiseIfaceAddrTimerExpired
| NodeLabelAllocated (newVal : option Z).

(** One turn of the event loop at time [now].  A timer that is not scheduled
    does not expire. *)
Definition step (now : Z) (i : Input) : M unit :=
  modify (set_now_ now);;
  l ← get;
  match i with
  | NeighborEvent event => processNeighborEvent event
  | InterfacesChanged interfaces throttle timer =>
      modify (set_interfaces_ interfaces);;
      (if throttle then advertiseIfaceAddrThrottled else mret tt);;
      (if timer then modify (set_advertiseIfaceAddrTimer_ true) else mret tt)
  | SetNodeOverload overloaded => setNodeOverload overloaded
  | SetInterfaceOverload interfaceName overloaded =>
      setInterfaceOverload interfaceName overloaded
  | SetLinkMetric interfaceName overrideMetric =>
      setLinkMetric interfaceName overrideMetric
  | SetAdjacencyMetric interfaceName adjNodeName overrideMetric =>
      setAdjacencyMetric interfaceName adjNodeName overrideMetric
  | AdjHoldTimerExpired =>
      if adjHoldTimer_ l
      then
        modify (set_adjHoldTimer_ false);;
        (* advertise adjacencies and addresses after hold-timeout *)
        advertiseAdjacencies;;
        advertiseRedistAddrs
      else mret tt
  | AdvertiseAdjacenciesThrottledExpired =>
      if advertiseAdjacenciesThrottled_ l
      then
        modify (set_advertiseAdjacenciesThrottled_ false);;
        advertiseAdjacencies
      else mret tt
  | AdvertiseIfaceAddrThrottledExpired =>
      if advertiseIfaceAddrThrottled_ l
      then
        modify (set_advertiseIfaceAddrThrottled_ false);;
        advertiseIfaceAddr
      else mret tt
  | AdvertiseIfaceAddrTimerExpired =>
      if advertiseIfaceAddrTimer_ l
      then
        modify (set_advertiseIfaceAddrTimer_ false);;
        advertiseIfaceAddr
      else mret tt
  | NodeLabelAllocated newVal =>
      modify (set_state_ (set_nodeLabel (default 0 newVal)));;
      advertiseAdjacencies
  end.

Definition run (inputs : list (Z * Input)) : M unit :=
  forM_ (fun ti => step ti.1 ti.2) inputs.

(** *** Queries *)

Record InterfaceDetails : Type := mkInterfaceDetails {
  details_info : InterfaceInfo;
  details_isOverloaded : bool;
  metricOverride : option Z;
  linkFlapBackOffMs : option Z
}.

Record DumpLinksReply : Type := mkDumpLinksReply {
  reply_thisNodeName : string;
  reply_isOverloaded : bool;
  interfaceDetails : gmap string InterfaceDetails
}.

(** [getInterfaces]: the value of the future, read from the object on the
    event base. *)
Definition getInterfaces (l : LinkMonitor) : DumpLinksReply :=
  mkDumpLinksReply (nodeId_ l) (isOverloaded (state_ l))
    (foldl (fun interfaceDetails kv =>
        let ifName := kv.1 in
        let interface := kv.2 in
        let ifDetails :=
          mkInterfaceDetails
            (getInterfaceInfo interface)
            (bool_decide (ifName ∈ overloadedLinks (state_ l)))
            (* metric override, if any *)
            (linkMetricOverrides (state_ l) !! ifName)
            (* link-backoff *)
            (if negb (getBackoffDuration interface =? 0)
             then Some (getBackoffDuration interface) else None) in
        emplace ifName ifDetails interfaceDetails)
      ∅ (map_to_list (interfaces_ l))).

(** [getAdjacencies]: [selectAreas] of the filter in the order it is
    traversed. *)
Definition getAdjacencies (selectAreas : list string) (l : LinkMonitor)
  : list AdjacencyDatabase :=
  match selectAreas with
  | [] =>
      map (fun kv => buildAdjacencyDatabase kv.1 l) (map_to_list (areas_ l))
  | _ => map (fun areaId => buildAdjacencyDatabase areaId l) selectAreas
  end.

(** *** Links of the system *)

(** What [getAllLinks] reads of [fbnl::Link] and [fbnl::IfAddress]. *)
Record Link : Type := mkLink {
  getLinkName : string;
  link_getIfIndex : Z;
  link_isUp : bool
}.

Record IfAddress : Type := mkIfAddress {
  getIfIndex : Z;
  getPrefix : option string
}.

Record LinkEntry : Type := mkLinkEntry {
  le_ifName : string;
  le_ifIndex : Z;
  le_isUp : bool;
  le_networks : list string
}.

Definition add_network (network : string) (e : LinkEntry) : LinkEntry :=
  mkLinkEntry (le_ifName e) (le_ifIndex e) (le_isUp e)
    (le_networks e ++ [network]).

(** [folly::Expected<T, int>]. *)
Inductive Expected (A : Type) : Type :=
| HasValue (value : A)
| HasError (error : Z).
Arguments HasValue {A} value.
Arguments HasError {A} error.

(** What the continuation of [getAllLinks] can throw. *)
Inductive Thrown : Type :=
| NlException (msg : string) (code : Z)
| out_of_range
| bad_optional_access.

(** The continuation of [getAllLinks], on the two results collected from the
    netlink socket. *)
Definition getAllLinks (nlLinks : Expected (list Link))
    (nlAddrs : Expected (list IfAddress)) : Thrown + list LinkEntry :=
  match nlLinks with
  | HasError code => inl (NlException "Failed fetching links" code)
  | HasValue nlLinks =>
      (* create links, with empty addresses *)
      let links : gmap Z LinkEntry :=
        foldl (fun links nlLink =>
            emplace (link_getIfIndex nlLink)
              (mkLinkEntry (getLinkName nlLink) (link_getIfIndex nlLink)
                 (link_isUp nlLink) [])
              links)
          ∅ nlLinks in
      match nlAddrs with
      | HasError code => inl (NlException "Failed fetching addrs" code)
      | HasValue nlAddrs =>
          (* add addresses *)
          let links : Thrown + gmap Z LinkEntry :=
            foldl (fun links nlAddr =>
                match links with
                | inl thrown => inl thrown
                | inr links =>
                    match links !! getIfIndex nlAddr with
                    | None => inl out_of_range
                    | Some link =>
                        match getPrefix nlAddr with
                        | None => inl bad_optional_access
                        | Some network =>
                            inr (<[getIfIndex nlAddr :=
                                     add_network network link]> links)
                        end
                    end
                end)
              (inr links) nlAddrs in
          (* convert to list *)
          match links with
          | inl thrown => inl thrown
          | inr links => inr (map snd (map_to_list links))
          end
      end
  end.

End LinkMonitor.

(** ** Vocabulary of the specification *)

Module Spec.
Import LinkMonitor.

(** An adjacency counts for the peers of an area when it belongs to the area
    and its neighbor is not restarting. *)
Definition eligible (areaId : string) (v : AdjacencyValue) : Prop :=
  area v = areaId /\ isRestarting v = false.

(** Publishing an adjacency database into the KvStore, or a prefix update
    to the prefix manager. *)
Definition isAdvertisement (e : Effect) : bool :=
  match e with
  | PersistKey _ _ _ _ | PushPrefixUpdate _ => true
  | _ => false
  end.

(** The drain state being handed to the config store. *)
Definition isStore (state : LinkMonitorState) (e : Effect) : Prop :=
  e = StoreThriftObj kConfigKey state.

(** The command answering its caller with an error. *)
Definition isError (e : Effect) : Prop := exists what, e = SetException what.

(** [c] run on [l] ends normally, and [Q] holds of its result, the object it
    leaves and what it emitted. *)
Definition wp {A : Type} (c : M A) (l : LinkMonitor)
    (Q : A -> LinkMonitor -> list Effect -> Prop) : Prop :=
  exists a l' out, c l = Some (a, l', out) /\ Q a l' out.

(** [cancel()] of the adjacency throttle, when it is active. *)
Definition cancelThrottle (l : LinkMonitor) : LinkMonitor :=
  if advertiseAdjacenciesThrottled_ l
  then set_advertiseAdjacenciesThrottled_ false l
  else l.

(** What [advertiseAdjacencies(area)] emits once the hold timer is over. *)
Definition advertisement (l : LinkMonitor) (areaId : string) : list Effect :=
  [ PersistKey areaId (kAdjDbMarker (constants l) +:+ nodeId_ l)
      (buildAdjacencyDatabase areaId l) (ttlKeyInKvStore_ l);
    StoreThriftObj kConfigKey (state_ l) ].

(** The round-trip time last measured on each adjacency that is up,
    following the adjacency state machine of the specification: UP or
    RESTARTED inserts the adjacency, DOWN removes it, RTT-CHANGE updates an
    adjacency that is up when [use-rtt-metric] is set. *)
Definition measuredRtt_step (useRtt : bool) (rtts : gmap (string * string) Z)
    (i : Input) : gmap (string * string) Z :=
  match i with
  | NeighborEvent event =>
      let k := (nodeName (info event), localIfName (info event)) in
      match eventType event with
      | NEIGHBOR_UP | NEIGHBOR_RESTARTED => <[k := rttUs (info event)]> rtts
      | NEIGHBOR_DOWN => delete k rtts
      | NEIGHBOR_RTT_CHANGE =>
          if useRtt then alter (fun _ => rttUs (info event)) k rtts else rtts
      | _ => rtts
      end
  | _ => rtts
  end.

Definition measuredRtt (useRtt : bool) (inputs : list (Z * Input))
  : gmap (string * string) Z :=
  foldl (fun rtts ti => measuredRtt_step useRtt rtts ti.2) ∅ inputs.

(** The metric pipeline of the specification, on a base metric. *)
Definition overriddenMetric (state : LinkMonitorState) (node iface : string)
    (base : Z) : Z :=
  match adjMetricOverrides state !! (node, iface) with
  | Some m => m
  | None =>
      match linkMetricOverrides state !! iface with
      | Some m => m
      | None => base
      end
  end.

(** Nothing in [out] is an advertisement. *)
Definition quiet (out : list Effect) : Prop :=
  Forall (fun e => isAdvertisement e = false) out.

(** [l'] is [l] up to members that neither the metric pipeline nor the hold
    timer depend on, and [out] holds no advertisement if the hold timer is
    scheduled. *)
Definition steady (l l' : LinkMonitor) (out : list Effect) : Prop :=
  useRttMetric_ l' = useRttMetric_ l
  /\ adjHoldTimer_ l' = adjHoldTimer_ l
  /\ adjacencies_ l' = adjacencies_ l
  /\ (adjHoldTimer_ l = true -> quiet out).

Definition Steady {A : Type} (c : M A) (l : LinkMonitor) : Prop :=
  wp c l (fun _ l' out => steady l l' out).

(** The key under which an event's adjacency is held. *)
Definition adjIdOf (event : SparkNeighborEvent) : string * string :=
  (nodeName (info event), localIfName (info event)).

(** [l'] has the adjacencies and the metric mode of [l]. *)
Definition calm (l l' : LinkMonitor) : Prop :=
  useRttMetric_ l' = useRttMetric_ l /\ adjacencies_ l' = adjacencies_ l.

(** Every adjacency held by the module is stored under its own names, and
    its metric is the base metric of the round-trip time last measured. *)
Definition adjacencies_measured (l : LinkMonitor)
    (rtts : gmap (string * string) Z) : Prop :=
  forall k v, adjacencies_ l !! k = Some v ->
    otherNodeName (adjacency v) = k.1
    /\ ifName (adjacency v) = k.2
    /\ exists r, rtts !! k = Some r
         /\ metric (adjacency v)
            = if useRttMetric_ l then getRttMetric r else 1.

(** A sample pushed to the log queue. *)
Definition isLogSample (e : Effect) : Prop :=
  exists sample, e = PushLogSample sample.

(** Whether the session to a node was synchronised already. *)
Definition wasSynced (old : gmap string KvStorePeerValue) (n : string) : bool :=
  match old !! n with
  | Some v => initialSynced v
  | None => false
  end.

(** The request that ends [advertiseKvStorePeers], if there is anything to
    delete or to add. *)
Definition peerUpdate (areaId : string) (toDelPeers : list string)
    (toAddPeers : gmap string PeerSpec) : list Effect :=
  match toDelPeers, decide (toAddPeers = ∅) with
  | [], left _ => []
  | _, _ =>
      [ PushPeerUpdate
          (mkPeerUpdateRequest areaId
             (if decide (toAddPeers = ∅) then None else Some toAddPeers)
             (match toDelPeers with [] => None | _ => Some toDelPeers end)) ]
  end.

(** What [advertiseKvStorePeers] leaves behind: the peers of the area mirror
    the peers derived from the adjacencies, and the request it pushes names
    the peers that went away and those that are new, changed or up again. *)
Definition peersAdvertised (areaId : string) (upPeers : gmap string PeerSpec)
    (l : LinkMonitor) (_ : unit) (l' : LinkMonitor) (out : list Effect)
  : Prop :=
  let old := default ∅ (peers_ l !! areaId) in
  exists newPeers m toDelPeers toAddPeers logs,
    getPeersFromAdjacencies (adjacencies_ l) areaId = Some newPeers
    /\ l' = set_peers_ (fun _ => <[areaId := m]> (peers_ l)) l
    /\ out = logs ++ peerUpdate areaId toDelPeers toAddPeers
    /\ (forall n, m !! n
                  = (fun spec => mkKvStorePeerValue spec (wasSynced old n))
                    <$> newPeers !! n)
    /\ (forall n, n ∈ toDelPeers <-> is_Some (old !! n) /\ newPeers !! n = None)
    /\ (forall n spec,
          toAddPeers !! n = Some spec ->
          newPeers !! n = Some spec
          /\ (tPeerSpec <$> old !! n <> Some spec
              \/ upPeers !! n = Some spec))
    /\ (forall n spec,
          upPeers !! n = Some spec -> newPeers !! n = Some spec ->
          toAddPeers !! n = Some spec)
    /\ Forall isLogSample logs.

(** The entry [getAllLinks] creates for a link, before its addresses. *)
Definition newLinkEntry (nlLink : Link) : LinkEntry :=
  mkLinkEntry (getLinkName nlLink) (link_getIfIndex nlLink) (link_isUp nlLink)
    [].

(** [nlLink] is the first link of the list with its interface index. *)
Definition firstWithIndex (nlLinks : list Link) (nlLink : Link) : Prop :=
  exists pre post,
    nlLinks = pre ++ nlLink :: post
    /\ Forall (fun k => link_getIfIndex k <> link_getIfIndex nlLink) pre.

(** The prefixes of the addresses on an interface index, in order. *)
Definition networksOf (ifIndex : Z) (nlAddrs : list IfAddress) : list string :=
  omap (fun nlAddr =>
          if bool_decide (getIfIndex nlAddr = ifIndex)
          then getPrefix nlAddr else None)
    nlAddrs.

(** An address that [getAllLinks] can attach: it has a prefix, and a link
    has its interface index. *)
Definition knownAddress (nlLinks : list Link) (nlAddr : IfAddress) : Prop :=
  is_Some (getPrefix nlAddr)
  /\ exists k, k ∈ nlLinks /\ link_getIfIndex k = getIfIndex nlAddr.

(** A method that never changes the tracked interfaces, when it returns. *)
Definition keepsInterfaces {A : Type} (c : M A) : Prop :=
  forall l a l' out, c l = Some (a, l', out) -> interfaces_ l' = interfaces_ l.

(** A turn that stands for the netlink handlers, whose code on
    [InterfaceEntry] is not embedded. *)
Definition isInterfacesChanged (i : Input) : bool :=
  match i with
  | InterfacesChanged _ _ _ => true
  | _ => false
  end.

(** The command [c] changes the drain state of [l] and leaves the
    re-advertisement to the throttle: it answers without publishing and
    arms the throttle; when the throttle fires it is idle again, the drain
    state is the changed one, and the adjacency database of every area,
    built from the changed object, is written to the KvStore, unless the
    hold timer is still scheduled, in which case nothing is emitted. *)
Definition throttledReadvertise (l : LinkMonitor) (c : M unit) : Prop :=
  exists l',
    c l = Some (tt, l', [SetValue])
    /\ state_ l' <> state_ l
    /\ advertiseAdjacenciesThrottled_ l' = true
    /\ forall t, exists l'' out,
         step t AdvertiseAdjacenciesThrottledExpired l' = Some (tt, l'', out)
         /\ advertiseAdjacenciesThrottled_ l'' = false
         /\ state_ l'' = state_ l'
         /\ (adjHoldTimer_ l = false ->
             forall areaId conf, areas_ l !! areaId = Some conf ->
               In (PersistKey areaId
                     (kAdjDbMarker (constants l) +:+ nodeId_ l)
                     (buildAdjacencyDatabase areaId (set_now_ t l'))
                     (ttlKeyInKvStore_ l)) out)
         /\ (adjHoldTimer_ l = true -> out = []).

(** What one turn of the event loop keeps: the adjacencies stay in step
    with the measured round-trip times, the metric mode is fixed, and while
    the hold timer is scheduled only its expiry ends the silence. *)
Definition turn_post (l : LinkMonitor) (rtts rtts' : gmap (string * string) Z)
    (expiry : Prop) (l' : LinkMonitor) (out : list Effect) : Prop :=
  (adjacencies_measured l rtts -> adjacencies_measured l' rtts')
  /\ useRttMetric_ l' = useRttMetric_ l
  /\ (adjHoldTimer_ l = true -> ~ expiry ->
      adjHoldTimer_ l' = true /\ quiet out).

(** The drain commands whose re-advertisement goes through the throttle. *)
Inductive ThrottledCommand : M unit -> Prop :=
| throttled_setInterfaceOverload interfaceName overloaded :
    ThrottledCommand (setInterfaceOverload interfaceName overloaded)
| throttled_setLinkMetric interfaceName overrideMetric :
    ThrottledCommand (setLinkMetric interfaceName overrideMetric)
| throttled_setAdjacencyMetric interfaceName adjNodeName overrideMetric :
    ThrottledCommand
      (setAdjacencyMetric interfaceName adjNodeName overrideMetric).

End Spec.

(** ** Concrete inputs *)

Module Examples.

(** Three advertisements of one prefix: two tie on the best tuple. *)
Definition prefixes3 : gmap string Util.PrefixMetrics :=
  <[ "node1"%string := Util.mkPrefixMetrics 1000 200 10 ]>
  (<[ "node2"%string := Util.mkPrefixMetrics 1000 200 10 ]>
  (<[ "node3"%string := Util.mkPrefixMetrics 1000 100 1 ]> ∅)).

(** Parallel links to [node2], one of them restarting, and a link to
    [node3] in another area. *)
Definition spec_eth (n : string) : LinkMonitor.PeerSpec :=
  LinkMonitor.createPeerSpec ("tcp://[fe80::2%" +:+ n +:+ "]:60002")
    ("fe80::2%" +:+ n) 2018.

Definition adj_eth (node n : string) : LinkMonitor.Adjacency :=
  LinkMonitor.createThriftAdjacency node n "fe80::2" "10.0.0.2" 1 0 false 0
    1600000000 1 n.

Definition adjacencies4
  : gmap (string * string) LinkMonitor.AdjacencyValue :=
  <[ ("node2", "eth2")%string :=
       LinkMonitor.mkAdjacencyValue "0" (spec_eth "eth2")
         (adj_eth "node2" "eth2") false ]>
  (<[ ("node2", "eth10")%string :=
       LinkMonitor.mkAdjacencyValue "0" (spec_eth "eth10")
         (adj_eth "node2" "eth10") false ]>
  (<[ ("node2", "eth1")%string :=
       LinkMonitor.mkAdjacencyValue "0" (spec_eth "eth1")
         (adj_eth "node2" "eth1") true ]>
  (<[ ("node3", "eth3")%string :=
       LinkMonitor.mkAdjacencyValue "1" (spec_eth "eth3")
         (adj_eth "node3" "eth3") false ]> ∅))).

(** An MPLS route with a PHP next-hop via [N1] and a SWAP next-hop via
    [N2]. *)
Definition nhPhp : Util.NextHopThrift :=
  Util.createNextHop "fe80::1" (Some "eth1"%string) 10
    (Some (Util.createMplsAction Util.PHP None None)) None
    (Some "N1"%string).

Definition nhSwap : Util.NextHopThrift :=
  Util.createNextHop "fe80::2" (Some "eth2"%string) 10
    (Some (Util.createMplsAction Util.SWAP (Some 100002) None)) None
    (Some "N2"%string).

(** A state found in the config store: not drained, one link drained. *)
Definition persisted : LinkMonitor.LinkMonitorState :=
  LinkMonitor.mkLinkMonitorState false {[ "eth7"%string ]}
    {[ "eth1"%string := 5 ]} 101 ∅.

(** A neighbor that comes up with a measured round-trip time of
    214748364800 us, whose hundredth is [2 ^ 31]. *)
Definition upSlow : LinkMonitor.SparkNeighborEvent :=
  LinkMonitor.createSparkNeighborEvent LinkMonitor.NEIGHBOR_UP
    (LinkMonitor.createSparkNeighbor "node2" "10.0.0.2" "fe80::2" 60002 2018
       0 214748364800 "eth0" "eth0" "0").

(** A neighbor that comes up with a round-trip time of 1.5 ms. *)
Definition upFast : LinkMonitor.SparkNeighborEvent :=
  LinkMonitor.createSparkNeighborEvent LinkMonitor.NEIGHBOR_UP
    (LinkMonitor.createSparkNeighbor "node2" "10.0.0.2" "fe80::2" 60002 2018
       0 1500 "eth0" "eth0" "0").

(** A node with one area that matches every interface. *)
Definition constants0 : LinkMonitor.Constants :=
  LinkMonitor.mkConstants "adj:" 1000 200 1.

Definition config0 : LinkMonitor.Config :=
  LinkMonitor.mkConfig "node1" true false Util.IP Util.SP_ECMP true 60000
    300000
    {[ "0"%string :=
         LinkMonitor.mkAreaConfiguration (fun _ => true) (fun _ => true) ]}.

Definition eth0 : LinkMonitor.InterfaceEntry :=
  LinkMonitor.mkInterfaceEntry "eth0"
    (LinkMonitor.createThriftInterfaceInfo true 2 ["fe80::1/64"%string])
    true 1 0 (fun _ => []).

(** The object as constructed, with nothing in the config store. *)
Definition lm_new : LinkMonitor.LinkMonitor :=
  LinkMonitor.LinkMonitor_new constants0 config0 false None false false 0.

(** The same node once [eth0] is known and the hold timer has expired. *)
Definition lm_started : LinkMonitor.LinkMonitor :=
  match
    LinkMonitor.run
      [ (1, LinkMonitor.InterfacesChanged {[ "eth0"%string := eth0 ]}
              false false);
        (2, LinkMonitor.AdjHoldTimerExpired) ] lm_new
  with
  | Some (_, l, _) => l
  | None => lm_new
  end.

(** A node that holds the four adjacencies of [adjacencies4]. *)
Definition lm_adjacent : LinkMonitor.LinkMonitor :=
  LinkMonitor.set_adjacencies_ (fun _ => adjacencies4) lm_started.

(** Links and addresses as the netlink socket lists them: two links share
    the interface index 2. *)
Definition nlLinks3 : list LinkMonitor.Link :=
  [ LinkMonitor.mkLink "lo" 1 true;
    LinkMonitor.mkLink "eth0" 2 true;
    LinkMonitor.mkLink "dup" 2 false ].

Definition nlAddrs3 : list LinkMonitor.IfAddress :=
  [ LinkMonitor.mkIfAddress 2 (Some "fe80::1/64"%string);
    LinkMonitor.mkIfAddress 1 (Some "::1/128"%string);
    LinkMonitor.mkIfAddress 2 (Some "10.0.0.1/24"%string) ].


(** The started node once [node2] came up on [eth0]. *)
Definition lm_linked : LinkMonitor.LinkMonitor :=
  match LinkMonitor.run [ (3, LinkMonitor.NeighborEvent upFast) ] lm_started
  with
  | Some (_, l, _) => l
  | None => lm_started
  end.

(** Events about the adjacency to [node2] on [eth2], and the loss of the
    one on [eth0]. *)
Definition nbrEth2 : LinkMonitor.SparkNeighbor :=
  LinkMonitor.createSparkNeighbor "node2" "10.0.0.2" "fe80::2" 60002 2018
    0 2500 "eth2" "eth2" "0".

Definition downEth2 : LinkMonitor.SparkNeighborEvent :=
  LinkMonitor.createSparkNeighborEvent LinkMonitor.NEIGHBOR_DOWN nbrEth2.

Definition restartingEth2 : LinkMonitor.SparkNeighborEvent :=
  LinkMonitor.createSparkNeighborEvent LinkMonitor.NEIGHBOR_RESTARTING nbrEth2.

Definition rttEth2 : LinkMonitor.SparkNeighborEvent :=
  LinkMonitor.createSparkNeighborEvent LinkMonitor.NEIGHBOR_RTT_CHANGE nbrEth2.

Definition downEth0 : LinkMonitor.SparkNeighborEvent :=
  LinkMonitor.createSparkNeighborEvent LinkMonitor.NEIGHBOR_DOWN
    (LinkMonitor.info upFast).

(** An interface with a global unicast network, and the started node
    tracking it. *)
Definition prefix0g : Util.PrefixEntry :=
  Util.mkPrefixEntry "2001:db8::1/64" Util.LOOPBACK Util.SR_MPLS
    Util.KSP2_ED_ECMP ∅ (Util.mkPrefixMetrics 0 0 1).

Definition eth0g : LinkMonitor.InterfaceEntry :=
  LinkMonitor.mkInterfaceEntry "eth0"
    (LinkMonitor.createThriftInterfaceInfo true 2
       ["fe80::1/64"; "2001:db8::1/64"]%string)
    true 1 0 (fun _ => [prefix0g]).

Definition lm_addressed : LinkMonitor.LinkMonitor :=
  LinkMonitor.set_interfaces_ {[ "eth0"%string := eth0g ]} lm_started.

(** An interface that went down and backs off for three seconds, beside
    [eth0]. *)
Definition eth5down : LinkMonitor.InterfaceEntry :=
  LinkMonitor.mkInterfaceEntry "eth5"
    (LinkMonitor.createThriftInterfaceInfo false 5 [])
    false 1 3000 (fun _ => []).

Definition lm_flapping : LinkMonitor.LinkMonitor :=
  LinkMonitor.set_interfaces_
    (<[ "eth5"%string := eth5down ]> (LinkMonitor.interfaces_ lm_started))
    lm_started.

(** Turns of the event loop that involve no netlink event. *)
Definition turns_no_netlink : list (Z * LinkMonitor.Input) :=
  [ (1, LinkMonitor.NeighborEvent upFast);
    (2, LinkMonitor.NeighborEvent downEth2);
    (3, LinkMonitor.SetAdjacencyMetric "eth0" "node2" (Some 9));
    (4, LinkMonitor.AdjHoldTimerExpired);
    (5, LinkMonitor.NeighborEvent restartingEth2);
    (6, LinkMonitor.NeighborEvent downEth0);
    (7, LinkMonitor.AdvertiseAdjacenciesThrottledExpired) ].

(** Turns of the event loop before the hold timer expires. *)
Definition turns_in_hold : list (Z * LinkMonitor.Input) :=
  [ (1, LinkMonitor.InterfacesChanged {[ "eth0"%string := eth0 ]} true false);
    (2, LinkMonitor.NeighborEvent upFast);
    (3, LinkMonitor.SetNodeOverload true);
    (4, LinkMonitor.AdvertiseAdjacenciesThrottledExpired);
    (5, LinkMonitor.AdvertiseIfaceAddrThrottledExpired) ].

End Examples.

(** * Properties *)

(** ** Best-route selection on [PrefixMetrics] *)

Section SelectBestProofs.
Import Util.
Context {Key : Type} `{Countable Key}.
Context {W : Type} `{MetricsWrapper W}.

(** The order of the tuples, as a proposition. *)
Lemma tuple_ltb_spec (a1 a2 a3 b1 b2 b3 : Z) :
  tuple_ltb (a1, a2, a3) (b1, b2, b3) = true
  <-> a1 < b1 \/ (a1 = b1 /\ (a2 < b2 \/ (a2 = b2 /\ a3 < b3))).
Proof.
  unfold tuple_ltb.
  rewrite !orb_true_iff, !andb_true_iff, !orb_true_iff, !andb_true_iff,
    !Z.ltb_lt, !Z.eqb_eq.
  reflexivity.
Qed.

Lemma tuple_ltb_false_spec (a1 a2 a3 b1 b2 b3 : Z) :
  tuple_ltb (a1, a2, a3) (b1, b2, b3) = false
  <-> b1 < a1 \/ (a1 = b1 /\ (b2 < a2 \/ (a2 = b2 /\ b3 <= a3))).
Proof.
  rewrite <- not_true_iff_false, tuple_ltb_spec. lia.
Qed.

Local Ltac tuple_cases :=
  unfold tuple_leb;
  repeat match goal with
         | t : MetricsTuple |- _ => destruct t as [[? ?] ?]
         end;
  rewrite ?negb_true_iff, ?tuple_ltb_spec, ?tuple_ltb_false_spec.

Lemma tuple_ltb_irrefl (a : MetricsTuple) : tuple_ltb a a = false.
Proof. tuple_cases. lia. Qed.

Lemma tuple_leb_refl (a : MetricsTuple) : tuple_leb a a = true.
Proof. unfold tuple_leb. now rewrite tuple_ltb_irrefl. Qed.

Lemma tuple_ltb_leb (a b : MetricsTuple) :
  tuple_ltb a b = true -> tuple_leb a b = true.
Proof. tuple_cases. lia. Qed.

Lemma tuple_eq_of_not_ltb (a b : MetricsTuple) :
  tuple_ltb a b = false -> tuple_ltb b a = false -> a = b.
Proof. tuple_cases. intros Hab Hba. repeat f_equal; lia. Qed.

Lemma tuple_leb_antisym (a b : MetricsTuple) :
  tuple_leb a b = true -> tuple_leb b a = true -> a = b.
Proof.
  unfold tuple_leb. intros Hab Hba.
  apply tuple_eq_of_not_ltb; now apply negb_true_iff.
Qed.

Lemma tuple_leb_ltb_trans (a b c : MetricsTuple) :
  tuple_leb a b = true -> tuple_ltb b c = true -> tuple_leb a c = true.
Proof. tuple_cases. lia. Qed.

Lemma wrap_in_range (z : Z) : Int32.in_range (Int32.wrap z).
Proof.
  unfold Int32.in_range, Int32.wrap, Int32.min_signed, Int32.max_signed,
    Int32.modulus.
  pose proof (Z.mod_pos_bound (z - - 2 ^ 31) (2 ^ 32) ltac:(lia)). lia.
Qed.

Lemma in_rangeb_spec (z : Z) :
  Int32.in_rangeb z = true <-> Int32.in_range z.
Proof.
  unfold Int32.in_rangeb, Int32.in_range.
  rewrite andb_true_iff, !Z.leb_le. tauto.
Qed.

(** No tuple of [int32_t] values is below the initial [bestMetricsTuple]. *)
Lemma worst_is_least (m : PrefixMetrics) :
  int32_metrics m = true ->
  tuple_ltb (metricsTuple m) worstMetricsTuple = false.
Proof.
  unfold int32_metrics. rewrite !andb_true_iff, !in_rangeb_spec.
  intros [[Hp Hs] _]. pose proof (wrap_in_range (distance m * -1)) as Hd.
  unfold metricsTuple, worstMetricsTuple, Int32.in_range in *.
  apply tuple_ltb_false_spec. lia.
Qed.

(** Where the negation does not overflow, the third component is
    [- distance]. *)
Lemma metricsTuple_neg (m : PrefixMetrics) :
  Int32.min_signed < distance m <= Int32.max_signed ->
  metricsTuple m
  = (path_preference m, source_preference m, - distance m).
Proof.
  intros Hd. unfold metricsTuple. do 2 f_equal.
  unfold Int32.wrap, Int32.min_signed, Int32.max_signed, Int32.modulus in *.
  rewrite Z.mod_small; lia.
Qed.

(** The loop invariant, on the part [l] of the map already visited. *)
Lemma selectBest_loop_inv (l : list (Key * W)) :
  Forall (fun kv => int32_metrics (metrics_ref kv.2) = true) l ->
  let acc := selectBest_loop l in
  (forall k w, (k, w) ∈ l ->
     tuple_leb (metricsTuple (metrics_ref w)) acc.1 = true)
  /\ (forall k, k ∈ acc.2 <->
       exists w, (k, w) ∈ l /\ metricsTuple (metrics_ref w) = acc.1)
  /\ (l <> [] -> exists k, k ∈ acc.2).
Proof.
  unfold selectBest_loop.
  induction l as [| [k0 w0] l IH] using rev_ind; intros Hr; cbv zeta.
  - split; [| split]; simpl.
    + intros k w Hin. inversion Hin.
    + intros k. split; [intros Hk; now apply elem_of_empty in Hk |].
      intros (w & Hin & _). inversion Hin.
    + congruence.
  - apply Forall_app in Hr as [Hr Hr0].
    specialize (IH Hr). rewrite Forall_singleton in Hr0. cbn [snd] in Hr0.
    rewrite foldl_snoc.
    destruct (foldl selectBest_step (worstMetricsTuple, ∅) l)
      as [best keys] eqn:Hacc.
    destruct IH as (Hup & Hkeys & Hatt). cbn [fst snd] in *.
    set (t := metricsTuple (metrics_ref w0)).
    assert (Hl0 : l = [] -> best = worstMetricsTuple).
    { intros ->. simpl in Hacc. congruence. }
    unfold selectBest_step; cbn [fst snd]. fold t.
    destruct (tuple_ltb t best) eqn:Hlt; cbn [fst snd].
    + (* skipped: some earlier entry is strictly better *)
      destruct l as [| kv l'].
      { rewrite (Hl0 eq_refl) in Hlt. unfold t in Hlt.
        rewrite (worst_is_least _ Hr0) in Hlt. discriminate. }
      split; [| split]; cbn [fst snd].
      * intros k w [Hin | Hin]%elem_of_app; [eauto |].
        apply list_elem_of_singleton in Hin. injection Hin as -> ->.
        now apply tuple_ltb_leb.
      * intros k. rewrite Hkeys. split.
        -- intros (w & Hin & Heq). exists w. split; [| assumption].
           apply elem_of_app. now left.
        -- intros (w & [Hin | Hin]%elem_of_app & Heq); [eauto |].
           apply list_elem_of_singleton in Hin. injection Hin as -> ->.
           fold t in Heq. rewrite Heq, tuple_ltb_irrefl in Hlt.
           discriminate.
      * intros _. apply Hatt. discriminate.
    + destruct (tuple_ltb best t) eqn:Hgt; cbn [fst snd].
      * (* new best: the set is cleared *)
        split; [| split]; cbn [fst snd].
        -- intros k w [Hin | Hin]%elem_of_app.
           ++ eapply tuple_leb_ltb_trans; eauto.
           ++ apply list_elem_of_singleton in Hin. injection Hin as -> ->.
              apply tuple_leb_refl.
        -- intros k. split.
           ++ intros [Hk | Hk]%elem_of_union;
                [| now apply elem_of_empty in Hk].
              apply elem_of_singleton in Hk as ->.
              exists w0. split; [| reflexivity].
              apply elem_of_app. right. now apply list_elem_of_singleton.
           ++ intros (w & [Hin | Hin]%elem_of_app & Heq).
              ** specialize (Hup _ _ Hin). rewrite Heq in Hup.
                 unfold tuple_leb in Hup. rewrite Hgt in Hup. discriminate.
              ** apply list_elem_of_singleton in Hin. injection Hin as -> ->.
                 now apply elem_of_union_l, elem_of_singleton.
        -- intros _. exists k0. now apply elem_of_union_l, elem_of_singleton.
      * (* tie with the best seen so far *)
        assert (Heq : t = best) by now apply tuple_eq_of_not_ltb.
        split; [| split]; cbn [fst snd].
        -- intros k w [Hin | Hin]%elem_of_app; [eauto |].
           apply list_elem_of_singleton in Hin. injection Hin as -> ->.
           fold t. rewrite Heq. apply tuple_leb_refl.
        -- intros k. rewrite elem_of_union, elem_of_singleton, Hkeys.
           split.
           ++ intros [-> | (w & Hin & Hw)].
              ** exists w0. split; [| exact Heq].
                 apply elem_of_app. right. now apply list_elem_of_singleton.
              ** exists w. split; [| assumption]. apply elem_of_app. now left.
           ++ intros (w & [Hin | Hin]%elem_of_app & Hw); [right; eauto |].
              apply list_elem_of_singleton in Hin. injection Hin as -> ->.
              now left.
        -- intros _. exists k0. now apply elem_of_union_l, elem_of_singleton.
Qed.

(** The keys returned by the loop are the entries of maximal tuple,
    whatever the traversal order. *)
Lemma selectBest_loop_spec (l : list (Key * W)) (k : Key) :
  Forall (fun kv => int32_metrics (metrics_ref kv.2) = true) l ->
  k ∈ (selectBest_loop l).2 <->
  exists w, (k, w) ∈ l /\
    forall k' w', (k', w') ∈ l ->
      tuple_leb (metricsTuple (metrics_ref w'))
                (metricsTuple (metrics_ref w)) = true.
Proof.
  intros Hr. destruct (selectBest_loop_inv l Hr) as (Hup & Hkeys & Hatt).
  rewrite Hkeys. split.
  - intros (w & Hin & Heq). exists w. split; [assumption |].
    intros k' w' Hin'. rewrite Heq. eauto.
  - intros (w & Hin & Hmax). exists w. split; [assumption |].
    destruct Hatt as [k1 Hk1]. { intros ->. inversion Hin. }
    apply Hkeys in Hk1 as (w1 & Hin1 & Heq1).
    apply tuple_leb_antisym; [eauto |].
    rewrite <- Heq1. eauto.
Qed.

End SelectBestProofs.

Example selectBest_prefixes3 :
  Util.selectBestPrefixMetrics Examples.prefixes3 = {[ "node1"%string; "node2"%string ]}.
Proof. vm_compute. reflexivity. Qed.



(** ** Peers derived from the adjacencies *)

Section PeersProofs.
Import LinkMonitor Spec.

Lemma ascii_compare_refl (c : ascii) : Ascii.compare c c = Eq.
Proof. unfold Ascii.compare. apply N.compare_refl. Qed.

Lemma string_compare_refl (s : string) : String.compare s s = Eq.
Proof.
  induction s as [| c s IH]; simpl; [reflexivity |].
  now rewrite ascii_compare_refl.
Qed.

Lemma string_compare_lt_trans (a b c : string) :
  String.compare a b = Lt -> String.compare b c <> Gt ->
  String.compare a c = Lt.
Proof.
  revert b c. induction a as [| x a IH]; intros [| y b] [| z c]; simpl;
    try congruence.
  unfold Ascii.compare.
  destruct (N.compare_spec (N_of_ascii x) (N_of_ascii y)) as [Hxy | Hxy | Hxy];
    destruct (N.compare_spec (N_of_ascii y) (N_of_ascii z)) as [Hyz | Hyz | Hyz];
    try congruence; intros Hab Hbc.
  - rewrite Hxy, Hyz, N.compare_refl. eauto.
  - rewrite Hxy. now apply N.compare_lt_iff in Hyz as ->.
  - rewrite <- Hyz. now apply N.compare_lt_iff in Hxy as ->.
  - assert (N_of_ascii x < N_of_ascii z)%N as Hxz by lia.
    now apply N.compare_lt_iff in Hxz as ->.
Qed.

Lemma string_leb_refl (s : string) : String.leb s s = true.
Proof. unfold String.leb. now rewrite string_compare_refl. Qed.

Lemma string_ltb_leb_trans (a b c : string) :
  String.ltb a b = true -> String.leb b c = true -> String.leb a c = true.
Proof.
  unfold String.ltb, String.leb. intros Hab Hbc.
  rewrite (string_compare_lt_trans a b c); [reflexivity | |].
  - destruct (String.compare a b); congruence.
  - destruct (String.compare b c); congruence.
Qed.

Lemma string_not_ltb_leb (a b : string) :
  String.ltb a b = false -> String.leb b a = true.
Proof.
  unfold String.ltb, String.leb. rewrite (String.compare_antisym a b).
  destruct (String.compare b a); simpl; congruence.
Qed.

Lemma eligible_step (areaId : string) (v : AdjacencyValue) :
  negb (bool_decide (area v = areaId)) || isRestarting v = false
  <-> eligible areaId v.
Proof.
  unfold eligible. rewrite orb_false_iff, negb_false_iff, bool_decide_eq_true.
  tauto.
Qed.

(** Invariant of the first loop, on the adjacencies [p] already visited:
    a recorded interface is the smallest eligible one of its neighbor, and
    every neighbor with an eligible adjacency is recorded. *)
Lemma neighborToIface_loop_inv (areaId : string)
    (p : list ((string * string) * AdjacencyValue)) :
  let m := neighborToIface_loop areaId p in
  (forall n i, m !! n = Some i ->
     exists v, ((n, i), v) ∈ p /\ eligible areaId v /\
       forall i' v', ((n, i'), v') ∈ p -> eligible areaId v' ->
         String.leb i i' = true)
  /\ (forall n i v, ((n, i), v) ∈ p -> eligible areaId v -> is_Some (m !! n)).
Proof.
  unfold neighborToIface_loop.
  induction p as [| [[n0 i0] v0] p IH] using rev_ind; cbv zeta.
  - split.
    + intros n i Hn. cbn in Hn. rewrite lookup_empty in Hn. discriminate.
    + intros n i v Hin. inversion Hin.
  - destruct IH as [I1 I2]. rewrite foldl_snoc.
    set (m := foldl (neighborToIface_step areaId) ∅ p) in *.
    unfold neighborToIface_step; cbn [fst snd].
    destruct (negb (bool_decide (area v0 = areaId)) || isRestarting v0)
      eqn:Hel.
    { (* skipped *)
      assert (Hnel : ~ eligible areaId v0).
      { intros He%eligible_step. congruence. }
      split.
      - intros n i Hn. destruct (I1 n i Hn) as (v & Hin & Hev & Hmin).
        exists v. split; [apply elem_of_app; now left |]. split; [done |].
        intros i' v' [Hin' | Hin']%elem_of_app He'; [eauto |].
        apply list_elem_of_singleton in Hin'. injection Hin' as -> -> ->.
        contradiction.
      - intros n i v [Hin | Hin]%elem_of_app He; [eauto |].
        apply list_elem_of_singleton in Hin. injection Hin as -> -> ->.
        contradiction. }
    apply eligible_step in Hel.
    assert (Hnew : forall (m' : gmap string string),
      m' = <[n0 := i0]> m ->
      (forall i' v', ((n0, i'), v') ∈ p -> eligible areaId v' ->
         String.leb i0 i' = true) ->
      (forall n i, m' !! n = Some i ->
         exists v, ((n, i), v) ∈ p ++ [((n0, i0), v0)] /\ eligible areaId v /\
           forall i' v', ((n, i'), v') ∈ p ++ [((n0, i0), v0)] ->
             eligible areaId v' -> String.leb i i' = true)
      /\ (forall n i v, ((n, i), v) ∈ p ++ [((n0, i0), v0)] ->
            eligible areaId v -> is_Some (m' !! n))).
    { intros m' -> Hmin0. split.
      - intros n i Hn. destruct (decide (n = n0)) as [-> | Hne].
        + rewrite lookup_insert_eq in Hn. injection Hn as <-.
          exists v0. split; [apply elem_of_app; right; constructor |].
          split; [done |].
          intros i' v' [Hin' | Hin']%elem_of_app He'; [eauto |].
          apply list_elem_of_singleton in Hin'. injection Hin' as -> ->.
          apply string_leb_refl.
        + rewrite lookup_insert_ne in Hn by congruence.
          destruct (I1 n i Hn) as (v & Hin & Hev & Hmin).
          exists v. split; [apply elem_of_app; now left |]. split; [done |].
          intros i' v' [Hin' | Hin']%elem_of_app He'; [eauto |].
          apply list_elem_of_singleton in Hin'. injection Hin' as -> -> ->.
          congruence.
      - intros n i v Hin He. destruct (decide (n = n0)) as [-> | Hne].
        + rewrite lookup_insert_eq. eauto.
        + rewrite lookup_insert_ne by congruence.
          apply elem_of_app in Hin as [Hin | Hin]; [eauto |].
          apply list_elem_of_singleton in Hin. injection Hin as -> -> ->.
          congruence. }
    destruct (m !! n0) as [cur |] eqn:Hcur.
    + destruct (String.ltb i0 cur) eqn:Hlt.
      * apply Hnew; [reflexivity |].
        intros i' v' Hin' He'.
        destruct (I1 n0 cur Hcur) as (_ & _ & _ & Hmin).
        eapply string_ltb_leb_trans; eauto.
      * (* the recorded interface stays the smallest *)
        split.
        -- intros n i Hn. destruct (I1 n i Hn) as (v & Hin & Hev & Hmin).
           exists v. split; [apply elem_of_app; now left |]. split; [done |].
           intros i' v' [Hin' | Hin']%elem_of_app He'; [eauto |].
           apply list_elem_of_singleton in Hin'. injection Hin' as -> -> ->.
           assert (i = cur) as -> by congruence.
           now apply string_not_ltb_leb.
        -- intros n i v [Hin | Hin]%elem_of_app He; [eauto |].
           apply list_elem_of_singleton in Hin. injection Hin as -> -> ->.
           eauto.
    + apply Hnew; [reflexivity |].
      intros i' v' Hin' He'. destruct (I2 _ _ _ Hin' He') as [x Hx].
      congruence.
Qed.

Lemma emplace_lookup {V : Type} (k k' : string) (v : V) (m : gmap string V) :
  emplace k v m !! k'
  = match m !! k with
    | Some _ => m !! k'
    | None => if decide (k = k') then Some v else m !! k'
    end.
Proof.
  unfold emplace. destruct (m !! k) eqn:Hk; [reflexivity |].
  apply lookup_insert.
Qed.

(** The second loop never throws when every recorded pair is an adjacency,
    and it maps each neighbor to the peer spec of its recorded interface. *)
Lemma peers_loop_spec (adjs : gmap (string * string) AdjacencyValue)
    (l : list (string * string)) :
  NoDup l.*1 ->
  (forall kv, kv ∈ l -> is_Some (adjs !! kv)) ->
  exists peers, peers_loop adjs l = Some peers /\
    forall n spec, peers !! n = Some spec <->
      exists i v, (n, i) ∈ l /\ adjs !! (n, i) = Some v /\ peerSpec v = spec.
Proof.
  unfold peers_loop.
  induction l as [| [n0 i0] l IH] using rev_ind; intros Hnd Hall.
  - exists ∅. split; [reflexivity |]. intros n spec. split.
    + intros Hn. rewrite lookup_empty in Hn. discriminate.
    + intros (i & v & Hin & _). inversion Hin.
  - rewrite fmap_app in Hnd. apply NoDup_app in Hnd as (Hnd & Hfresh & _).
    destruct IH as (peers & Hpeers & Hspec); [done | |].
    { intros kv Hin. apply Hall, elem_of_app. now left. }
    destruct (Hall (n0, i0)) as [v0 Hv0].
    { apply elem_of_app. right. constructor. }
    rewrite foldl_snoc, Hpeers. unfold peers_step. rewrite Hv0.
    eexists. split; [reflexivity |]. cbn [fst snd].
    assert (Hnone : peers !! n0 = None).
    { destruct (peers !! n0) as [spec0 |] eqn:Hp; [| reflexivity].
      apply Hspec in Hp as (i & v & Hin & _). exfalso.
      apply (Hfresh n0).
      - apply list_elem_of_fmap. exists (n0, i). done.
      - simpl. constructor. }
    intros n spec. rewrite emplace_lookup, Hnone.
    destruct (decide (n0 = n)) as [<- | Hne].
    + split.
      * intros [= <-]. exists i0, v0. split; [| done].
        apply elem_of_app. right. constructor.
      * intros (i & v & [Hin | Hin]%elem_of_app & Hv & Hs).
        -- exfalso. apply (Hfresh n0).
           ++ apply list_elem_of_fmap. exists (n0, i). done.
           ++ simpl. constructor.
        -- apply list_elem_of_singleton in Hin. injection Hin as ->.
           congruence.
    + rewrite Hspec. split.
      * intros (i & v & Hin & Hv). exists i, v. split; [| done].
        apply elem_of_app. now left.
      * intros (i & v & [Hin | Hin]%elem_of_app & Hv); [eauto |].
        apply list_elem_of_singleton in Hin. congruence.
Qed.

(** What the first loop records, in terms of the adjacency map. *)
Lemma neighborToIface_spec (adjs : gmap (string * string) AdjacencyValue)
    (areaId : string) :
  let m := neighborToIface_loop areaId (map_to_list adjs) in
  (forall n i, m !! n = Some i ->
     exists v, adjs !! (n, i) = Some v /\ eligible areaId v /\
       forall i' v', adjs !! (n, i') = Some v' -> eligible areaId v' ->
         String.leb i i' = true)
  /\ (forall n i v, adjs !! (n, i) = Some v -> eligible areaId v ->
        is_Some (m !! n)).
Proof.
  destruct (neighborToIface_loop_inv areaId (map_to_list adjs)) as [I1 I2].
  cbv zeta. split.
  - intros n i Hn. destruct (I1 n i Hn) as (v & Hin & He & Hmin).
    exists v. split; [now apply elem_of_map_to_list |]. split; [done |].
    intros i' v' Hin'%elem_of_map_to_list. eauto.
  - intros n i v Hin%elem_of_map_to_list. eauto.
Qed.

(** [getPeersFromAdjacencies] never throws, and its result maps a neighbor
    to the peer spec of its smallest eligible interface. *)
Lemma getPeersFromAdjacencies_lookup
    (adjs : gmap (string * string) AdjacencyValue) (areaId : string) :
  exists peers, getPeersFromAdjacencies adjs areaId = Some peers /\
    forall n spec, peers !! n = Some spec <->
      exists i v, adjs !! (n, i) = Some v /\ eligible areaId v /\
        peerSpec v = spec /\
        forall i' v', adjs !! (n, i') = Some v' -> eligible areaId v' ->
          String.leb i i' = true.
Proof.
  unfold getPeersFromAdjacencies.
  destruct (neighborToIface_spec adjs areaId) as [I1 I2].
  set (m := neighborToIface_loop areaId (map_to_list adjs)) in *.
  destruct (peers_loop_spec adjs (map_to_list m)) as (peers & Hp & Hspec).
  - apply NoDup_fst_map_to_list.
  - intros [n i] Hin%elem_of_map_to_list.
    destruct (I1 n i Hin) as (v & Hv & _). eauto.
  - exists peers. split; [exact Hp |]. intros n spec. rewrite Hspec. split.
    + intros (i & v & Hin%elem_of_map_to_list & Hv & Hs).
      destruct (I1 n i Hin) as (v' & Hv' & He & Hmin).
      assert (v' = v) as -> by congruence. exists i, v. done.
    + intros (i & v & Hv & He & Hs & Hmin).
      destruct (I2 n i v Hv He) as [i0 Hi0].
      destruct (I1 n i0 Hi0) as (v0 & Hv0 & He0 & Hmin0).
      assert (i0 = i) as ->.
      { apply String.leb_antisym; eauto. }
      exists i, v. split; [now apply elem_of_map_to_list | done].
Qed.

(** A neighbor is a peer exactly when one of its adjacencies is eligible. *)
Lemma getPeersFromAdjacencies_dom
    (adjs : gmap (string * string) AdjacencyValue) (areaId : string)
    (peers : gmap string PeerSpec) (n : string) :
  getPeersFromAdjacencies adjs areaId = Some peers ->
  is_Some (peers !! n) <->
  exists i v, adjs !! (n, i) = Some v /\ eligible areaId v.
Proof.
  intros Hp.
  destruct (getPeersFromAdjacencies_lookup adjs areaId) as (peers' & Hp' & Hspec).
  assert (peers' = peers) as -> by congruence. split.
  - intros [spec Hs]. apply Hspec in Hs as (i & v & Hv & He & _). eauto.
  - intros (i & v & Hv & He).
    destruct (neighborToIface_spec adjs areaId) as [I1 I2].
    destruct (I2 n i v Hv He) as [i0 Hi0].
    destruct (I1 n i0 Hi0) as (v0 & Hv0 & He0 & Hmin0).
    exists (peerSpec v0). apply Hspec. exists i0, v0. done.
Qed.

(** C1. For every adjacency map and area, [getPeersFromAdjacencies] returns
    a map that has an entry for a remote node exactly when the node has a
    non-restarting adjacency in the area; the entry is the peer spec of the
    adjacency whose local interface name is lexicographically smallest among
    them, and restarting adjacencies and adjacencies of other areas play no
    part.  The result being a map, a node has at most one entry. *)
Theorem getPeersFromAdjacencies_spec
    (adjs : gmap (string * string) AdjacencyValue) (areaId : string) :
  exists peers, getPeersFromAdjacencies adjs areaId = Some peers /\
    (forall n, is_Some (peers !! n) <->
       exists i v, adjs !! (n, i) = Some v /\ eligible areaId v) /\
    (forall n spec, peers !! n = Some spec <->
       exists i v, adjs !! (n, i) = Some v /\ eligible areaId v /\
         peerSpec v = spec /\
         forall i' v', adjs !! (n, i') = Some v' -> eligible areaId v' ->
           String.leb i i' = true).
Proof.
  destruct (getPeersFromAdjacencies_lookup adjs areaId) as (peers & Hp & Hspec).
  exists peers. split; [exact Hp |]. split; [| exact Hspec].
  intros n. eapply getPeersFromAdjacencies_dom; eauto.
Qed.

Example getPeers_adjacencies4 :
  getPeersFromAdjacencies Examples.adjacencies4 "0"
  = Some {[ "node2"%string := Examples.spec_eth "eth10" ]}.
Proof. vm_compute. reflexivity. Qed.

End PeersProofs.

(** ** MPLS next-hop selection *)

Section MplsProofs.
Import Util.

Lemma hasAction_inj (c1 c2 : MplsActionCode) (nh : NextHopThrift) :
  hasAction c1 nh = true -> hasAction c2 nh = true -> c1 = c2.
Proof.
  unfold hasAction. destruct (mplsAction nh) as [a |]; [| discriminate].
  rewrite !bool_decide_eq_true. congruence.
Qed.

(** C4. [selectMplsNextHops] returns next-hops of its argument that all
    carry one MPLS action code; when a PHP next-hop is present the result is
    exactly the PHP next-hops, so that every SWAP next-hop is dropped. *)
Theorem selectMplsNextHops_prefers_php (nextHops : list NextHopThrift) :
  (forall nh, In nh (selectMplsNextHops nextHops) -> In nh nextHops)
  /\ (exists code, forall nh,
        In nh (selectMplsNextHops nextHops) -> hasAction code nh = true)
  /\ ((exists nh, In nh nextHops /\ hasAction PHP nh = true) ->
      (forall nh, In nh (selectMplsNextHops nextHops) <->
                  In nh nextHops /\ hasAction PHP nh = true)
      /\ (forall nh, In nh (selectMplsNextHops nextHops) ->
                     hasAction SWAP nh = false)).
Proof.
  unfold selectMplsNextHops. split; [| split].
  - intros nh Hin. now apply filter_In in Hin.
  - eexists. intros nh Hin. apply filter_In in Hin as [_ Hc]. exact Hc.
  - intros Hphp. apply existsb_exists in Hphp as ->. split.
    + intros nh. apply filter_In.
    + intros nh Hin. apply filter_In in Hin as [_ Hc].
      destruct (hasAction SWAP nh) eqn:Hs; [| reflexivity].
      discriminate (hasAction_inj _ _ _ Hc Hs).
Qed.

(** Scenario "MPLS PHP preference": only the PHP next-hop is programmed. *)
Example selectMplsNextHops_scenario :
  selectMplsNextHops [Examples.nhPhp; Examples.nhSwap] = [Examples.nhPhp].
Proof. reflexivity. Qed.

(** Without a PHP next-hop the SWAP next-hops are kept. *)
Lemma selectMplsNextHops_swap_only (nextHops : list NextHopThrift) :
  (forall nh, In nh nextHops -> hasAction PHP nh = false) ->
  selectMplsNextHops nextHops = List.filter (hasAction SWAP) nextHops.
Proof.
  intros Hno. unfold selectMplsNextHops.
  destruct (existsb (hasAction PHP) nextHops) eqn:He; [| reflexivity].
  apply existsb_exists in He as (nh & Hin & Hp).
  rewrite (Hno nh Hin) in Hp. discriminate.
Qed.

End MplsProofs.

(** ** The state after construction *)

Section ConstructionProofs.
Import LinkMonitor.

(** C9, as the constructor has it.  Without a persisted state the initial
    state is the default one with [isOverloaded] set to [assumeDrained];
    with a persisted state, the initial state is the persisted one when
    [overrideDrainState] is unset, and the persisted one with [isOverloaded]
    replaced by [assumeDrained] when it is set. *)
Theorem initialState_spec (c : Constants) (config : Config) (perf : bool)
    (loaded : option LinkMonitorState) (assumeDrained overrideDrainState : bool)
    (now : Z) :
  state_ (LinkMonitor_new c config perf loaded assumeDrained
            overrideDrainState now)
  = match loaded with
    | None => set_isOverloaded assumeDrained defaultLinkMonitorState
    | Some persisted =>
        if overrideDrainState then set_isOverloaded assumeDrained persisted
        else persisted
    end.
Proof.
  unfold LinkMonitor_new, initialState; cbn [state_].
  destruct loaded as [persisted |], overrideDrainState; reflexivity.
Qed.

(** C10. With [overrideDrainState], [isOverloaded] of the initial state is
    [assumeDrained] whether or not a persisted state was loaded, and every
    other field of a loaded state is kept. *)
Theorem initialState_override (c : Constants) (config : Config) (perf : bool)
    (loaded : option LinkMonitorState) (persisted : LinkMonitorState)
    (assumeDrained : bool) (now : Z) :
  isOverloaded
    (state_ (LinkMonitor_new c config perf loaded assumeDrained true now))
  = assumeDrained
  /\ let st :=
       state_ (LinkMonitor_new c config perf (Some persisted) assumeDrained
                 true now) in
     isOverloaded st = assumeDrained
     /\ overloadedLinks st = overloadedLinks persisted
     /\ linkMetricOverrides st = linkMetricOverrides persisted
     /\ nodeLabel st = nodeLabel persisted
     /\ adjMetricOverrides st = adjMetricOverrides persisted.
Proof.
  unfold LinkMonitor_new, initialState; cbn [state_].
  split; [destruct loaded; reflexivity |]. cbv zeta. repeat split.
Qed.

End ConstructionProofs.

(** ** Reasoning about methods *)

Section MethodLogic.
Import LinkMonitor Spec.

Lemma wp_ret {A : Type} (a : A) (l : LinkMonitor) Q :
  Q a l [] -> wp (mret a) l Q.
Proof. intros HQ. now exists a, l, []. Qed.

Lemma wp_bind {A B : Type} (c : M A) (k : A -> M B) (l : LinkMonitor) Q :
  wp c l (fun a l1 out1 => wp (k a) l1 (fun b l2 out2 => Q b l2 (out1 ++ out2)))
  -> wp (c ≫= k) l Q.
Proof.
  intros (a & l1 & out1 & Hc & b & l2 & out2 & Hk & HQ).
  exists b, l2, (out1 ++ out2). split; [| exact HQ].
  unfold mbind, M_bind. now rewrite Hc, Hk.
Qed.

Lemma wp_mono {A : Type} (c : M A) (l : LinkMonitor) (Q Q' : _ -> _ -> _ -> Prop) :
  wp c l Q -> (forall a l' out, Q a l' out -> Q' a l' out) -> wp c l Q'.
Proof. intros (a & l' & out & Hc & HQ) Himp. exists a, l', out. eauto. Qed.

Lemma wp_get (l : LinkMonitor) Q : Q l l [] -> wp get l Q.
Proof. intros HQ. now exists l, l, []. Qed.

Lemma wp_modify (f : LinkMonitor -> LinkMonitor) (l : LinkMonitor) Q :
  Q tt (f l) [] -> wp (modify f) l Q.
Proof. intros HQ. now exists tt, (f l), []. Qed.

Lemma wp_emit (e : Effect) (l : LinkMonitor) Q :
  Q tt l [e] -> wp (emit e) l Q.
Proof. intros HQ. now exists tt, l, [e]. Qed.

Lemma wp_CHECK (b : bool) (l : LinkMonitor) Q :
  b = true -> Q tt l [] -> wp (CHECK b) l Q.
Proof. intros -> HQ. now exists tt, l, []. Qed.

Lemma wp_orThrow {A : Type} (o : option A) (a : A) (l : LinkMonitor) Q :
  o = Some a -> Q a l [] -> wp (orThrow o) l Q.
Proof. intros -> HQ. now exists a, l, []. Qed.

Lemma wp_at {V : Type} `{Countable K} (m : gmap K V) (k : K) (v : V)
    (l : LinkMonitor) Q :
  m !! k = Some v -> Q v l [] -> wp (at_ m k) l Q.
Proof. apply wp_orThrow. Qed.

(** A loop with an accumulator: [Inv] relates the elements already visited
    to the accumulator, the object and what the loop emitted so far. *)
Lemma wp_foldM {A B : Type} (f : B -> A -> M B)
    (Inv : list A -> B -> LinkMonitor -> list Effect -> Prop)
    (xs : list A) (b : B) (l : LinkMonitor) :
  Inv [] b l [] ->
  (forall p x b l out, x ∈ xs -> Inv p b l out ->
     wp (f b x) l (fun b' l' out' => Inv (p ++ [x]) b' l' (out ++ out'))) ->
  wp (foldM f b xs) l (Inv xs).
Proof.
  intros Hinit Hstep.
  enough (Hgen : forall ys p b l out,
             (forall x, x ∈ ys -> x ∈ xs) -> Inv p b l out ->
             wp (foldM f b ys) l
               (fun b' l' out' => Inv (p ++ ys) b' l' (out ++ out'))).
  { apply (Hgen xs [] b l []); auto. }
  induction ys as [| y ys IH]; intros p b0 l0 out Hsub Hinv; simpl.
  - apply wp_ret. now rewrite !app_nil_r.
  - apply wp_bind. eapply wp_mono.
    + apply (Hstep p y b0 l0 out); [apply Hsub; constructor | exact Hinv].
    + intros b1 l1 out1 Hinv1. eapply wp_mono.
      * apply (IH (p ++ [y]) b1 l1 (out ++ out1)); [| exact Hinv1].
        intros x Hx. apply Hsub. now constructor.
      * intros b2 l2 out2. cbn beta.
        now rewrite <- !app_assoc.
Qed.

Lemma wp_forM_ {A : Type} (f : A -> M unit)
    (Inv : list A -> LinkMonitor -> list Effect -> Prop)
    (xs : list A) (l : LinkMonitor) :
  Inv [] l [] ->
  (forall p x l out, x ∈ xs -> Inv p l out ->
     wp (f x) l (fun _ l' out' => Inv (p ++ [x]) l' (out ++ out'))) ->
  wp (forM_ f xs) l (fun _ => Inv xs).
Proof.
  intros Hinit Hstep.
  enough (Hgen : forall ys p l out,
             (forall x, x ∈ ys -> x ∈ xs) -> Inv p l out ->
             wp (forM_ f ys) l
               (fun _ l' out' => Inv (p ++ ys) l' (out ++ out'))).
  { apply (Hgen xs [] l []); auto. }
  induction ys as [| y ys IH]; intros p l0 out Hsub Hinv; simpl.
  - apply wp_ret. now rewrite !app_nil_r.
  - apply wp_bind. eapply wp_mono.
    + apply (Hstep p y l0 out); [apply Hsub; constructor | exact Hinv].
    + intros [] l1 out1 Hinv1. eapply wp_mono.
      * apply (IH (p ++ [y]) l1 (out ++ out1)); [| exact Hinv1].
        intros x Hx. apply Hsub. now constructor.
      * intros [] l2 out2. cbn beta.
        now rewrite <- !app_assoc.
Qed.

(** What a terminating method returned. *)
Lemma wp_inv {A : Type} (c : M A) (l : LinkMonitor) Q a l' out :
  wp c l Q -> c l = Some (a, l', out) -> Q a l' out.
Proof. intros (a0 & l0 & out0 & Hc & HQ) Heq. congruence. Qed.

End MethodLogic.

(** ** Advertising adjacencies *)

Section AdvertiseProofs.
Import LinkMonitor Spec.

Local Ltac run_method :=
  unfold mbind, mret, M_bind, M_ret, get, modify, emit; cbn beta iota.

Lemma advertiseAdjacencies_area_hold (areaId : string) (l : LinkMonitor) :
  adjHoldTimer_ l = true ->
  advertiseAdjacencies_area areaId l = Some (tt, l, []).
Proof.
  intros Hhold. unfold advertiseAdjacencies_area. run_method.
  now rewrite Hhold.
Qed.

Lemma cancelThrottle_idem (l : LinkMonitor) :
  cancelThrottle (cancelThrottle l) = cancelThrottle l.
Proof.
  unfold cancelThrottle.
  destruct (advertiseAdjacenciesThrottled_ l) eqn:Hact; cbn; [reflexivity |].
  now rewrite Hact.
Qed.

Lemma cancelThrottle_hold (l : LinkMonitor) :
  adjHoldTimer_ (cancelThrottle l) = adjHoldTimer_ l.
Proof.
  unfold cancelThrottle. now destruct (advertiseAdjacenciesThrottled_ l).
Qed.

Lemma cancelThrottle_state (l : LinkMonitor) :
  state_ (cancelThrottle l) = state_ l.
Proof.
  unfold cancelThrottle. now destruct (advertiseAdjacenciesThrottled_ l).
Qed.

Lemma cancelThrottle_idle (l : LinkMonitor) :
  advertiseAdjacenciesThrottled_ (cancelThrottle l) = false.
Proof.
  unfold cancelThrottle.
  now destruct (advertiseAdjacenciesThrottled_ l) eqn:Hact.
Qed.

Lemma advertisement_cancelThrottle (l : LinkMonitor) (areaId : string) :
  advertisement (cancelThrottle l) areaId = advertisement l areaId.
Proof.
  unfold cancelThrottle. now destruct (advertiseAdjacenciesThrottled_ l).
Qed.

(** Once the hold timer is over, [advertiseAdjacencies(area)] cancels the
    throttle, writes the adjacency database of the area into the KvStore and
    hands the drain state to the config store. *)
Lemma advertiseAdjacencies_area_run (areaId : string) (l : LinkMonitor) :
  adjHoldTimer_ l = false ->
  advertiseAdjacencies_area areaId l
  = Some (tt, cancelThrottle l, advertisement l areaId).
Proof.
  intros Hhold. rewrite <- advertisement_cancelThrottle.
  unfold advertiseAdjacencies_area, cancelThrottle. run_method.
  rewrite Hhold.
  destruct (advertiseAdjacenciesThrottled_ l) eqn:Hact; reflexivity.
Qed.

Lemma advertiseAdjacencies_areas_hold (l : LinkMonitor)
    (areas : list (string * AreaConfiguration)) :
  adjHoldTimer_ l = true ->
  forM_ (fun kv => advertiseAdjacencies_area kv.1) areas l = Some (tt, l, []).
Proof.
  intros Hhold. induction areas as [| kv areas IH]; [reflexivity |].
  cbn [forM_]. unfold mbind, M_bind.
  now rewrite advertiseAdjacencies_area_hold, IH.
Qed.

Lemma advertiseAdjacencies_areas_run (l : LinkMonitor)
    (areas : list (string * AreaConfiguration)) :
  adjHoldTimer_ l = false ->
  forM_ (fun kv => advertiseAdjacencies_area kv.1) areas l
  = Some (tt, match areas with [] => l | _ => cancelThrottle l end,
          flat_map (fun kv => advertisement l kv.1) areas).
Proof.
  revert l. induction areas as [| kv areas IH]; intros l Hhold;
    [reflexivity |].
  cbn [forM_ flat_map]. unfold mbind, M_bind.
  rewrite advertiseAdjacencies_area_run by assumption.
  rewrite IH by now rewrite cancelThrottle_hold.
  do 3 f_equal.
  - destruct areas; [reflexivity | apply cancelThrottle_idem].
  - apply flat_map_ext. intros a. apply advertisement_cancelThrottle.
Qed.

Lemma advertiseAdjacencies_hold (l : LinkMonitor) :
  adjHoldTimer_ l = true -> advertiseAdjacencies l = Some (tt, l, []).
Proof.
  intros Hhold. unfold advertiseAdjacencies. run_method.
  now rewrite advertiseAdjacencies_areas_hold.
Qed.

Lemma advertiseAdjacencies_run (l : LinkMonitor) :
  adjHoldTimer_ l = false ->
  advertiseAdjacencies l
  = Some (tt,
          match map_to_list (areas_ l) with [] => l | _ => cancelThrottle l end,
          flat_map (fun kv => advertisement l kv.1) (map_to_list (areas_ l))).
Proof.
  intros Hhold. unfold advertiseAdjacencies. run_method.
  now rewrite advertiseAdjacencies_areas_run.
Qed.

Lemma advertiseRedistAddrs_hold (l : LinkMonitor) :
  adjHoldTimer_ l = true -> advertiseRedistAddrs l = Some (tt, l, []).
Proof.
  intros Hhold. unfold advertiseRedistAddrs. run_method.
  now rewrite Hhold.
Qed.

End AdvertiseProofs.

(** ** Drain commands *)

Section CommandProofs.
Import LinkMonitor Spec.

Local Ltac run_method :=
  unfold mbind, mret, M_bind, M_ret, get, modify, emit,
    advertiseAdjacenciesThrottled; cbn beta iota.

(** A throttled command either leaves the object as it is, or changes
    [state_], arms the throttle and answers; it never publishes. *)
Lemma throttled_command_outcome (c : M unit) (l : LinkMonitor) :
  ThrottledCommand c ->
  (exists out, c l = Some (tt, l, out)
     /\ Forall (fun e => e = SetValue \/ exists m, e = LogError m) out)
  \/ (exists f, c l = Some (tt, set_advertiseAdjacenciesThrottled_ true
                                (set_state_ f l), [SetValue])).
Proof.
  intros [n b | n m | n node m].
  - unfold setInterfaceOverload. run_method.
    repeat case_bool_decide; destruct b; cbn;
      try (left; eexists; split; [reflexivity |];
           repeat constructor; eauto; fail);
      right; eexists; reflexivity.
  - unfold setLinkMetric. run_method.
    destruct m as [value |];
      repeat case_bool_decide; cbn;
      try (left; eexists; split; [reflexivity |];
           repeat constructor; eauto; fail);
      right; eexists; reflexivity.
  - unfold setAdjacencyMetric. run_method.
    destruct m as [value |];
      repeat case_bool_decide; cbn;
      try (left; eexists; split; [reflexivity |];
           repeat constructor; eauto; fail);
      right; eexists; reflexivity.
Qed.

Lemma setNodeOverload_same (b : bool) (l : LinkMonitor) :
  isOverloaded (state_ l) = b ->
  setNodeOverload b l = Some (tt, l, [SetValue]).
Proof.
  intros Hb. unfold setNodeOverload. run_method.
  now rewrite bool_decide_eq_true_2.
Qed.

Lemma setNodeOverload_change (b : bool) (l : LinkMonitor) :
  isOverloaded (state_ l) <> b ->
  forall l' out,
    advertiseAdjacencies (set_state_ (set_isOverloaded b) l)
    = Some (tt, l', out) ->
    setNodeOverload b l = Some (tt, l', out ++ [SetValue]).
Proof.
  intros Hb l' out Hadv. unfold setNodeOverload. run_method.
  rewrite bool_decide_eq_false_2 by assumption. cbn.
  rewrite Hadv. reflexivity.
Qed.

(** C5, as the commands have it.  A command that names an interface that
    is not tracked, or an adjacency that is not known, logs an error and
    completes its future with a value: no error is returned.  The object is
    left as it was, so [state_] is unchanged and the throttle is not armed,
    and nothing is advertised. *)
Theorem unknown_target_is_skipped (l : LinkMonitor)
    (interfaceName adjIfName adjNodeName : string) (overloaded : bool)
    (overrideMetric : option Z) :
  interfaces_ l !! interfaceName = None ->
  adjacencies_ l !! (adjNodeName, adjIfName) = None ->
  (exists msg, setInterfaceOverload interfaceName overloaded l
               = Some (tt, l, [LogError msg; SetValue]))
  /\ (exists msg, setLinkMetric interfaceName overrideMetric l
                  = Some (tt, l, [LogError msg; SetValue]))
  /\ (exists msg, setAdjacencyMetric adjIfName adjNodeName overrideMetric l
                  = Some (tt, l, [LogError msg; SetValue])).
Proof.
  intros Hif Hadj. split; [| split]; eexists.
  - unfold setInterfaceOverload. run_method.
    rewrite bool_decide_eq_true_2 by assumption. reflexivity.
  - unfold setLinkMetric. run_method.
    rewrite (bool_decide_eq_true_2 (interfaces_ l !! interfaceName = None))
      by assumption.
    reflexivity.
  - unfold setAdjacencyMetric. run_method.
    rewrite (bool_decide_eq_true_2
               (adjacencies_ l !! (adjNodeName, adjIfName) = None))
      by assumption.
    reflexivity.
Qed.

Lemma unknown_target_is_skipped_witness :
  interfaces_ Examples.lm_new !! "eth9"%string = None
  /\ adjacencies_ Examples.lm_new !! ("node2", "eth9")%string = None
  /\ (exists msg, setLinkMetric "eth9" (Some 5) Examples.lm_new
                  = Some (tt, Examples.lm_new, [LogError msg; SetValue])).
Proof.
  split; [reflexivity |]. split; [reflexivity |].
  exact (proj1 (proj2 (unknown_target_is_skipped Examples.lm_new
                         "eth9" "eth9" "node2" true (Some 5)
                         eq_refl eq_refl))).
Defined.

(** The claim C5 as it is written fails: the future of a command on an
    unknown interface completes with a value, and no error is set. *)
Lemma unknown_interface_no_error :
  interfaces_ Examples.lm_new !! "eth9"%string = None
  /\ exists l' out,
       setLinkMetric "eth9" (Some 5) Examples.lm_new = Some (tt, l', out)
       /\ In SetValue out
       /\ ~ Exists isError out.
Proof.
  split; [reflexivity |].
  eexists _, _. split; [vm_compute; reflexivity |]. split.
  - right. now left.
  - intros Hex.
    repeat (apply Exists_cons in Hex as [[what Hw] | Hex]; [discriminate Hw |]).
    now apply Exists_nil in Hex.
Qed.

(** The throttle, when it expires, runs [advertiseAdjacencies]; once the
    hold timer is over and an area is configured, this hands the drain
    state to the config store. *)
Lemma throttle_expiry_stores (t : Z) (l : LinkMonitor) :
  advertiseAdjacenciesThrottled_ l = true ->
  adjHoldTimer_ l = false ->
  areas_ l <> ∅ ->
  exists l' out,
    step t AdvertiseAdjacenciesThrottledExpired l = Some (tt, l', out)
    /\ In (StoreThriftObj kConfigKey (state_ l)) out
    /\ state_ l' = state_ l.
Proof.
  intros Hact Hhold Hareas. unfold step. run_method. cbn. rewrite Hact. cbn.
  set (l1 := set_advertiseAdjacenciesThrottled_ false (set_now_ t l)).
  rewrite (advertiseAdjacencies_run l1) by exact Hhold.
  eexists _, _. split; [reflexivity |].
  destruct (map_to_list (areas_ l1)) as [| [areaId conf] rest] eqn:Hl.
  { apply map_to_list_empty_iff in Hl. contradiction. }
  split.
  - cbn. right. now left.
  - now rewrite cancelThrottle_state.
Qed.

(** C7, as the commands have it.  Once the hold timer is over and an area is
    configured: [setNodeOverload], when it changes the drain state, hands
    the updated state to the config store before it answers; a throttled
    command that changes the state answers first, and the updated state is
    handed to the config store when the throttle expires. *)
Theorem state_stored_on_advertisement (l : LinkMonitor) :
  adjHoldTimer_ l = false ->
  areas_ l <> ∅ ->
  (forall overloaded, isOverloaded (state_ l) <> overloaded ->
     exists l' pre,
       setNodeOverload overloaded l = Some (tt, l', pre ++ [SetValue])
       /\ state_ l' = set_isOverloaded overloaded (state_ l)
       /\ Exists (isStore (state_ l')) pre)
  /\ (forall c, ThrottledCommand c ->
        exists l' out, c l = Some (tt, l', out) /\
          (state_ l' <> state_ l ->
           out = [SetValue]
           /\ forall t, exists l'' out',
                step t AdvertiseAdjacenciesThrottledExpired l'
                = Some (tt, l'', out')
                /\ Exists (isStore (state_ l')) out')).
Proof.
  intros Hhold Hareas. split.
  - intros b Hb. set (updated := set_state_ (set_isOverloaded b) l).
    pose proof (advertiseAdjacencies_run updated Hhold) as Hrun.
    eexists _, _. split; [| split].
    + apply setNodeOverload_change; [assumption | exact Hrun].
    + destruct (map_to_list (areas_ updated)); [reflexivity |].
      now rewrite cancelThrottle_state.
    + destruct (map_to_list (areas_ updated)) as [| [areaId conf] rest] eqn:Hl.
      { apply map_to_list_empty_iff in Hl. contradiction. }
      rewrite cancelThrottle_state. cbn [flat_map advertisement app].
      apply Exists_cons_tl, Exists_cons_hd. reflexivity.
  - intros c Hc.
    destruct (throttled_command_outcome c l Hc) as [(out & -> & _) | (f & ->)].
    + exists l, out. split; [reflexivity |]. congruence.
    + eexists _, _. split; [reflexivity |]. intros _. split; [reflexivity |].
      intros t.
      destruct (throttle_expiry_stores t
                  (set_advertiseAdjacenciesThrottled_ true (set_state_ f l)))
        as (l'' & out' & Hstep & Hin & _); try assumption; [reflexivity |].
      exists l'', out'. split; [exact Hstep |].
      apply Exists_exists. eexists. split; [| reflexivity].
      apply list_elem_of_In. exact Hin.
Qed.

End CommandProofs.

(** ** Methods that leave adjacencies and the hold timer alone *)

Section SteadyProofs.
Import LinkMonitor Spec.

Lemma quiet_app (out1 out2 : list Effect) :
  quiet out1 -> quiet out2 -> quiet (out1 ++ out2).
Proof. unfold quiet. intros H1 H2. apply Forall_app. now split. Qed.

Lemma steady_refl (l : LinkMonitor) : steady l l [].
Proof. repeat split. intros _. constructor. Qed.

Lemma steady_trans (l0 l1 l2 : LinkMonitor) (out1 out2 : list Effect) :
  steady l0 l1 out1 -> steady l1 l2 out2 -> steady l0 l2 (out1 ++ out2).
Proof.
  intros (Hr1 & Hh1 & Ha1 & Hq1) (Hr2 & Hh2 & Ha2 & Hq2).
  repeat split; try congruence.
  intros Hhold. apply quiet_app; [auto |]. apply Hq2. congruence.
Qed.

Lemma Steady_ret {A : Type} (a : A) (l : LinkMonitor) : Steady (mret a) l.
Proof. apply wp_ret, steady_refl. Qed.

Lemma Steady_bind {A B : Type} (c : M A) (k : A -> M B) (l : LinkMonitor) :
  Steady c l ->
  (forall a l1 out1, c l = Some (a, l1, out1) -> Steady (k a) l1) ->
  Steady (c ≫= k) l.
Proof.
  intros (a & l1 & out1 & Hc & Hs1) Hk. apply wp_bind.
  exists a, l1, out1. split; [exact Hc |].
  eapply wp_mono; [exact (Hk a l1 out1 Hc) |].
  intros b l2 out2 Hs2. eapply steady_trans; eauto.
Qed.

Lemma Steady_get_bind {B : Type} (k : LinkMonitor -> M B) (l : LinkMonitor) :
  Steady (k l) l -> Steady (get ≫= k) l.
Proof.
  intros Hk. apply Steady_bind.
  - apply wp_get, steady_refl.
  - intros a l1 out1 [= <- <- <-]. exact Hk.
Qed.

Lemma Steady_emit (e : Effect) (l : LinkMonitor) :
  (adjHoldTimer_ l = true -> isAdvertisement e = false) ->
  Steady (emit e) l.
Proof.
  intros He. apply wp_emit. repeat split.
  intros Hhold. constructor; [auto | constructor].
Qed.

Lemma Steady_modify (f : LinkMonitor -> LinkMonitor) (l : LinkMonitor) :
  useRttMetric_ (f l) = useRttMetric_ l ->
  adjHoldTimer_ (f l) = adjHoldTimer_ l ->
  adjacencies_ (f l) = adjacencies_ l ->
  Steady (modify f) l.
Proof.
  intros Hr Hh Ha. apply wp_modify. repeat split; try assumption.
  intros _. constructor.
Qed.

Lemma Steady_forM_ {A : Type} (f : A -> M unit) (xs : list A)
    (l : LinkMonitor) :
  (forall x l1, x ∈ xs -> Steady (f x) l1) -> Steady (forM_ f xs) l.
Proof.
  revert l. induction xs as [| x xs IH]; intros l Hf; cbn [forM_].
  - apply Steady_ret.
  - apply Steady_bind; [apply Hf; constructor |].
    intros _ l1 _ _. apply IH. intros y l2 Hy. apply Hf. now constructor.
Qed.

(** Running a method from an explicit result. *)
Lemma Steady_of_eq {A : Type} (c : M A) (l : LinkMonitor) a l' out :
  c l = Some (a, l', out) -> steady l l' out -> Steady c l.
Proof. intros Hc Hs. now exists a, l', out. Qed.

Lemma advertiseAdjacencies_area_Steady (areaId : string) (l : LinkMonitor) :
  Steady (advertiseAdjacencies_area areaId) l.
Proof.
  destruct (adjHoldTimer_ l) eqn:Hhold.
  - eapply Steady_of_eq; [now apply advertiseAdjacencies_area_hold |].
    apply steady_refl.
  - eapply Steady_of_eq; [now apply advertiseAdjacencies_area_run |].
    unfold cancelThrottle.
    destruct (advertiseAdjacenciesThrottled_ l); repeat split; congruence.
Qed.

Lemma advertiseAdjacencies_Steady (l : LinkMonitor) :
  Steady advertiseAdjacencies l.
Proof.
  unfold advertiseAdjacencies. apply Steady_get_bind, Steady_forM_.
  intros kv l1 _. apply advertiseAdjacencies_area_Steady.
Qed.

Lemma advertiseRedistAddrs_Steady (l : LinkMonitor) :
  Steady advertiseRedistAddrs l.
Proof.
  unfold advertiseRedistAddrs. apply Steady_get_bind.
  destruct (adjHoldTimer_ l) eqn:Hhold; [apply Steady_ret |].
  enough (Hgen : forall (xs : list (string * AreaConfiguration)) g l1,
             adjHoldTimer_ l1 = false ->
             Steady (forM_ (fun kv => emit (g kv)) xs) l1).
  { apply (Hgen _ (fun kv => PushPrefixUpdate _)). exact Hhold. }
  induction xs as [| x xs IH]; intros g l1 Hh; cbn [forM_].
  - apply Steady_ret.
  - apply Steady_bind; [apply Steady_emit; congruence |].
    intros [] l2 o [= <- <-]. now apply IH.
Qed.

Lemma advertiseInterfaces_Steady (l : LinkMonitor) :
  Steady advertiseInterfaces l.
Proof.
  unfold advertiseInterfaces. apply Steady_get_bind, Steady_emit. reflexivity.
Qed.

Lemma advertiseIfaceAddr_Steady (l : LinkMonitor) :
  Steady advertiseIfaceAddr l.
Proof.
  unfold advertiseIfaceAddr. apply Steady_get_bind.
  apply Steady_bind; [apply advertiseInterfaces_Steady |]. intros _ l1 _ _.
  apply Steady_bind; [apply advertiseRedistAddrs_Steady |]. intros _ l2 _ _.
  apply Steady_get_bind.
  apply Steady_bind.
  { destruct (advertiseIfaceAddrThrottled_ l2);
      [now apply Steady_modify | apply Steady_ret]. }
  intros _ l3 _ _.
  destruct (negb _); [now apply Steady_modify | apply Steady_ret].
Qed.

Lemma throttled_command_Steady (c : M unit) (l : LinkMonitor) :
  ThrottledCommand c -> Steady c l.
Proof.
  intros Hc.
  destruct (throttled_command_outcome c l Hc) as [(out & Heq & Hout) | (f & Heq)].
  - eapply Steady_of_eq; [exact Heq |]. repeat split. intros _.
    eapply Forall_impl; [exact Hout |].
    intros e [-> | [m ->]]; reflexivity.
  - eapply Steady_of_eq; [exact Heq |]. repeat split. intros _.
    repeat constructor.
Qed.

Lemma setNodeOverload_Steady (b : bool) (l : LinkMonitor) :
  Steady (setNodeOverload b) l.
Proof.
  unfold setNodeOverload. apply Steady_get_bind.
  apply Steady_bind; [| intros; now apply Steady_emit].
  destruct (bool_decide _); [apply Steady_ret |].
  apply Steady_bind; [now apply Steady_modify |].
  intros _ l1 _ _. apply advertiseAdjacencies_Steady.
Qed.

End SteadyProofs.

(** ** Peer sessions never abort *)

Section KvStorePeersProofs.
Import LinkMonitor Spec.

Lemma emplace_is_Some {V : Type} (k k' : string) (v : V) (m : gmap string V) :
  is_Some (m !! k') \/ k = k' -> is_Some (emplace k v m !! k').
Proof.
  rewrite emplace_lookup. intros [Hk' | <-].
  - destruct (m !! k); [exact Hk' |]. now destruct (decide (k = k')).
  - destruct (m !! k) eqn:Hk; [eauto |]. now rewrite decide_True.
Qed.

Lemma set_peers_emplace (areaId n : string) (v : KvStorePeerValue)
    (m : gmap string KvStorePeerValue)
    (P0 : gmap string (gmap string KvStorePeerValue)) (l : LinkMonitor) :
  set_peers_
    (fun peers =>
       <[areaId := emplace n v (default ∅ (peers !! areaId))]> peers)
    (set_peers_ (fun _ => <[areaId := m]> P0) l)
  = set_peers_ (fun _ => <[areaId := emplace n v m]> P0) l.
Proof.
  unfold set_peers_; cbn.
  now rewrite lookup_insert_eq, insert_insert_eq.
Qed.

Lemma steady_set_peers (l : LinkMonitor) P (out : list Effect) :
  quiet out -> steady l (set_peers_ (fun _ => P) l) out.
Proof. intros Hq. repeat split. intros _. exact Hq. Qed.

Lemma logPeerEvent_wp (event peerName : string) (spec : PeerSpec)
    (l : LinkMonitor) :
  exists e, logPeerEvent event peerName spec l = Some (tt, l, [e])
            /\ isAdvertisement e = false.
Proof. eexists. split; reflexivity. Qed.

(** [advertiseKvStorePeers] ends normally, changes [peers_] only and
    advertises nothing, provided every node of [upPeers] has an eligible
    adjacency in the area: the [CHECK] on [upPeers] cannot fail. *)
Lemma advertiseKvStorePeers_Steady (areaId : string)
    (upPeers : gmap string PeerSpec) (l : LinkMonitor) :
  (forall name, is_Some (upPeers !! name) ->
     exists i v, adjacencies_ l !! (name, i) = Some v /\ eligible areaId v) ->
  Steady (advertiseKvStorePeers areaId upPeers) l.
Proof.
  intros Hup. unfold Steady, advertiseKvStorePeers.
  apply wp_bind, wp_get. cbn beta.
  apply wp_bind, wp_modify.
  destruct (getPeersFromAdjacencies_lookup (adjacencies_ l) areaId)
    as (newPeers & Hnp & _).
  apply wp_bind. eapply wp_orThrow; [exact Hnp |].
  set (l1 := set_peers_ <[areaId := ∅]> l).
  (* peers to delete *)
  apply wp_bind. eapply wp_mono.
  { apply wp_foldM
      with (Inv := fun _ (_ : list string) l' out => l' = l1 /\ quiet out).
    - split; [reflexivity | constructor].
    - intros p x b l' out _ [-> Hq].
      destruct (bool_decide (newPeers !! x.1 = None)).
      + destruct (logPeerEvent_wp "DEL_PEER" x.1 (tPeerSpec x.2) l1)
          as (e & He & Hadv).
        apply wp_bind. exists tt, l1, [e]. split; [exact He |].
        apply wp_ret. split; [reflexivity |].
        rewrite app_nil_r. apply quiet_app; [exact Hq |].
        constructor; [exact Hadv | constructor].
      + apply wp_ret. split; [reflexivity |]. now rewrite app_nil_r. }
  intros toDelPeers l' out1 [-> Hq1]. cbn beta.
  (* peers to add *)
  apply wp_bind. eapply wp_mono.
  { apply wp_foldM
      with (Inv := fun p (_ : gmap string PeerSpec) l' out =>
              (exists m, l' = set_peers_ (fun _ => <[areaId := m]> (peers_ l)) l
                         /\ forall kv, kv ∈ p -> is_Some (m !! kv.1))
              /\ quiet out).
    - split; [| constructor]. exists ∅. split; [reflexivity |].
      intros kv Hin. inversion Hin.
    - intros p x b l' out _ [(m & -> & Hdom) Hq].
      apply wp_bind, wp_modify. rewrite set_peers_emplace.
      match goal with
      | |- context [emplace x.1 ?v m] => set (m' := emplace x.1 v m)
      end.
      assert (Hdom' : forall kv, kv ∈ p ++ [x] -> is_Some (m' !! kv.1)).
      { intros kv [Hin | Hin]%elem_of_app; apply emplace_is_Some.
        - left. now apply Hdom.
        - right. apply list_elem_of_singleton in Hin. now subst. }
      match goal with
      | |- context [if ?c then _ else _] => destruct c
      end.
      + apply wp_ret. split; [eauto |]. now rewrite !app_nil_r.
      + match goal with
        | |- context [logPeerEvent ?ev ?n ?sp] =>
            destruct (logPeerEvent_wp ev n sp
                        (set_peers_ (fun _ => <[areaId := m']> (peers_ l)) l))
              as (e & He & Hadv)
        end.
        apply wp_bind. eexists tt, _, [e]. split; [exact He |].
        apply wp_ret. split; [eauto |].
        rewrite app_nil_r. apply quiet_app; [exact Hq |].
        constructor; [exact Hadv | constructor]. }
  intros toAddPeers l' out2 [(m & -> & Hdom) Hq2]. cbn beta.
  set (l2 := set_peers_ (fun _ => <[areaId := m]> (peers_ l)) l).
  (* peers that came up *)
  apply wp_bind. eapply wp_mono.
  { apply wp_foldM
      with (Inv := fun _ (_ : gmap string PeerSpec) l' out =>
              l' = l2 /\ quiet out).
    - split; [reflexivity | constructor].
    - intros p [name spec] b l' out Hin [-> Hq]. cbn [fst snd].
      apply wp_bind, wp_get. cbn beta.
      apply wp_bind. eapply wp_at; [apply lookup_insert_eq |].
      assert (Hm : is_Some (m !! name)).
      { apply elem_of_map_to_list in Hin.
        destruct (Hup name) as (i & v & Hv & He); [eauto |].
        assert (Hs : is_Some (newPeers !! name)).
        { eapply getPeersFromAdjacencies_dom; eauto. }
        destruct Hs as [spec' Hs].
        apply (Hdom (name, spec')). now apply elem_of_map_to_list. }
      apply wp_bind, wp_CHECK; [now apply bool_decide_eq_true_2 |].
      destruct (bool_decide (is_Some (b !! name))).
      + apply wp_ret. split; [reflexivity |]. now rewrite !app_nil_r.
      + destruct Hm as [peer Hpeer].
        apply wp_bind. eapply wp_at; [exact Hpeer |].
        destruct (bool_decide (spec ≠ tPeerSpec peer));
          apply wp_ret; (split; [reflexivity |]); now rewrite !app_nil_r. }
  intros toAddPeers' l' out3 [-> Hq3]. cbn beta.
  match goal with
  | |- context [if ?c then _ else _] => destruct c
  end.
  - apply wp_emit. apply steady_set_peers.
    repeat apply quiet_app; try assumption; try constructor; try reflexivity.
    constructor.
  - apply wp_ret. apply steady_set_peers.
    repeat apply quiet_app; try assumption; constructor.
Qed.

End KvStorePeersProofs.

(** ** Neighbor events *)

Section NeighborProofs.
Import LinkMonitor Spec.

Lemma append_nonempty (s1 s2 : string) :
  s2 <> ""%string -> String.eqb (s1 +:+ s2) "" = false.
Proof.
  intros Hs2. apply String.eqb_neq. destruct s1; [exact Hs2 | discriminate].
Qed.

Lemma steady_calm (l l' : LinkMonitor) (out : list Effect) :
  steady l l' out -> calm l l'.
Proof. intros (Hr & _ & Ha & _). now split. Qed.

Lemma neighborUpEvent_wp (event : SparkNeighborEvent) (l : LinkMonitor) :
  wp (neighborUpEvent event) l (fun _ l' out =>
    exists V,
      steady (set_adjacencies_ <[adjIdOf event := V]> l) l' out
      /\ otherNodeName (adjacency V) = nodeName (info event)
      /\ ifName (adjacency V) = localIfName (info event)
      /\ metric (adjacency V)
         = if useRttMetric_ l then getRttMetric (rttUs (info event)) else 1).
Proof.
  unfold neighborUpEvent. apply wp_bind, wp_get. cbn beta zeta.
  apply wp_bind, wp_CHECK.
  { destruct (mockMode_ l); reflexivity. }
  apply wp_bind, wp_CHECK.
  { apply negb_true_iff.
    destruct (mockMode_ l); cbn [negb]; [reflexivity |].
    apply append_nonempty. discriminate. }
  apply wp_bind, wp_modify.
  match goal with
  | |- context [set_adjacencies_ <[?k := ?V]> l] =>
      set (V0 := V); set (l1 := set_adjacencies_ <[k := V0]> l)
  end.
  apply wp_bind. eapply wp_mono.
  { apply advertiseKvStorePeers_Steady.
    intros name [spec Hname].
    apply lookup_singleton_Some in Hname as [<- _].
    exists (localIfName (info event)), V0. split.
    - unfold l1; cbn. apply lookup_insert_eq.
    - split; reflexivity. }
  intros [] l2 out2 Hs2. cbn beta.
  apply wp_modify. exists V0. split.
  - cbn [app]. eapply steady_trans; [exact Hs2 |].
    repeat split. intros _. constructor.
  - repeat split.
Qed.

Lemma neighborDownEvent_wp (event : SparkNeighborEvent) (l : LinkMonitor) :
  wp (neighborDownEvent event) l (fun _ l' out =>
    steady (set_adjacencies_ (delete (adjIdOf event)) l) l' out).
Proof.
  unfold neighborDownEvent. cbn zeta. apply wp_bind, wp_modify.
  apply wp_bind. eapply wp_mono.
  { apply advertiseKvStorePeers_Steady.
    intros name [spec Hname]. rewrite lookup_empty in Hname. discriminate. }
  intros [] l2 out2 Hs2. cbn beta.
  eapply wp_mono; [apply advertiseAdjacencies_area_Steady |].
  intros [] l3 out3 Hs3. cbn [app].
  eapply steady_trans; [exact Hs2 | exact Hs3].
Qed.

Lemma neighborRestartingEvent_wp (event : SparkNeighborEvent)
    (l : LinkMonitor) :
  wp (neighborRestartingEvent event) l (fun _ l' out =>
    steady (set_adjacencies_ (alter (set_isRestarting true) (adjIdOf event)) l)
      l' out).
Proof.
  unfold neighborRestartingEvent. cbn zeta. apply wp_bind, wp_modify.
  eapply wp_mono.
  { apply advertiseKvStorePeers_Steady.
    intros name [spec Hname]. rewrite lookup_empty in Hname. discriminate. }
  intros [] l2 out2 Hs2. cbn [app]. exact Hs2.
Qed.

Lemma neighborRttChangeEvent_wp (event : SparkNeighborEvent)
    (l : LinkMonitor) :
  wp (neighborRttChangeEvent event) l (fun _ l' out =>
    steady
      (set_adjacencies_
         (alter (set_adjacency
                   (fun adj => set_rtt (Int32.wrap (rttUs (info event)))
                                 (set_metric
                                    (getRttMetric (rttUs (info event))) adj)))
                (adjIdOf event)) l)
      l' out).
Proof.
  unfold neighborRttChangeEvent. apply wp_bind, wp_get. cbn beta zeta.
  fold (adjIdOf event).
  destruct (adjacencies_ l !! adjIdOf event) as [v |] eqn:Hv.
  - apply wp_bind, wp_modify. apply wp_modify.
    repeat split. intros _. constructor.
  - apply wp_ret. repeat split.
    + cbn. apply map_eq. intros k. rewrite lookup_alter.
      destruct (decide (adjIdOf event = k)) as [<- |]; [| reflexivity].
      now rewrite Hv.
    + intros _. constructor.
Qed.

Lemma logNeighborEvent_Steady (event : SparkNeighborEvent) (l : LinkMonitor) :
  Steady (logNeighborEvent event) l.
Proof. unfold logNeighborEvent. now apply Steady_emit. Qed.

(** One neighbor event keeps the adjacencies in step with the round-trip
    times measured, and changes neither the metric mode nor the hold
    timer. *)
Lemma processNeighborEvent_spec (event : SparkNeighborEvent) (l : LinkMonitor)
    (rtts : gmap (string * string) Z) :
  wp (processNeighborEvent event) l (fun _ l' out =>
    (adjacencies_measured l rtts ->
     adjacencies_measured l'
       (measuredRtt_step (useRttMetric_ l) rtts (NeighborEvent event)))
    /\ useRttMetric_ l' = useRttMetric_ l
    /\ adjHoldTimer_ l' = adjHoldTimer_ l
    /\ (adjHoldTimer_ l = true -> quiet out)).
Proof.
  unfold processNeighborEvent. apply wp_bind, wp_get. cbn beta.
  assert (Hup : wp (logNeighborEvent event;; neighborUpEvent event) l
            (fun _ l' out =>
               (adjacencies_measured l rtts ->
                adjacencies_measured l'
                  (<[adjIdOf event := rttUs (info event)]> rtts))
               /\ useRttMetric_ l' = useRttMetric_ l
               /\ adjHoldTimer_ l' = adjHoldTimer_ l
               /\ (adjHoldTimer_ l = true -> quiet out))).
  { apply wp_bind. unfold logNeighborEvent. apply wp_emit.
    eapply wp_mono; [apply neighborUpEvent_wp |].
    intros [] l' out (V & (Hr & Hh & Ha & Hq) & Hn & Hi & Hm).
    cbn in Hr, Hh, Ha, Hq. split; [| split; [| split]]; try assumption.
    - intros Hinv k v. rewrite Ha, Hr.
      destruct (decide (adjIdOf event = k)) as [<- | Hne].
      + rewrite lookup_insert_eq. intros [= <-].
        split; [exact Hn |]. split; [exact Hi |].
        exists (rttUs (info event)). now rewrite lookup_insert_eq.
      + rewrite lookup_insert_ne by assumption. intros Hv.
        destruct (Hinv k v Hv) as (Hn' & Hi' & r & Hr' & Hm').
        split; [exact Hn' |]. split; [exact Hi' |].
        exists r. now rewrite lookup_insert_ne.
    - intros Hhold. cbn [app]. constructor; [reflexivity | exact (Hq Hhold)]. }
  destruct (eventType event) eqn:Hty; cbn [measuredRtt_step];
    rewrite ?Hty; fold (adjIdOf event).
  - (* NEIGHBOR_UP *) exact Hup.
  - (* NEIGHBOR_DOWN *)
    apply wp_bind. unfold logNeighborEvent. apply wp_emit.
    eapply wp_mono; [apply neighborDownEvent_wp |].
    intros [] l' out (Hr & Hh & Ha & Hq).
    cbn in Hr, Hh, Ha, Hq. split; [| split; [| split]]; try assumption.
    + intros Hinv k v. rewrite Ha, Hr.
      destruct (decide (adjIdOf event = k)) as [<- | Hne].
      * rewrite lookup_delete_eq. discriminate.
      * rewrite lookup_delete_ne by assumption. intros Hv.
        destruct (Hinv k v Hv) as (Hn' & Hi' & r & Hr' & Hm').
        split; [exact Hn' |]. split; [exact Hi' |].
        exists r. now rewrite lookup_delete_ne.
    + intros Hhold. cbn [app]. constructor; [reflexivity | exact (Hq Hhold)].
  - (* NEIGHBOR_RESTARTED *) exact Hup.
  - (* NEIGHBOR_RTT_CHANGE *)
    destruct (useRttMetric_ l) eqn:Hrtt; cbn [negb].
    + apply wp_bind. unfold logNeighborEvent. apply wp_emit.
      eapply wp_mono; [apply neighborRttChangeEvent_wp |].
      intros [] l' out (Hr & Hh & Ha & Hq).
      cbn in Hr, Hh, Ha, Hq. split; [| split; [| split]]; try congruence.
      * intros Hinv k v. rewrite Ha, Hr, Hrtt. rewrite lookup_alter.
        destruct (decide (adjIdOf event = k)) as [<- | Hne].
        -- destruct (adjacencies_ l !! adjIdOf event) as [v0 |] eqn:Hv0;
             [| discriminate].
           intros [= <-]. destruct (Hinv _ _ Hv0) as (Hn' & Hi' & r & Hr' & _).
           split; [exact Hn' |]. split; [exact Hi' |].
           exists (rttUs (info event)). rewrite lookup_alter.
           rewrite decide_True by reflexivity. rewrite Hr'. split; reflexivity.
        -- intros Hv. destruct (Hinv k v Hv) as (Hn' & Hi' & r & Hr' & Hm').
           split; [exact Hn' |]. split; [exact Hi' |].
           exists r. rewrite lookup_alter, decide_False by assumption.
           rewrite Hrtt in Hm'. now split.
      * intros Hhold. cbn [app]. constructor; [reflexivity | exact (Hq Hhold)].
    + apply wp_ret. split; [intros Hinv; exact Hinv |]. split; [exact Hrtt |].
      split; [reflexivity |]. intros _. constructor.
  - (* NEIGHBOR_RESTARTING *)
    apply wp_bind. unfold logNeighborEvent. apply wp_emit.
    eapply wp_mono; [apply neighborRestartingEvent_wp |].
    intros [] l' out (Hr & Hh & Ha & Hq).
    cbn in Hr, Hh, Ha, Hq. split; [| split; [| split]]; try assumption.
    + intros Hinv k v. rewrite Ha, Hr. rewrite lookup_alter.
      destruct (decide (adjIdOf event = k)) as [<- | Hne].
      * destruct (adjacencies_ l !! adjIdOf event) as [v0 |] eqn:Hv0;
          [| discriminate].
        intros [= <-]. exact (Hinv _ _ Hv0).
      * intros Hv. exact (Hinv k v Hv).
    + intros Hhold. cbn [app]. constructor; [reflexivity | exact (Hq Hhold)].
  - (* unknown event type *)
    apply wp_emit. split; [intros Hinv; exact Hinv |]. split; [reflexivity |].
    split; [reflexivity |]. intros _. repeat constructor.
Qed.

End NeighborProofs.

(** ** The event loop *)

Section EventLoopProofs.
Import LinkMonitor Spec.

Lemma adjacencies_measured_calm (l l' : LinkMonitor)
    (rtts : gmap (string * string) Z) :
  useRttMetric_ l' = useRttMetric_ l ->
  adjacencies_ l' = adjacencies_ l ->
  adjacencies_measured l rtts -> adjacencies_measured l' rtts.
Proof.
  intros Hr Ha Hinv k v. rewrite Ha, Hr. apply Hinv.
Qed.

(** A turn that runs a steady method. *)
Lemma steady_turn (c : M unit) (l l0 : LinkMonitor)
    (rtts : gmap (string * string) Z) (expiry : Prop) :
  useRttMetric_ l0 = useRttMetric_ l ->
  adjacencies_ l0 = adjacencies_ l ->
  adjHoldTimer_ l0 = adjHoldTimer_ l ->
  Steady c l0 ->
  wp c l0 (fun _ l' out => turn_post l rtts rtts expiry l' out).
Proof.
  intros Hr Ha Hh Hc. eapply wp_mono; [exact Hc |].
  intros [] l' out (Hr' & Hh' & Ha' & Hq'). split; [| split].
  - apply adjacencies_measured_calm; congruence.
  - congruence.
  - intros Hhold _. split; [congruence |]. apply Hq'. congruence.
Qed.

Lemma step_spec (t : Z) (i : Input) (l : LinkMonitor)
    (rtts : gmap (string * string) Z) :
  wp (step t i) l (fun _ l' out =>
    turn_post l rtts (measuredRtt_step (useRttMetric_ l) rtts i)
      (i = AdjHoldTimerExpired) l' out).
Proof.
  unfold step. apply wp_bind, wp_modify. apply wp_bind, wp_get. cbn beta.
  set (l0 := set_now_ t l).
  assert (Hst : forall c : M unit,
            measuredRtt_step (useRttMetric_ l) rtts i = rtts ->
            Steady c l0 ->
            wp c l0 (fun _ l' out =>
              turn_post l rtts (measuredRtt_step (useRttMetric_ l) rtts i)
                (i = AdjHoldTimerExpired) l' ([] ++ [] ++ out))).
  { intros c -> Hc. now apply steady_turn. }
  destruct i; cbn [app].
  - (* a neighbor event *)
    eapply wp_mono; [apply (processNeighborEvent_spec event l0 rtts) |].
    intros [] l' out (Hinv & Hr & Hh & Hq). split; [| split].
    + exact Hinv.
    + exact Hr.
    + intros Hhold _. split; [now rewrite Hh | now apply Hq].
  - apply Hst; [reflexivity |].
    apply Steady_bind; [now apply Steady_modify |]. intros _ l1 _ _.
    apply Steady_bind.
    { destruct throttle; [now apply Steady_modify | apply Steady_ret]. }
    intros _ l2 _ _.
    destruct timer; [now apply Steady_modify | apply Steady_ret].
  - apply Hst; [reflexivity | apply setNodeOverload_Steady].
  - apply Hst; [reflexivity | apply throttled_command_Steady; constructor].
  - apply Hst; [reflexivity | apply throttled_command_Steady; constructor].
  - apply Hst; [reflexivity | apply throttled_command_Steady; constructor].
  - (* the hold timer expires *)
    destruct (adjHoldTimer_ l0) eqn:Hhold0.
    + apply wp_bind, wp_modify.
      set (l1 := set_adjHoldTimer_ false l0).
      apply wp_bind. eapply wp_mono; [apply (advertiseAdjacencies_Steady l1) |].
      intros [] l2 out2 (Hr2 & _ & Ha2 & _). cbn beta.
      eapply wp_mono; [apply (advertiseRedistAddrs_Steady l2) |].
      intros [] l3 out3 (Hr3 & _ & Ha3 & _). split; [| split].
      * apply adjacencies_measured_calm; [now rewrite Hr3, Hr2 |].
        now rewrite Ha3, Ha2.
      * now rewrite Hr3, Hr2.
      * intros _ Hno. now contradiction Hno.
    + apply wp_ret. split; [| split]; try (intros Hinv; exact Hinv);
        try reflexivity.
      intros _ Hno. now contradiction Hno.
  - apply Hst; [reflexivity |].
    destruct (advertiseAdjacenciesThrottled_ l0); [| apply Steady_ret].
    apply Steady_bind; [now apply Steady_modify |]. intros _ l1 _ _.
    apply advertiseAdjacencies_Steady.
  - apply Hst; [reflexivity |].
    destruct (advertiseIfaceAddrThrottled_ l0); [| apply Steady_ret].
    apply Steady_bind; [now apply Steady_modify |]. intros _ l1 _ _.
    apply advertiseIfaceAddr_Steady.
  - apply Hst; [reflexivity |].
    destruct (advertiseIfaceAddrTimer_ l0); [| apply Steady_ret].
    apply Steady_bind; [now apply Steady_modify |]. intros _ l1 _ _.
    apply advertiseIfaceAddr_Steady.
  - apply Hst; [reflexivity |].
    apply Steady_bind; [now apply Steady_modify |]. intros _ l1 _ _.
    apply advertiseAdjacencies_Steady.
Qed.

(** Any sequence of turns ends normally: no [CHECK] of the module fails and
    no [at] throws. *)
Lemma run_spec (inputs : list (Z * Input)) (l : LinkMonitor)
    (rtts : gmap (string * string) Z) :
  wp (run inputs) l (fun _ l' out =>
    turn_post l rtts
      (foldl (fun r ti => measuredRtt_step (useRttMetric_ l) r ti.2)
         rtts inputs)
      (Exists (fun ti => ti.2 = AdjHoldTimerExpired) inputs) l' out).
Proof.
  unfold run. revert l rtts.
  induction inputs as [| [t i] inputs IH]; intros l rtts; cbn [forM_ foldl].
  - apply wp_ret. split; [auto |]. split; [reflexivity |].
    intros Hhold _. split; [exact Hhold | constructor].
  - apply wp_bind. eapply wp_mono; [apply (step_spec t i l rtts) |].
    intros [] l1 out1 (Hinv1 & Hr1 & Hq1). cbn [fst snd] in *.
    eapply wp_mono;
      [apply (IH l1 (measuredRtt_step (useRttMetric_ l) rtts i)) |].
    intros [] l2 out2 (Hinv2 & Hr2 & Hq2). rewrite Hr1 in Hinv2.
    split; [| split].
    + auto.
    + congruence.
    + intros Hhold Hno.
      destruct Hq1 as [Hh1 Hquiet1]; [exact Hhold | |].
      { intros ->. apply Hno. now left. }
      destruct Hq2 as [Hh2 Hquiet2]; [exact Hh1 | |].
      { intros Hex. apply Hno. now right. }
      split; [exact Hh2 | now apply quiet_app].
Qed.

(** C8. While the hold timer is scheduled, [advertiseAdjacencies] and
    [advertiseRedistAddrs] return at once: they write no key into the
    KvStore and push no prefix update.  Whatever the event loop runs before
    the timer expires (neighbor and interface events, drain commands,
    throttles), it ends normally with the timer still scheduled and nothing
    advertised, so that the first advertisement follows the expiry. *)
Theorem hold_timer_defers_advertisement (l : LinkMonitor)
    (inputs : list (Z * Input)) :
  adjHoldTimer_ l = true ->
  Forall (fun ti => ti.2 <> AdjHoldTimerExpired) inputs ->
  (forall areaId, advertiseAdjacencies_area areaId l = Some (tt, l, []))
  /\ advertiseAdjacencies l = Some (tt, l, [])
  /\ advertiseRedistAddrs l = Some (tt, l, [])
  /\ exists l' out,
       run inputs l = Some (tt, l', out)
       /\ adjHoldTimer_ l' = true
       /\ Forall (fun e => isAdvertisement e = false) out.
Proof.
  intros Hhold Hno. split; [| split; [| split]].
  - intros areaId. now apply advertiseAdjacencies_area_hold.
  - now apply advertiseAdjacencies_hold.
  - now apply advertiseRedistAddrs_hold.
  - destruct (run_spec inputs l ∅) as ([] & l' & out & Hrun & _ & _ & Hq).
    exists l', out. split; [exact Hrun |]. apply Hq; [exact Hhold |].
    intros Hex. apply Exists_exists in Hex as (ti & Hin & Hti).
    rewrite Forall_forall in Hno. exact (Hno ti Hin Hti).
Qed.

End EventLoopProofs.

(** ** The metric pipeline *)

Section MetricProofs.
Import LinkMonitor Spec.

Lemma wrap_small (z : Z) :
  Int32.min_signed <= z <= Int32.max_signed -> Int32.wrap z = z.
Proof.
  unfold Int32.wrap, Int32.min_signed, Int32.max_signed, Int32.modulus.
  intros Hz. rewrite Z.mod_small; lia.
Qed.

(** The metric of a round-trip time is never zero, nor negative. *)
Lemma getRttMetric_pos (rttUs : Z) : 1 <= getRttMetric rttUs.
Proof. unfold getRttMetric. lia. Qed.

Lemma getRttMetric_small (rttUs : Z) :
  Int32.min_signed <= rttUs ÷ 100 <= Int32.max_signed ->
  getRttMetric rttUs = Z.max 1 (rttUs ÷ 100).
Proof. intros Hr. unfold getRttMetric. rewrite wrap_small by exact Hr. lia. Qed.

(** An adjacency of the built database is an adjacency held for the area,
    with its names, and with the overrides applied to its stored metric. *)
Lemma buildAdjacencyDatabase_adjacency (areaId : string) (l : LinkMonitor)
    (adj : Adjacency) :
  In adj (adjacencies (buildAdjacencyDatabase areaId l)) ->
  exists k v,
    adjacencies_ l !! k = Some v
    /\ area v = areaId
    /\ otherNodeName adj = otherNodeName (adjacency v)
    /\ ifName adj = ifName (adjacency v)
    /\ metric adj
       = overriddenMetric (state_ l) (otherNodeName (adjacency v))
           (ifName (adjacency v)) (metric (adjacency v))
    /\ adj_isOverloaded adj
       = bool_decide (ifName (adjacency v) ∈ overloadedLinks (state_ l)).
Proof.
  unfold buildAdjacencyDatabase; cbn [adjacencies].
  intros Hin%list_elem_of_In%list_elem_of_omap.
  destruct Hin as ([k v] & Hkv%elem_of_map_to_list & Hb).
  exists k, v. split; [exact Hkv |].
  unfold buildAdjacency in Hb; cbn [snd] in Hb.
  destruct (bool_decide (area v = areaId)) eqn:Harea; [| discriminate].
  apply bool_decide_eq_true in Harea. cbn [negb] in Hb.
  injection Hb as <-. split; [exact Harea |].
  cbn. unfold overriddenMetric.
  repeat split.
Qed.

(** C2, as the module has it.  From construction on, whatever the event
    loop has run, every adjacency of a built database advertises the
    adjacency-metric override of (remote node, local interface) when there
    is one, else the link-metric override of the interface when there is
    one, else the base metric.  With [use-rtt-metric] the base metric is
    [max(1, (int)(rttUs / 100))] for the round-trip time last measured on
    the adjacency, the quotient being narrowed to 32 bits; it is
    [max(1, rttUs / 100)] when the quotient fits.  Without, it is 1.  The
    base metric is at least 1. *)
Theorem advertised_metric (c : Constants) (config : Config) (perf : bool)
    (loaded : option LinkMonitorState) (assumeDrained overrideDrainState : bool)
    (now : Z) (inputs : list (Z * Input)) :
  exists l out,
    run inputs (LinkMonitor_new c config perf loaded assumeDrained
                  overrideDrainState now) = Some (tt, l, out)
    /\ forall areaId adj,
         In adj (adjacencies (buildAdjacencyDatabase areaId l)) ->
         exists r,
           measuredRtt (use_rtt_metric config) inputs
             !! (otherNodeName adj, ifName adj) = Some r
           /\ let base :=
                if use_rtt_metric config
                then Z.max 1 (Int32.wrap (r ÷ 100)) else 1 in
              metric adj
              = overriddenMetric (state_ l) (otherNodeName adj) (ifName adj)
                  base
              /\ 1 <= base
              /\ (Int32.min_signed <= r ÷ 100 <= Int32.max_signed ->
                  base = if use_rtt_metric config
                         then Z.max 1 (r ÷ 100) else 1).
Proof.
  set (l0 := LinkMonitor_new c config perf loaded assumeDrained
               overrideDrainState now).
  destruct (run_spec inputs l0 ∅) as ([] & l & out & Hrun & Hinv & Hr & _).
  exists l, out. split; [exact Hrun |].
  assert (Hm : adjacencies_measured l
                 (measuredRtt (use_rtt_metric config) inputs)).
  { apply Hinv. intros k v Hk. cbn in Hk. rewrite lookup_empty in Hk.
    discriminate. }
  intros areaId adj Hin.
  destruct (buildAdjacencyDatabase_adjacency areaId l adj Hin)
    as ([n i] & v & Hv & _ & Hn & Hi & Hmetric & _).
  destruct (Hm _ _ Hv) as (Hn' & Hi' & r & Hrtt & Hbase).
  cbn [fst snd] in Hn', Hi'. exists r. rewrite Hn, Hi, Hn', Hi'.
  split; [exact Hrtt |]. cbv zeta.
  rewrite Hr in Hbase. change (useRttMetric_ l0) with (use_rtt_metric config)
    in Hbase.
  rewrite Hmetric, Hn', Hi', Hbase. unfold getRttMetric.
  rewrite (Z.max_comm (Int32.wrap (r ÷ 100)) 1).
  split; [reflexivity |]. split.
  - destruct (use_rtt_metric config); lia.
  - intros Hfit. now rewrite wrap_small.
Qed.

(** The claim C2 as it is written fails where [rttUs / 100] does not fit in
    32 bits: the base metric is not [max(1, rttUs / 100)]. *)
Lemma rtt_metric_narrowed :
  exists l out,
    run [(1, NeighborEvent Examples.upSlow)] Examples.lm_new
    = Some (tt, l, out)
    /\ useRttMetric_ l = true
    /\ adjMetricOverrides (state_ l) = ∅
    /\ linkMetricOverrides (state_ l) = ∅
    /\ map metric (adjacencies (buildAdjacencyDatabase "0" l)) = [1]
    /\ Z.max 1 (rttUs (info Examples.upSlow) ÷ 100) = 2147483648.
Proof.
  eexists _, _. split; [vm_compute; reflexivity |].
  repeat split; vm_compute; reflexivity.
Qed.

Example rtt_metric_fast :
  exists l out,
    run [(1, NeighborEvent Examples.upFast)] Examples.lm_new
    = Some (tt, l, out)
    /\ map metric (adjacencies (buildAdjacencyDatabase "0" l)) = [15].
Proof. eexists _, _. split; vm_compute; reflexivity. Qed.

End MetricProofs.

(** ** The claims on concrete runs *)

Section Runs.
Import LinkMonitor Spec.

Lemma hold_timer_defers_advertisement_witness :
  adjHoldTimer_ Examples.lm_new = true
  /\ Forall (fun ti => ti.2 <> AdjHoldTimerExpired) Examples.turns_in_hold
  /\ exists l' out,
       run Examples.turns_in_hold Examples.lm_new = Some (tt, l', out)
       /\ adjHoldTimer_ l' = true
       /\ Forall (fun e => isAdvertisement e = false) out.
Proof.
  assert (Hno : Forall (fun ti => ti.2 <> AdjHoldTimerExpired)
                  Examples.turns_in_hold).
  { repeat constructor; discriminate. }
  split; [reflexivity |]. split; [exact Hno |].
  exact (proj2 (proj2 (proj2
    (hold_timer_defers_advertisement Examples.lm_new Examples.turns_in_hold
       eq_refl Hno)))).
Defined.

Lemma lm_started_areas : areas_ Examples.lm_started <> ∅.
Proof.
  intros Heq. apply (f_equal (fun m => bool_decide (is_Some (m !! "0"%string))))
    in Heq.
  vm_compute in Heq. discriminate.
Qed.

Lemma state_stored_on_advertisement_witness :
  adjHoldTimer_ Examples.lm_started = false
  /\ areas_ Examples.lm_started <> ∅
  /\ exists l' pre,
       setNodeOverload true Examples.lm_started
       = Some (tt, l', pre ++ [SetValue])
       /\ state_ l' = set_isOverloaded true (state_ Examples.lm_started)
       /\ Exists (isStore (state_ l')) pre.
Proof.
  assert (Hhold : adjHoldTimer_ Examples.lm_started = false)
    by (vm_compute; reflexivity).
  split; [exact Hhold |]. split; [exact lm_started_areas |].
  apply (proj1 (state_stored_on_advertisement Examples.lm_started
                  Hhold lm_started_areas)).
  vm_compute. discriminate.
Defined.

(** The claim C7 as it is written fails: [setLinkMetric] changes the drain
    state and answers, and nothing was handed to the config store. *)
Lemma throttled_command_answers_first :
  adjHoldTimer_ Examples.lm_started = false
  /\ exists l' out,
       setLinkMetric "eth0" (Some 5) Examples.lm_started = Some (tt, l', out)
       /\ linkMetricOverrides (state_ Examples.lm_started) !! "eth0"%string
          = None
       /\ linkMetricOverrides (state_ l') !! "eth0"%string = Some 5
       /\ out = [SetValue]
       /\ ~ Exists (isStore (state_ l')) out.
Proof.
  split; [vm_compute; reflexivity |].
  eexists _, _. split; [vm_compute; reflexivity |].
  split; [vm_compute; reflexivity |]. split; [vm_compute; reflexivity |].
  split; [reflexivity |].
  intros Hex. apply Exists_cons in Hex as [Hst | Hex];
    [discriminate Hst | now apply Exists_nil in Hex].
Qed.

(** The claim C9 as it is written fails: a persisted state that is loaded
    does not become the initial state when [overrideDrainState] is set. *)
Lemma loaded_state_overridden :
  isOverloaded Examples.persisted = false
  /\ isOverloaded
       (state_ (LinkMonitor_new Examples.constants0 Examples.config0 false
                  (Some Examples.persisted) true true 0)) = true
  /\ state_ (LinkMonitor_new Examples.constants0 Examples.config0 false
               (Some Examples.persisted) true true 0)
     <> Examples.persisted.
Proof.
  split; [reflexivity |]. split; [reflexivity |].
  intros Heq. apply (f_equal isOverloaded) in Heq. discriminate Heq.
Qed.

End Runs.

(** * Further properties of the code *)

(** ** MPLS labels *)

Section LabelProofs.
Import Util.

Lemma land_label_mask (u : Z) :
  0 <= u < 2 ^ 32 -> Z.land u 0xfff00000 = (u / 2 ^ 20) * 2 ^ 20.
Proof.
  intros Hu.
  change 0xfff00000 with (Z.ldiff (Z.ones 32) (Z.ones 20)).
  rewrite Z.ldiff_land, Z.land_assoc, <- Z.ldiff_land.
  rewrite Z.land_ones by lia. rewrite Z.mod_small by exact Hu.
  rewrite Z.ldiff_ones_r by lia.
  rewrite Z.shiftl_mul_pow2, Z.shiftr_div_pow2 by lia. reflexivity.
Qed.

(** X1. A label is valid exactly when it is a 20-bit natural number: a negative
    [int32_t] label is refused, its sign bit being under the mask. *)
Theorem isMplsLabelValid_spec (mplsLabel : Z) :
  Int32.in_range mplsLabel ->
  isMplsLabelValid mplsLabel = true <-> 0 <= mplsLabel < 2 ^ 20.
Proof.
  unfold Int32.in_range, Int32.min_signed, Int32.max_signed, isMplsLabelValid,
    Int32.modulus.
  intros Hr. rewrite Z.eqb_eq.
  pose proof (Z.mod_pos_bound mplsLabel (2 ^ 32) ltac:(lia)) as Hu.
  rewrite land_label_mask by exact Hu.
  destruct (Z_lt_le_dec mplsLabel 0) as [Hneg | Hpos].
  - assert (Hm : mplsLabel mod 2 ^ 32 = mplsLabel + 2 ^ 32).
    { symmetry. apply (Z.mod_unique _ _ (-1)); lia. }
    rewrite Hm. split; [| lia]. intros H0.
    assert (2 ^ 11 <= (mplsLabel + 2 ^ 32) / 2 ^ 20).
    { apply Z.div_le_lower_bound; lia. }
    lia.
  - rewrite Z.mod_small by lia. split.
    + intros H0. split; [exact Hpos |].
      assert (mplsLabel / 2 ^ 20 = 0) as Hq by lia.
      apply Z.div_small_iff in Hq; lia.
    + intros Hl. rewrite Z.div_small by lia. reflexivity.
Qed.

Lemma isMplsLabelValid_spec_witness :
  Int32.in_range 1048575
  /\ (isMplsLabelValid 1048575 = true <-> 0 <= 1048575 < 2 ^ 20).
Proof.
  assert (Hr : Int32.in_range 1048575)
    by (unfold Int32.in_range, Int32.min_signed, Int32.max_signed; lia).
  split; [exact Hr |]. exact (isMplsLabelValid_spec 1048575 Hr).
Defined.

End LabelProofs.

(** ** Best-route selection does not depend on the hash map *)

Section SelectBestOrder.
Import Util.
Context {Key : Type} `{Countable Key}.
Context {W : Type} `{MetricsWrapper W}.

(** X2. Two traversals of the same entries select the same keys. *)
Theorem selectBest_loop_order (l1 l2 : list (Key * W)) :
  Forall (fun kv => int32_metrics (metrics_ref kv.2) = true) l1 ->
  l1 ≡ₚ l2 ->
  (selectBest_loop l1).2 = (selectBest_loop l2).2.
Proof.
  intros Hr1 Hperm.
  assert (Hr2 : Forall (fun kv => int32_metrics (metrics_ref kv.2) = true) l2).
  { now rewrite <- Hperm. }
  apply set_eq. intros k.
  rewrite (selectBest_loop_spec l1 k Hr1), (selectBest_loop_spec l2 k Hr2).
  split; intros (w & Hin & Hmax); exists w.
  - split; [now rewrite <- Hperm |].
    intros k' w' Hin'. apply (Hmax k'). now rewrite Hperm.
  - split; [now rewrite Hperm |].
    intros k' w' Hin'. apply (Hmax k'). now rewrite <- Hperm.
Qed.

(** X3. Nothing is selected exactly when there is nothing to select from. *)
Theorem selectBestPrefixMetrics_empty (prefixes : gmap Key W) :
  map_Forall (fun _ w => int32_metrics (metrics_ref w) = true) prefixes ->
  selectBestPrefixMetrics prefixes = ∅ <-> prefixes = ∅.
Proof.
  intros Hr. split.
  - intros Hsel.
    destruct (decide (prefixes = ∅)) as [Hempty | Hne]; [exact Hempty |].
    exfalso.
    assert (Hr' : Forall (fun kv => int32_metrics (metrics_ref kv.2) = true)
                    (map_to_list prefixes)).
    { apply Forall_forall. intros [k w] Hin%elem_of_map_to_list.
      exact (Hr k w Hin). }
    destruct (selectBest_loop_inv _ Hr') as (_ & _ & Hatt).
    destruct Hatt as [k Hk].
    { intros Hnil. now apply map_to_list_empty_iff in Hnil. }
    unfold selectBestPrefixMetrics in Hsel. rewrite Hsel in Hk.
    now apply elem_of_empty in Hk.
  - intros ->. unfold selectBestPrefixMetrics.
    now rewrite map_to_list_empty.
Qed.

End SelectBestOrder.

Lemma selectBest_loop_order_witness :
  Forall (fun kv => Util.int32_metrics (Util.metrics_ref kv.2) = true)
    [("a"%string, Util.mkPrefixMetrics 1000 200 10);
     ("b"%string, Util.mkPrefixMetrics 1000 200 5)]
  /\ (Util.selectBest_loop
        [("a"%string, Util.mkPrefixMetrics 1000 200 10);
         ("b"%string, Util.mkPrefixMetrics 1000 200 5)]).2
     = (Util.selectBest_loop
          [("b"%string, Util.mkPrefixMetrics 1000 200 5);
           ("a"%string, Util.mkPrefixMetrics 1000 200 10)]).2.
Proof.
  assert (Hr : Forall
            (fun kv => Util.int32_metrics (Util.metrics_ref kv.2) = true)
            [("a"%string, Util.mkPrefixMetrics 1000 200 10);
             ("b"%string, Util.mkPrefixMetrics 1000 200 5)])
    by (repeat constructor).
  split; [exact Hr |].
  apply (selectBest_loop_order _ _ Hr). apply Permutation_swap.
Defined.

Lemma selectBestPrefixMetrics_empty_witness :
  map_Forall (fun _ w => Util.int32_metrics (Util.metrics_ref w) = true)
    Examples.prefixes3
  /\ (Util.selectBestPrefixMetrics Examples.prefixes3 = ∅
      <-> Examples.prefixes3 = ∅).
Proof.
  assert (Hr : map_Forall
            (fun _ w => Util.int32_metrics (Util.metrics_ref w) = true)
            Examples.prefixes3).
  { apply (bool_decide_unpack _). vm_compute. reflexivity. }
  split; [exact Hr |]. exact (selectBestPrefixMetrics_empty _ Hr).
Defined.

(** ** The metric of a round-trip time *)

Section RttProofs.
Import LinkMonitor.

(** X4. Whatever the [int64_t] measured, the metric is a positive [int32_t];
    it grows with the round-trip time as long as the hundredth of it fits in
    32 bits. *)
Theorem getRttMetric_range (rttUs rttUs' : Z) :
  1 <= getRttMetric rttUs <= Int32.max_signed
  /\ (0 <= rttUs <= rttUs' -> rttUs' ÷ 100 <= Int32.max_signed ->
      getRttMetric rttUs <= getRttMetric rttUs').
Proof.
  split.
  - unfold getRttMetric. pose proof (wrap_in_range (rttUs ÷ 100)) as Hw.
    unfold Int32.in_range, Int32.max_signed, Int32.min_signed in *. lia.
  - intros Hle Hfit.
    assert (Hq : 0 <= rttUs ÷ 100 <= rttUs' ÷ 100).
    { split; [apply Z.quot_pos; lia | apply Z.quot_le_mono; lia]. }
    rewrite !getRttMetric_small;
      unfold Int32.min_signed, Int32.max_signed in *; lia.
Qed.

End RttProofs.

(** ** Peer derivation does not depend on the hash maps *)

Section PeersOrder.
Import LinkMonitor Spec.

(** X5. Whatever the order in which the two hash maps are traversed, the two
    loops of [getPeersFromAdjacencies] give the same peers. *)
Theorem getPeersFromAdjacencies_order
    (adjs : gmap (string * string) AdjacencyValue) (areaId : string)
    (order1 : list ((string * string) * AdjacencyValue))
    (order2 : list (string * string)) :
  order1 ≡ₚ map_to_list adjs ->
  order2 ≡ₚ map_to_list (neighborToIface_loop areaId order1) ->
  peers_loop adjs order2 = getPeersFromAdjacencies adjs areaId.
Proof.
  intros Hp1 Hp2.
  destruct (neighborToIface_loop_inv areaId order1) as [I1 I2].
  destruct (neighborToIface_spec adjs areaId) as [J1 J2].
  cbv zeta in *.
  set (m1 := neighborToIface_loop areaId order1) in *.
  set (m := neighborToIface_loop areaId (map_to_list adjs)) in *.
  assert (Hin : forall k v, (k, v) ∈ order1 <-> adjs !! k = Some v).
  { intros k v. rewrite Hp1. apply elem_of_map_to_list. }
  assert (Hm : m1 = m).
  { apply map_eq. intros n.
    destruct (m1 !! n) as [i1 |] eqn:H1, (m !! n) as [i2 |] eqn:H2;
      [| | | reflexivity].
    - destruct (I1 n i1 H1) as (v1 & Hv1 & He1 & Hmin1).
      destruct (J1 n i2 H2) as (v2 & Hv2 & He2 & Hmin2).
      f_equal. apply String.leb_antisym.
      + apply (Hmin1 i2 v2); [now apply Hin | exact He2].
      + apply (Hmin2 i1 v1); [now apply Hin | exact He1].
    - destruct (I1 n i1 H1) as (v1 & Hv1 & He1 & _).
      destruct (J2 n i1 v1) as [x Hx]; [now apply Hin | exact He1 |].
      congruence.
    - destruct (J1 n i2 H2) as (v2 & Hv2 & He2 & _).
      destruct (I2 n i2 v2) as [x Hx]; [now apply Hin | exact He2 |].
      congruence. }
  rewrite Hm in Hp2.
  destruct (getPeersFromAdjacencies_lookup adjs areaId) as (peers & Hp & Hspec).
  rewrite Hp.
  destruct (peers_loop_spec adjs order2) as (peers2 & Hpeers2 & Hspec2).
  - rewrite Hp2. apply NoDup_fst_map_to_list.
  - intros [n i]. rewrite Hp2. intros Hn%elem_of_map_to_list.
    destruct (J1 n i Hn) as (v & Hv & _). eauto.
  - rewrite Hpeers2. f_equal. apply map_eq. intros n.
    apply option_eq. intros spec. rewrite Hspec2, Hspec. split.
    + intros (i & v & Hi & Hv & Hs).
      rewrite Hp2 in Hi. apply elem_of_map_to_list in Hi.
      destruct (J1 n i Hi) as (v' & Hv' & He & Hmin).
      assert (v' = v) as -> by congruence. exists i, v. done.
    + intros (i & v & Hv & He & Hs & Hmin).
      destruct (J2 n i v Hv He) as [i0 Hi0].
      destruct (J1 n i0 Hi0) as (v0 & Hv0 & He0 & Hmin0).
      assert (i0 = i) as ->.
      { apply String.leb_antisym; eauto. }
      exists i, v. split; [| done].
      rewrite Hp2. now apply elem_of_map_to_list.
Qed.

Lemma getPeersFromAdjacencies_order_witness :
  rev (map_to_list Examples.adjacencies4) ≡ₚ map_to_list Examples.adjacencies4
  /\ peers_loop Examples.adjacencies4
       (map_to_list
          (neighborToIface_loop "0"
             (rev (map_to_list Examples.adjacencies4))))
     = getPeersFromAdjacencies Examples.adjacencies4 "0".
Proof.
  pose proof (Permutation_sym
                (Permutation_rev (map_to_list Examples.adjacencies4))) as Hp.
  split; [exact Hp |].
  exact (getPeersFromAdjacencies_order Examples.adjacencies4 "0"
           (rev (map_to_list Examples.adjacencies4))
           (map_to_list
              (neighborToIface_loop "0"
                 (rev (map_to_list Examples.adjacencies4))))
           Hp (Permutation_refl _)).
Defined.

End PeersOrder.

(** ** The adjacency database *)

Section DatabaseProofs.
Import LinkMonitor Spec.

(** X6. Every adjacency held for the area is advertised, restarting or not, with
    the names, labels and round-trip time it is stored with, the overrides
    applied to its metric and the drain bit of its interface. *)
Theorem buildAdjacencyDatabase_complete (areaId : string) (l : LinkMonitor)
    (k : string * string) (v : AdjacencyValue) :
  adjacencies_ l !! k = Some v ->
  area v = areaId ->
  exists adj,
    In adj (adjacencies (buildAdjacencyDatabase areaId l))
    /\ otherNodeName adj = otherNodeName (adjacency v)
    /\ ifName adj = ifName (adjacency v)
    /\ otherIfName adj = otherIfName (adjacency v)
    /\ adjLabel adj = adjLabel (adjacency v)
    /\ rtt adj = rtt (adjacency v)
    /\ metric adj
       = overriddenMetric (state_ l) (otherNodeName (adjacency v))
           (ifName (adjacency v)) (metric (adjacency v))
    /\ adj_isOverloaded adj
       = bool_decide (ifName (adjacency v) ∈ overloadedLinks (state_ l)).
Proof.
  intros Hk Harea.
  destruct (buildAdjacency (state_ l) areaId v) as [adj |] eqn:Hb.
  - exists adj. split.
    + unfold buildAdjacencyDatabase; cbn [adjacencies].
      apply list_elem_of_In, list_elem_of_omap. exists (k, v).
      split; [now apply elem_of_map_to_list | exact Hb].
    + unfold buildAdjacency in Hb.
      rewrite bool_decide_eq_true_2 in Hb by exact Harea.
      injection Hb as <-. cbn. unfold overriddenMetric. repeat split.
  - unfold buildAdjacency in Hb.
    rewrite bool_decide_eq_true_2 in Hb by exact Harea. discriminate.
Qed.

Lemma buildAdjacencyDatabase_complete_witness :
  adjacencies_ Examples.lm_adjacent !! ("node2", "eth1")%string
  = Some (mkAdjacencyValue "0" (Examples.spec_eth "eth1")
            (Examples.adj_eth "node2" "eth1") true)
  /\ exists adj,
       In adj (adjacencies (buildAdjacencyDatabase "0" Examples.lm_adjacent))
       /\ ifName adj = "eth1"%string.
Proof.
  assert (Hk : adjacencies_ Examples.lm_adjacent !! ("node2", "eth1")%string
               = Some (mkAdjacencyValue "0" (Examples.spec_eth "eth1")
                         (Examples.adj_eth "node2" "eth1") true))
    by (vm_compute; reflexivity).
  split; [exact Hk |].
  destruct (buildAdjacencyDatabase_complete "0" Examples.lm_adjacent _ _ Hk
              eq_refl) as (adj & Hin & _ & Hif & _).
  exists adj. split; [exact Hin | exact Hif].
Defined.

End DatabaseProofs.

(** ** What the drain commands do to the state *)

Section CommandEffects.
Import LinkMonitor Spec.

Local Ltac run_method :=
  unfold mbind, mret, M_bind, M_ret, get, modify, emit,
    advertiseAdjacenciesThrottled; cbn beta iota.

Lemma state_eta (s : LinkMonitorState) :
  mkLinkMonitorState (isOverloaded s) (overloadedLinks s)
    (linkMetricOverrides s) (nodeLabel s) (adjMetricOverrides s) = s.
Proof. now destruct s. Qed.

(** On a tracked interface, [setLinkMetric] answers with a value and leaves
    the override of the interface set to the metric given, or removed when
    none is given; nothing else of the drain state, no adjacency and no
    interface changes, and the object is untouched or the throttle armed. *)
Theorem setLinkMetric_updates (interfaceName : string)
    (overrideMetric : option Z) (l : LinkMonitor) :
  is_Some (interfaces_ l !! interfaceName) ->
  exists l',
    setLinkMetric interfaceName overrideMetric l = Some (tt, l', [SetValue])
    /\ state_ l'
       = set_linkMetricOverrides
           match overrideMetric with
           | Some value =>
               <[interfaceName := value]> (linkMetricOverrides (state_ l))
           | None => delete interfaceName (linkMetricOverrides (state_ l))
           end (state_ l)
    /\ adjacencies_ l' = adjacencies_ l
    /\ interfaces_ l' = interfaces_ l
    /\ (l' = l \/ advertiseAdjacenciesThrottled_ l' = true).
Proof.
  intros [e He]. unfold setLinkMetric. run_method.
  rewrite (bool_decide_eq_false_2 (interfaces_ l !! interfaceName = None))
    by congruence.
  destruct overrideMetric as [value |];
    destruct (linkMetricOverrides (state_ l) !! interfaceName) as [cur |]
      eqn:Hcur; cbn; repeat case_bool_decide; cbn;
    try match goal with H : ~ is_Some (Some _) |- _ =>
          exfalso; apply H; eauto end;
    try match goal with H : is_Some None |- _ =>
          exfalso; destruct H; discriminate end;
    try match goal with H : ~ ~ is_Some _ |- _ => idtac end;
    eexists; (split; [reflexivity |]); cbn;
    unfold set_linkMetricOverrides;
    repeat split; auto.
  - rewrite insert_id by congruence. now rewrite state_eta.
  - rewrite delete_id by assumption. now rewrite state_eta.
Qed.

Theorem setAdjacencyMetric_updates (interfaceName adjNodeName : string)
    (overrideMetric : option Z) (l : LinkMonitor) :
  is_Some (adjacencies_ l !! (adjNodeName, interfaceName)) ->
  exists l',
    setAdjacencyMetric interfaceName adjNodeName overrideMetric l
    = Some (tt, l', [SetValue])
    /\ state_ l'
       = set_adjMetricOverrides
           match overrideMetric with
           | Some value =>
               <[(adjNodeName, interfaceName) := value]>
                 (adjMetricOverrides (state_ l))
           | None =>
               delete (adjNodeName, interfaceName)
                 (adjMetricOverrides (state_ l))
           end (state_ l)
    /\ adjacencies_ l' = adjacencies_ l
    /\ interfaces_ l' = interfaces_ l
    /\ (l' = l \/ advertiseAdjacenciesThrottled_ l' = true).
Proof.
  intros [e He]. unfold setAdjacencyMetric. run_method.
  rewrite (bool_decide_eq_false_2
             (adjacencies_ l !! (adjNodeName, interfaceName) = None))
    by congruence.
  destruct overrideMetric as [value |];
    destruct (adjMetricOverrides (state_ l) !! (adjNodeName, interfaceName))
      as [cur |] eqn:Hcur; cbn; repeat case_bool_decide; cbn;
    try match goal with H : ~ is_Some (Some _) |- _ =>
          exfalso; apply H; eauto end;
    try match goal with H : is_Some None |- _ =>
          exfalso; destruct H; discriminate end;
    eexists; (split; [reflexivity |]); cbn;
    unfold set_adjMetricOverrides;
    repeat split; auto.
  - rewrite insert_id by congruence. now rewrite state_eta.
  - rewrite delete_id by assumption. now rewrite state_eta.
Qed.

Theorem setInterfaceOverload_updates (interfaceName : string)
    (overloaded : bool) (l : LinkMonitor) :
  is_Some (interfaces_ l !! interfaceName) ->
  exists l',
    setInterfaceOverload interfaceName overloaded l
    = Some (tt, l', [SetValue])
    /\ state_ l'
       = set_overloadedLinks
           (if overloaded
            then {[ interfaceName ]} ∪ overloadedLinks (state_ l)
            else overloadedLinks (state_ l) ∖ {[ interfaceName ]})
           (state_ l)
    /\ adjacencies_ l' = adjacencies_ l
    /\ interfaces_ l' = interfaces_ l
    /\ (l' = l \/ advertiseAdjacenciesThrottled_ l' = true).
Proof.
  intros [e He]. unfold setInterfaceOverload. run_method.
  rewrite (bool_decide_eq_false_2 (interfaces_ l !! interfaceName = None))
    by congruence.
  destruct overloaded; cbn; case_bool_decide as Hin; cbn;
    eexists; (split; [reflexivity |]); cbn;
    unfold set_overloadedLinks; repeat split; auto.
  - rewrite (subseteq_union_1_L {[interfaceName]})
      by now apply singleton_subseteq_l.
    now rewrite state_eta.
  - rewrite difference_disjoint_L by now apply disjoint_singleton_r.
    now rewrite state_eta.
Qed.

Lemma commands_witness_known :
  is_Some (interfaces_ Examples.lm_started !! "eth0"%string).
Proof. vm_compute. eauto. Qed.

Lemma setLinkMetric_updates_witness :
  is_Some (interfaces_ Examples.lm_started !! "eth0"%string)
  /\ exists l',
       setLinkMetric "eth0" (Some 7) Examples.lm_started
       = Some (tt, l', [SetValue])
       /\ linkMetricOverrides (state_ l') !! "eth0"%string = Some 7.
Proof.
  split; [exact commands_witness_known |].
  destruct (setLinkMetric_updates "eth0" (Some 7) Examples.lm_started
              commands_witness_known) as (l' & Hrun & Hst & _).
  exists l'. split; [exact Hrun |]. rewrite Hst. cbn.
  apply lookup_insert_eq.
Defined.

Lemma setInterfaceOverload_updates_witness :
  is_Some (interfaces_ Examples.lm_started !! "eth0"%string)
  /\ exists l',
       setInterfaceOverload "eth0" true Examples.lm_started
       = Some (tt, l', [SetValue])
       /\ "eth0"%string ∈ overloadedLinks (state_ l').
Proof.
  split; [exact commands_witness_known |].
  destruct (setInterfaceOverload_updates "eth0" true Examples.lm_started
              commands_witness_known) as (l' & Hrun & Hst & _).
  exists l'. split; [exact Hrun |]. rewrite Hst. cbn.
  apply elem_of_union_l, elem_of_singleton. reflexivity.
Defined.

Lemma adjacent_witness_known :
  is_Some (adjacencies_ Examples.lm_adjacent !! ("node2", "eth2")%string).
Proof. vm_compute. eauto. Qed.

Lemma setAdjacencyMetric_updates_witness :
  is_Some (adjacencies_ Examples.lm_adjacent !! ("node2", "eth2")%string)
  /\ exists l',
       setAdjacencyMetric "eth2" "node2" (Some 9) Examples.lm_adjacent
       = Some (tt, l', [SetValue])
       /\ adjMetricOverrides (state_ l') !! ("node2", "eth2")%string = Some 9.
Proof.
  split; [exact adjacent_witness_known |].
  destruct (setAdjacencyMetric_updates "eth2" "node2" (Some 9)
              Examples.lm_adjacent adjacent_witness_known)
    as (l' & Hrun & Hst & _).
  exists l'. split; [exact Hrun |]. rewrite Hst. cbn.
  apply lookup_insert_eq.
Defined.

End CommandEffects.

(** ** Drain commands and re-advertisement *)

Section DrainReadvertise.
Import LinkMonitor Spec.

Local Ltac run_method :=
  unfold mbind, mret, M_bind, M_ret, get, modify, emit,
    advertiseAdjacenciesThrottled; cbn beta iota.

(** The throttle that fires runs [advertiseAdjacencies] on the object as it
    is then. *)
Lemma throttle_expiry_run (t : Z) (l : LinkMonitor) :
  advertiseAdjacenciesThrottled_ l = true ->
  exists l'' out,
    step t AdvertiseAdjacenciesThrottledExpired l = Some (tt, l'', out)
    /\ advertiseAdjacenciesThrottled_ l'' = false
    /\ state_ l'' = state_ l
    /\ (adjHoldTimer_ l = false ->
        forall areaId conf, areas_ l !! areaId = Some conf ->
          In (PersistKey areaId
                (kAdjDbMarker (constants l) +:+ nodeId_ l)
                (buildAdjacencyDatabase areaId (set_now_ t l))
                (ttlKeyInKvStore_ l)) out)
    /\ (adjHoldTimer_ l = true -> out = []).
Proof.
  intros Hact. unfold step. run_method. cbn. rewrite Hact. cbn.
  set (l1 := set_advertiseAdjacenciesThrottled_ false (set_now_ t l)).
  destruct (adjHoldTimer_ l) eqn:Hhold.
  - rewrite (advertiseAdjacencies_hold l1) by exact Hhold.
    eexists _, _. split; [reflexivity |].
    split; [reflexivity |]. split; [reflexivity |].
    split; [discriminate | reflexivity].
  - rewrite (advertiseAdjacencies_run l1) by exact Hhold.
    eexists _, _. split; [reflexivity |]. split; [| split; [| split]].
    + destruct (map_to_list (areas_ l1)); [reflexivity |].
      apply cancelThrottle_idle.
    + destruct (map_to_list (areas_ l1)); [reflexivity |].
      now rewrite cancelThrottle_state.
    + intros _ areaId conf Harea. cbn [app]. rewrite ?app_nil_r.
      apply in_flat_map. exists (areaId, conf). split.
      * apply list_elem_of_In, elem_of_map_to_list. exact Harea.
      * now left.
    + discriminate.
Qed.

(** A throttled command that changed the drain state has armed the
    throttle. *)
Lemma throttled_change (c : M unit) (l l' : LinkMonitor) :
  ThrottledCommand c ->
  c l = Some (tt, l', [SetValue]) ->
  state_ l' <> state_ l ->
  throttledReadvertise l c.
Proof.
  intros Hc Hrun Hne.
  destruct (throttled_command_outcome c l Hc) as [(out & Hrun2 & _) | (f & Hrun2)].
  - rewrite Hrun in Hrun2. injection Hrun2 as -> _. now contradiction Hne.
  - rewrite Hrun in Hrun2. injection Hrun2 as ->.
    exists (set_advertiseAdjacenciesThrottled_ true (set_state_ f l)).
    split; [exact Hrun |]. split; [exact Hne |]. split; [reflexivity |].
    intros t.
    destruct (throttle_expiry_run t
                (set_advertiseAdjacenciesThrottled_ true (set_state_ f l))
                eq_refl) as (l'' & out & Hstep & Hthr & Hst & Hpub & Hq).
    exists l'', out. split; [exact Hstep |]. split; [exact Hthr |].
    split; [exact Hst |]. split; [exact Hpub | exact Hq].
Qed.

(** C6, as the commands have it.  A drain command that changes the drain
    state triggers the re-advertisement of the adjacencies.
    [setInterfaceOverload], [setLinkMetric] and [setAdjacencyMetric], on a
    known interface or adjacency and with a value that differs from the
    recorded one, change [state_], arm the throttle and answer without
    publishing; the adjacency database of every area is written to the
    KvStore when the throttle fires.  [setNodeOverload], with a value that
    differs from the recorded one, changes [state_] and runs
    [advertiseAdjacencies] on the updated object inside the command, before
    it answers, without arming the throttle.  In both cases the databases are
    written only once the hold timer is over: while it is scheduled, nothing
    is emitted. *)
Theorem drain_commands_readvertise (l : LinkMonitor) :
  (forall interfaceName overloaded,
     is_Some (interfaces_ l !! interfaceName) ->
     bool_decide (interfaceName ∈ overloadedLinks (state_ l)) <> overloaded ->
     throttledReadvertise l (setInterfaceOverload interfaceName overloaded))
  /\ (forall interfaceName overrideMetric,
        is_Some (interfaces_ l !! interfaceName) ->
        linkMetricOverrides (state_ l) !! interfaceName <> overrideMetric ->
        throttledReadvertise l (setLinkMetric interfaceName overrideMetric))
  /\ (forall interfaceName adjNodeName overrideMetric,
        is_Some (adjacencies_ l !! (adjNodeName, interfaceName)) ->
        adjMetricOverrides (state_ l) !! (adjNodeName, interfaceName)
        <> overrideMetric ->
        throttledReadvertise l
          (setAdjacencyMetric interfaceName adjNodeName overrideMetric))
  /\ (forall overloaded,
        isOverloaded (state_ l) <> overloaded ->
        let updated := set_state_ (set_isOverloaded overloaded) l in
        exists l' out,
          setNodeOverload overloaded l = Some (tt, l', out ++ [SetValue])
          /\ state_ l' <> state_ l
          /\ advertiseAdjacencies updated = Some (tt, l', out)
          /\ (advertiseAdjacenciesThrottled_ l' = true ->
              advertiseAdjacenciesThrottled_ l = true)
          /\ (adjHoldTimer_ l = false ->
              forall areaId conf, areas_ l !! areaId = Some conf ->
                In (PersistKey areaId
                      (kAdjDbMarker (constants l) +:+ nodeId_ l)
                      (buildAdjacencyDatabase areaId updated)
                      (ttlKeyInKvStore_ l)) out)
          /\ (adjHoldTimer_ l = true -> out = [])).
Proof.
  split; [| split; [| split]].
  - intros interfaceName overloaded Hknown Hch.
    destruct (setInterfaceOverload_updates interfaceName overloaded l Hknown)
      as (l' & Hrun & Hst & _).
    apply (throttled_change _ l l'); [constructor | exact Hrun |].
    rewrite Hst. intros Heq. apply (f_equal overloadedLinks) in Heq.
    cbn in Heq. destruct overloaded.
    + apply Hch, bool_decide_eq_true_2. rewrite <- Heq.
      apply elem_of_union_l. now apply elem_of_singleton.
    + assert (Hin : interfaceName ∈ overloadedLinks (state_ l)).
      { destruct (decide (interfaceName ∈ overloadedLinks (state_ l)))
          as [Hin | Hout]; [exact Hin |].
        exfalso. now apply Hch, bool_decide_eq_false_2. }
      rewrite <- Heq in Hin. apply elem_of_difference in Hin as [_ Hin].
      apply Hin. now apply elem_of_singleton.
  - intros interfaceName overrideMetric Hknown Hch.
    destruct (setLinkMetric_updates interfaceName overrideMetric l Hknown)
      as (l' & Hrun & Hst & _).
    apply (throttled_change _ l l'); [constructor | exact Hrun |].
    rewrite Hst. intros Heq. apply (f_equal linkMetricOverrides) in Heq.
    cbn in Heq. apply Hch. rewrite <- Heq.
    destruct overrideMetric; [apply lookup_insert_eq | apply lookup_delete_eq].
  - intros interfaceName adjNodeName overrideMetric Hknown Hch.
    destruct (setAdjacencyMetric_updates interfaceName adjNodeName
                overrideMetric l Hknown) as (l' & Hrun & Hst & _).
    apply (throttled_change _ l l'); [constructor | exact Hrun |].
    rewrite Hst. intros Heq. apply (f_equal adjMetricOverrides) in Heq.
    cbn in Heq. apply Hch. rewrite <- Heq.
    destruct overrideMetric; [apply lookup_insert_eq | apply lookup_delete_eq].
  - intros b Hb updated.
    assert (Hne : state_ updated <> state_ l).
    { intros Heq. apply (f_equal isOverloaded) in Heq. cbn in Heq.
      now apply Hb. }
    destruct (adjHoldTimer_ l) eqn:Hhold.
    + exists updated, []. split.
      { apply setNodeOverload_change; [assumption |].
        now apply advertiseAdjacencies_hold. }
      split; [exact Hne |]. split; [now apply advertiseAdjacencies_hold |].
      split; [intros Hthr; exact Hthr |]. split; [discriminate | reflexivity].
    + pose proof (advertiseAdjacencies_run updated Hhold) as Hrun.
      eexists _, _. split.
      { apply setNodeOverload_change; [assumption | exact Hrun]. }
      split; [| split; [exact Hrun | split; [| split; [| discriminate]]]].
      * destruct (map_to_list (areas_ updated)); [exact Hne |].
        now rewrite cancelThrottle_state.
      * destruct (map_to_list (areas_ updated)); [intros Hthr; exact Hthr |].
        rewrite cancelThrottle_idle. discriminate.
      * intros _ areaId conf Harea.
        apply in_flat_map. exists (areaId, conf). split.
        -- apply list_elem_of_In, elem_of_map_to_list. exact Harea.
        -- now left.
Qed.

Lemma drain_commands_readvertise_witness :
  throttledReadvertise Examples.lm_started (setLinkMetric "eth0" (Some 7))
  /\ exists l' out,
       setNodeOverload true Examples.lm_started
       = Some (tt, l', out ++ [SetValue])
       /\ state_ l' <> state_ Examples.lm_started
       /\ In (PersistKey "0"
                (kAdjDbMarker (constants Examples.lm_started)
                 +:+ nodeId_ Examples.lm_started)
                (buildAdjacencyDatabase "0"
                   (set_state_ (set_isOverloaded true) Examples.lm_started))
                (ttlKeyInKvStore_ Examples.lm_started)) out.
Proof.
  destruct (drain_commands_readvertise Examples.lm_started)
    as (_ & Hlink & _ & Hnode).
  split.
  - apply Hlink; [exact commands_witness_known |]. vm_compute. discriminate.
  - destruct (Hnode true) as (l' & out & Hrun & Hne & _ & _ & Hpub & _).
    { vm_compute. discriminate. }
    exists l', out. split; [exact Hrun |]. split; [exact Hne |].
    apply (Hpub eq_refl "0"
             (mkAreaConfiguration (fun _ => true) (fun _ => true))).
    reflexivity.
Defined.

(** The claim C6 as it is written fails while the hold timer is scheduled:
    [setNodeOverload] changes the overload bit of the node and answers, and
    nothing is advertised, in the command or by it. *)
Lemma overload_in_hold_not_advertised :
  adjHoldTimer_ Examples.lm_new = true
  /\ isOverloaded (state_ Examples.lm_new) = false
  /\ areas_ Examples.lm_new <> ∅
  /\ exists l',
       setNodeOverload true Examples.lm_new = Some (tt, l', [SetValue])
       /\ isOverloaded (state_ l') = true
       /\ advertiseAdjacenciesThrottled_ l' = false.
Proof.
  split; [reflexivity |]. split; [reflexivity |].
  split; [vm_compute; discriminate |].
  eexists. split; [vm_compute; reflexivity |]. split; reflexivity.
Qed.

End DrainReadvertise.

(** ** Drain state, advertised and reported *)

Section DrainVisible.
Import LinkMonitor Spec.

(** X7. A link-metric override set by [setLinkMetric] is the metric advertised
    for every adjacency on that interface that has no adjacency override. *)
Theorem link_metric_advertised (interfaceName : string) (value : Z)
    (l : LinkMonitor) :
  is_Some (interfaces_ l !! interfaceName) ->
  exists l',
    setLinkMetric interfaceName (Some value) l = Some (tt, l', [SetValue])
    /\ forall areaId adj,
         In adj (adjacencies (buildAdjacencyDatabase areaId l')) ->
         ifName adj = interfaceName ->
         adjMetricOverrides (state_ l') !! (otherNodeName adj, interfaceName)
         = None ->
         metric adj = value.
Proof.
  intros Hknown.
  destruct (setLinkMetric_updates interfaceName (Some value) l Hknown)
    as (l' & Hrun & Hst & _).
  exists l'. split; [exact Hrun |]. intros areaId adj Hin Hif Hno.
  destruct (buildAdjacencyDatabase_adjacency areaId l' adj Hin)
    as (k & v & _ & _ & Hn & Hi & Hm & _).
  rewrite Hm. unfold overriddenMetric. rewrite <- Hn, <- Hi, Hif, Hno.
  rewrite Hst. cbn. now rewrite lookup_insert_eq.
Qed.

(** X8. An adjacency-metric override set by [setAdjacencyMetric] is the metric
    advertised for that adjacency, whatever the link-metric overrides. *)
Theorem adjacency_metric_advertised (interfaceName adjNodeName : string)
    (value : Z) (l : LinkMonitor) :
  is_Some (adjacencies_ l !! (adjNodeName, interfaceName)) ->
  exists l',
    setAdjacencyMetric interfaceName adjNodeName (Some value) l
    = Some (tt, l', [SetValue])
    /\ forall areaId adj,
         In adj (adjacencies (buildAdjacencyDatabase areaId l')) ->
         otherNodeName adj = adjNodeName ->
         ifName adj = interfaceName ->
         metric adj = value.
Proof.
  intros Hknown.
  destruct (setAdjacencyMetric_updates interfaceName adjNodeName (Some value)
              l Hknown) as (l' & Hrun & Hst & _).
  exists l'. split; [exact Hrun |]. intros areaId adj Hin Hnode Hif.
  destruct (buildAdjacencyDatabase_adjacency areaId l' adj Hin)
    as (k & v & _ & _ & Hn & Hi & Hm & _).
  rewrite Hm. unfold overriddenMetric. rewrite <- Hn, <- Hi, Hif, Hnode.
  rewrite Hst. cbn. now rewrite lookup_insert_eq.
Qed.

(** X9. The drain bit set or cleared by [setInterfaceOverload] is the one
    advertised for every adjacency on that interface. *)
Theorem interface_overload_advertised (interfaceName : string)
    (overloaded : bool) (l : LinkMonitor) :
  is_Some (interfaces_ l !! interfaceName) ->
  exists l',
    setInterfaceOverload interfaceName overloaded l
    = Some (tt, l', [SetValue])
    /\ forall areaId adj,
         In adj (adjacencies (buildAdjacencyDatabase areaId l')) ->
         ifName adj = interfaceName ->
         adj_isOverloaded adj = overloaded.
Proof.
  intros Hknown.
  destruct (setInterfaceOverload_updates interfaceName overloaded l Hknown)
    as (l' & Hrun & Hst & _).
  exists l'. split; [exact Hrun |]. intros areaId adj Hin Hif.
  destruct (buildAdjacencyDatabase_adjacency areaId l' adj Hin)
    as (k & v & _ & _ & _ & Hi & _ & Hov).
  rewrite Hov, <- Hi, Hif, Hst. cbn. destruct overloaded.
  - apply bool_decide_eq_true_2, elem_of_union_l, elem_of_singleton.
    reflexivity.
  - apply bool_decide_eq_false_2. intros [_ Hn]%elem_of_difference.
    apply Hn, elem_of_singleton. reflexivity.
Qed.

(** X10. Setting and then removing a link-metric override, or draining and then
    undraining an interface, gives back the drain state when the interface
    had no override, or was not drained. *)
Theorem interface_set_unset_round_trip (interfaceName : string) (value : Z)
    (l : LinkMonitor) :
  is_Some (interfaces_ l !! interfaceName) ->
  (linkMetricOverrides (state_ l) !! interfaceName = None ->
   exists l1 l2,
     setLinkMetric interfaceName (Some value) l = Some (tt, l1, [SetValue])
     /\ setLinkMetric interfaceName None l1 = Some (tt, l2, [SetValue])
     /\ state_ l2 = state_ l)
  /\ (interfaceName ∉ overloadedLinks (state_ l) ->
      exists l1 l2,
        setInterfaceOverload interfaceName true l
        = Some (tt, l1, [SetValue])
        /\ setInterfaceOverload interfaceName false l1
           = Some (tt, l2, [SetValue])
        /\ state_ l2 = state_ l).
Proof.
  intros Hknown. split.
  - intros Hnone.
    destruct (setLinkMetric_updates interfaceName (Some value) l Hknown)
      as (l1 & Hrun1 & Hst1 & _ & Hif1 & _).
    destruct (setLinkMetric_updates interfaceName None l1)
      as (l2 & Hrun2 & Hst2 & _); [now rewrite Hif1 |].
    exists l1, l2. split; [exact Hrun1 |]. split; [exact Hrun2 |].
    rewrite Hst2, Hst1. unfold set_linkMetricOverrides; cbn.
    rewrite delete_insert_eq, delete_id by exact Hnone. apply state_eta.
  - intros Hnot.
    destruct (setInterfaceOverload_updates interfaceName true l Hknown)
      as (l1 & Hrun1 & Hst1 & _ & Hif1 & _).
    destruct (setInterfaceOverload_updates interfaceName false l1)
      as (l2 & Hrun2 & Hst2 & _); [now rewrite Hif1 |].
    exists l1, l2. split; [exact Hrun1 |]. split; [exact Hrun2 |].
    rewrite Hst2, Hst1. unfold set_overloadedLinks; cbn.
    rewrite difference_union_distr_l_L, difference_diag_L, union_empty_l_L.
    rewrite difference_disjoint_L by now apply disjoint_singleton_r.
    apply state_eta.
Qed.

Lemma getInterfaces_fold {A B : Type} (g : string -> A -> B)
    (l : list (string * A)) (k : string) (b : B) :
  NoDup l.*1 ->
  foldl (fun acc kv => emplace kv.1 (g kv.1 kv.2) acc) ∅ l !! k = Some b
  <-> exists a, (k, a) ∈ l /\ b = g k a.
Proof.
  revert k b. induction l as [| [k0 a0] l IH] using rev_ind; intros k b Hnd.
  - cbn. rewrite lookup_empty. split; [discriminate |].
    intros (a & Hin & _). inversion Hin.
  - rewrite fmap_app in Hnd. apply NoDup_app in Hnd as (Hnd & Hfresh & _).
    rewrite foldl_snoc. cbn [fst snd]. rewrite emplace_lookup.
    set (m := foldl (fun acc kv => emplace kv.1 (g kv.1 kv.2) acc) ∅ l) in *.
    assert (Hnone : m !! k0 = None).
    { destruct (m !! k0) as [b0 |] eqn:Hb0; [| reflexivity].
      apply IH in Hb0 as (a & Hin & _); [| exact Hnd]. exfalso.
      apply (Hfresh k0).
      - apply list_elem_of_fmap. exists (k0, a). done.
      - cbn. constructor. }
    rewrite Hnone. destruct (decide (k0 = k)) as [<- | Hne].
    + split.
      * intros [= <-]. exists a0. split; [| reflexivity].
        apply elem_of_app. right. constructor.
      * intros (a & [Hin | Hin]%elem_of_app & ->).
        -- exfalso. apply (Hfresh k0).
           ++ apply list_elem_of_fmap. exists (k0, a). done.
           ++ cbn. constructor.
        -- apply list_elem_of_singleton in Hin. now injection Hin as ->.
    + rewrite (IH k b Hnd). split.
      * intros (a & Hin & ->). exists a. split; [| reflexivity].
        apply elem_of_app. now left.
      * intros (a & [Hin | Hin]%elem_of_app & ->); [eauto |].
        apply list_elem_of_singleton in Hin. congruence.
Qed.

Lemma getInterfaces_lookup (l : LinkMonitor) (ifName : string) :
  interfaceDetails (getInterfaces l) !! ifName
  = (fun interface =>
       mkInterfaceDetails (getInterfaceInfo interface)
         (bool_decide (ifName ∈ overloadedLinks (state_ l)))
         (linkMetricOverrides (state_ l) !! ifName)
         (if getBackoffDuration interface =? 0 then None
          else Some (getBackoffDuration interface)))
    <$> interfaces_ l !! ifName.
Proof.
  unfold getInterfaces; cbn [interfaceDetails].
  apply option_eq. intros d.
  pose proof (getInterfaces_fold
                (fun n interface =>
                   mkInterfaceDetails (getInterfaceInfo interface)
                     (bool_decide (n ∈ overloadedLinks (state_ l)))
                     (linkMetricOverrides (state_ l) !! n)
                     (if negb (getBackoffDuration interface =? 0)
                      then Some (getBackoffDuration interface) else None))
                (map_to_list (interfaces_ l)) ifName d
                (NoDup_fst_map_to_list _)) as Hf.
  cbv beta in Hf. cbv zeta.
  rewrite fmap_Some. split.
  - intros Hd. apply Hf in Hd as (e & Hin%elem_of_map_to_list & ->).
    exists e. split; [exact Hin |]. now destruct (getBackoffDuration e =? 0).
  - intros (e & Hin & ->). apply Hf. exists e.
    split; [now apply elem_of_map_to_list |].
    now destruct (getBackoffDuration e =? 0).
Qed.

(** X11. [getInterfaces] names this node, reports its overload bit and lists
    exactly the tracked interfaces, each with the drain bit and the metric
    override of the drain state; a back-off of zero is reported as
    absent. *)
Theorem getInterfaces_reports (l : LinkMonitor) :
  reply_thisNodeName (getInterfaces l) = nodeId_ l
  /\ reply_isOverloaded (getInterfaces l) = isOverloaded (state_ l)
  /\ forall ifName,
       interfaceDetails (getInterfaces l) !! ifName
       = (fun interface =>
            mkInterfaceDetails (getInterfaceInfo interface)
              (bool_decide (ifName ∈ overloadedLinks (state_ l)))
              (linkMetricOverrides (state_ l) !! ifName)
              (if getBackoffDuration interface =? 0 then None
               else Some (getBackoffDuration interface)))
         <$> interfaces_ l !! ifName.
Proof.
  split; [reflexivity |]. split; [reflexivity |].
  intros ifName. apply getInterfaces_lookup.
Qed.

(** X12. What [setLinkMetric] sets, [getInterfaces] reports. *)
Theorem setLinkMetric_reported (interfaceName : string)
    (overrideMetric : option Z) (l : LinkMonitor) :
  is_Some (interfaces_ l !! interfaceName) ->
  exists l' d,
    setLinkMetric interfaceName overrideMetric l = Some (tt, l', [SetValue])
    /\ interfaceDetails (getInterfaces l') !! interfaceName = Some d
    /\ metricOverride d = overrideMetric.
Proof.
  intros Hknown.
  destruct (setLinkMetric_updates interfaceName overrideMetric l Hknown)
    as (l' & Hrun & Hst & _ & Hif & _).
  destruct Hknown as [e He].
  eexists l', _. split; [exact Hrun |].
  rewrite getInterfaces_lookup, Hif, He. split; [reflexivity |].
  cbn. rewrite Hst. cbn. destruct overrideMetric.
  - apply lookup_insert_eq.
  - apply lookup_delete_eq.
Qed.

Lemma linked_known :
  is_Some (interfaces_ Examples.lm_linked !! "eth0"%string).
Proof. vm_compute. eauto. Qed.

Lemma linked_link_metric_run :
  exists l' adj,
    setLinkMetric "eth0" (Some 7) Examples.lm_linked
    = Some (tt, l', [SetValue])
    /\ In adj (adjacencies (buildAdjacencyDatabase "0" l'))
    /\ ifName adj = "eth0"%string
    /\ adjMetricOverrides (state_ l') !! (otherNodeName adj, "eth0"%string)
       = None.
Proof.
  eexists _, _. split; [vm_compute; reflexivity |].
  split; [vm_compute; left; reflexivity |].
  split; vm_compute; reflexivity.
Qed.

Lemma link_metric_advertised_witness :
  exists l' adj,
    setLinkMetric "eth0" (Some 7) Examples.lm_linked
    = Some (tt, l', [SetValue])
    /\ In adj (adjacencies (buildAdjacencyDatabase "0" l'))
    /\ ifName adj = "eth0"%string
    /\ metric adj = 7.
Proof.
  destruct (link_metric_advertised "eth0" 7 Examples.lm_linked linked_known)
    as (l' & Hrun & Hall).
  destruct linked_link_metric_run as (l2 & adj & Hrun2 & Hin & Hif & Hno).
  assert (Heq : l2 = l') by congruence. subst l2.
  exists l', adj. split; [exact Hrun |]. split; [exact Hin |].
  split; [exact Hif |]. exact (Hall "0"%string adj Hin Hif Hno).
Defined.

Lemma adjacency_metric_advertised_witness :
  is_Some (adjacencies_ Examples.lm_adjacent !! ("node2", "eth2")%string)
  /\ exists l',
       setAdjacencyMetric "eth2" "node2" (Some 9) Examples.lm_adjacent
       = Some (tt, l', [SetValue]).
Proof.
  split; [exact adjacent_witness_known |].
  destruct (adjacency_metric_advertised "eth2" "node2" 9 Examples.lm_adjacent
              adjacent_witness_known) as (l' & Hrun & _).
  exists l'. exact Hrun.
Defined.

Lemma linked_overload_run :
  exists l' adj,
    setInterfaceOverload "eth0" true Examples.lm_linked
    = Some (tt, l', [SetValue])
    /\ In adj (adjacencies (buildAdjacencyDatabase "0" l'))
    /\ ifName adj = "eth0"%string.
Proof.
  eexists _, _. split; [vm_compute; reflexivity |].
  split; [vm_compute; left; reflexivity |]. vm_compute. reflexivity.
Qed.

Lemma interface_overload_advertised_witness :
  exists l' adj,
    setInterfaceOverload "eth0" true Examples.lm_linked
    = Some (tt, l', [SetValue])
    /\ In adj (adjacencies (buildAdjacencyDatabase "0" l'))
    /\ ifName adj = "eth0"%string
    /\ adj_isOverloaded adj = true.
Proof.
  destruct (interface_overload_advertised "eth0" true Examples.lm_linked
              linked_known) as (l' & Hrun & Hall).
  destruct linked_overload_run as (l2 & adj & Hrun2 & Hin & Hif).
  assert (Heq : l2 = l') by congruence. subst l2.
  exists l', adj. split; [exact Hrun |]. split; [exact Hin |].
  split; [exact Hif |]. exact (Hall "0"%string adj Hin Hif).
Defined.

Lemma interface_set_unset_round_trip_witness :
  is_Some (interfaces_ Examples.lm_started !! "eth0"%string)
  /\ (linkMetricOverrides (state_ Examples.lm_started) !! "eth0"%string = None
      -> exists l1 l2,
           setLinkMetric "eth0" (Some 7) Examples.lm_started
           = Some (tt, l1, [SetValue])
           /\ setLinkMetric "eth0" None l1 = Some (tt, l2, [SetValue])
           /\ state_ l2 = state_ Examples.lm_started).
Proof.
  split; [exact commands_witness_known |].
  exact (proj1 (interface_set_unset_round_trip "eth0" 7 Examples.lm_started
                  commands_witness_known)).
Defined.

Lemma setLinkMetric_reported_witness :
  is_Some (interfaces_ Examples.lm_started !! "eth0"%string)
  /\ exists l' d,
       setLinkMetric "eth0" (Some 7) Examples.lm_started
       = Some (tt, l', [SetValue])
       /\ interfaceDetails (getInterfaces l') !! "eth0"%string = Some d
       /\ metricOverride d = Some 7.
Proof.
  split; [exact commands_witness_known |].
  exact (setLinkMetric_reported "eth0" (Some 7) Examples.lm_started
           commands_witness_known).
Defined.

End DrainVisible.

(** ** The peers of the KvStore *)

Section PeerSessions.
Import LinkMonitor Spec.

Lemma wp_foldM_prefix {A B : Type} (f : B -> A -> M B)
    (Inv : list A -> B -> LinkMonitor -> list Effect -> Prop)
    (xs : list A) (b : B) (l : LinkMonitor) :
  Inv [] b l [] ->
  (forall p x rest b l out, xs = p ++ x :: rest -> Inv p b l out ->
     wp (f b x) l (fun b' l' out' => Inv (p ++ [x]) b' l' (out ++ out'))) ->
  wp (foldM f b xs) l (Inv xs).
Proof.
  intros Hinit Hstep.
  enough (Hgen : forall ys p b l out,
             xs = p ++ ys -> Inv p b l out ->
             wp (foldM f b ys) l
               (fun b' l' out' => Inv (p ++ ys) b' l' (out ++ out'))).
  { apply (Hgen xs [] b l []); auto. }
  induction ys as [| y ys IH]; intros p b0 l0 out Hxs Hinv; simpl.
  - apply wp_ret. now rewrite !app_nil_r.
  - apply wp_bind. eapply wp_mono.
    + apply (Hstep p y ys b0 l0 out); [exact Hxs | exact Hinv].
    + intros b1 l1 out1 Hinv1. eapply wp_mono.
      * apply (IH (p ++ [y]) b1 l1 (out ++ out1)); [| exact Hinv1].
        now rewrite <- app_assoc.
      * intros b2 l2 out2. cbn beta. now rewrite <- !app_assoc.
Qed.

Lemma logPeerEvent_sample (event peerName : string) (spec : PeerSpec)
    (l : LinkMonitor) :
  exists e, isLogSample e /\ logPeerEvent event peerName spec l = Some (tt, l, [e]).
Proof. eexists. split; [eexists |]; reflexivity. Qed.

Lemma fresh_in_prefix {A : Type} (xs p rest : list (string * A))
    (x : string * A) (a : A) :
  NoDup xs.*1 -> xs = p ++ x :: rest -> (x.1, a) ∈ p -> False.
Proof.
  intros Hnd -> Hin. rewrite fmap_app in Hnd.
  apply NoDup_app in Hnd as (_ & Hfresh & _).
  apply (Hfresh x.1).
  - apply list_elem_of_fmap. exists (x.1, a). done.
  - cbn. constructor.
Qed.

Lemma size_pos_nonempty {A : Type} (m : gmap string A) :
  (0 <? size m)%nat = if decide (m = ∅) then false else true.
Proof.
  destruct (decide (m = ∅)) as [-> | Hne].
  - now rewrite map_size_empty.
  - apply Nat.ltb_lt. destruct (size m) eqn:Hs; [| lia].
    apply map_size_empty_iff in Hs. contradiction.
Qed.

Lemma peerUpdate_end (areaId : string) (toDelPeers : list string)
    (toAddPeers : gmap string PeerSpec) (l : LinkMonitor) :
  let peerDelParams :=
    if (0 <? length toDelPeers)%nat then Some toDelPeers else None in
  let peerAddParams :=
    if (0 <? size toAddPeers)%nat then Some toAddPeers else None in
  (if bool_decide (is_Some peerDelParams)
      || bool_decide (is_Some peerAddParams)
   then emit (PushPeerUpdate
                (mkPeerUpdateRequest areaId peerAddParams peerDelParams))
   else mret tt) l
  = Some (tt, l, peerUpdate areaId toDelPeers toAddPeers).
Proof.
  cbv zeta. rewrite size_pos_nonempty. unfold peerUpdate.
  destruct toDelPeers as [| d ds]; repeat case_decide;
    try contradiction; reflexivity.
Qed.

(** What [advertiseKvStorePeers] does, loop by loop. *)
Lemma advertiseKvStorePeers_post (areaId : string)
    (upPeers : gmap string PeerSpec) (l : LinkMonitor) :
  (forall name, is_Some (upPeers !! name) ->
     exists i v, adjacencies_ l !! (name, i) = Some v /\ eligible areaId v) ->
  let old := default ∅ (peers_ l !! areaId) in
  exists newPeers m toDelPeers toAddPeers logs,
    getPeersFromAdjacencies (adjacencies_ l) areaId = Some newPeers
    /\ advertiseKvStorePeers areaId upPeers l
       = Some (tt, set_peers_ (fun _ => <[areaId := m]> (peers_ l)) l,
               logs ++ peerUpdate areaId toDelPeers toAddPeers)
    /\ (forall n, m !! n
                  = (fun spec => mkKvStorePeerValue spec (wasSynced old n))
                    <$> newPeers !! n)
    /\ (forall n, n ∈ toDelPeers <-> is_Some (old !! n) /\ newPeers !! n = None)
    /\ (forall n spec,
          newPeers !! n = Some spec ->
          tPeerSpec <$> old !! n <> Some spec ->
          toAddPeers !! n = Some spec)
    /\ (forall n spec,
          toAddPeers !! n = Some spec ->
          newPeers !! n = Some spec
          /\ (tPeerSpec <$> old !! n <> Some spec
              \/ upPeers !! n = Some spec))
    /\ (forall n spec,
          upPeers !! n = Some spec -> newPeers !! n = Some spec ->
          toAddPeers !! n = Some spec)
    /\ Forall isLogSample logs
    /\ (toDelPeers = [] -> toAddPeers = ∅ -> logs = []).
Proof.
  intros Hup old.
  destruct (getPeersFromAdjacencies_lookup (adjacencies_ l) areaId)
    as (newPeers & Hnp & _).
  set (l1 := set_peers_ <[areaId := ∅]> l).
  (* peers to delete *)
  assert (Hdel : wp
    (foldM (fun toDelPeers (kv : string * KvStorePeerValue) =>
        if bool_decide (newPeers !! kv.1 = None)
        then logPeerEvent "DEL_PEER" kv.1 (tPeerSpec kv.2);;
             mret (toDelPeers ++ [kv.1])
        else mret toDelPeers)
      [] (map_to_list old)) l1
    (fun toDelPeers l' out =>
       l' = l1
       /\ (forall n, n ∈ toDelPeers <->
             is_Some (old !! n) /\ newPeers !! n = None)
       /\ Forall isLogSample out
       /\ (toDelPeers = [] -> out = []))).
  { eapply wp_mono.
    { apply wp_foldM
        with (Inv := fun p (toDel : list string) l' out =>
                l' = l1
                /\ (forall n, n ∈ toDel <->
                      exists v, (n, v) ∈ p /\ newPeers !! n = None)
                /\ Forall isLogSample out
                /\ (toDel = [] -> out = [])).
      - split; [reflexivity |]. split; [| split; [constructor | reflexivity]].
        intros n. split; [intros Hn; inversion Hn |].
        intros (v & Hin & _). inversion Hin.
      - intros p [n0 v0] toDel l' out _ (-> & Hdel & Hlog & Hnil).
        cbn [fst snd]. case_bool_decide as Hnew.
        + destruct (logPeerEvent_sample "DEL_PEER" n0 (tPeerSpec v0) l1)
            as (e & Hlog1 & He).
          apply wp_bind. exists tt, l1, [e]. split; [exact He |].
          apply wp_ret. split; [reflexivity |]. split; [| split].
          * intros n. rewrite elem_of_app, list_elem_of_singleton, Hdel.
            split.
            -- intros [(v & Hin & Hn) | ->].
               ++ exists v. split; [apply elem_of_app; now left | exact Hn].
               ++ exists v0. split; [| exact Hnew].
                  apply elem_of_app. right. constructor.
            -- intros (v & [Hin | Hin]%elem_of_app & Hn); [left; eauto |].
               apply list_elem_of_singleton in Hin. injection Hin as -> _.
               now right.
          * rewrite app_nil_r. apply Forall_app. split; [exact Hlog |].
            constructor; [exact Hlog1 | constructor].
          * intros Habs. now destruct toDel.
        + apply wp_ret. split; [reflexivity |]. rewrite app_nil_r.
          split; [| split; [exact Hlog | exact Hnil]].
          intros n. rewrite Hdel. split.
          * intros (v & Hin & Hn). exists v.
            split; [apply elem_of_app; now left | exact Hn].
          * intros (v & [Hin | Hin]%elem_of_app & Hn); [eauto |].
            apply list_elem_of_singleton in Hin. injection Hin as -> _.
            contradiction. }
    intros toDel l' out (-> & Hdel & Hlog & Hnil).
    split; [reflexivity |]. split; [| split; [exact Hlog | exact Hnil]].
    intros n. rewrite Hdel. split.
    - intros (v & Hin%elem_of_map_to_list & Hn). eauto.
    - intros ([v Hv] & Hn). exists v. split; [| exact Hn].
      now apply elem_of_map_to_list. }
  (* peers to add *)
  assert (Hadd : wp
    (foldM (fun toAddPeers (kv : string * PeerSpec) =>
        let nodeName := kv.1 in
        let peerSpec := kv.2 in
        let oldPeerVal := old !! nodeName in
        let initialSynced :=
          match oldPeerVal with
          | None => false
          | Some v => initialSynced v
          end in
        modify (set_peers_ (fun peers =>
          <[areaId := emplace nodeName
                        (mkKvStorePeerValue peerSpec initialSynced)
                        (default ∅ (peers !! areaId))]> peers));;
        if match oldPeerVal with
           | Some v => bool_decide (tPeerSpec v = peerSpec)
           | None => false
           end
        then mret toAddPeers
        else logPeerEvent "ADD_PEER" nodeName peerSpec;;
             mret (emplace nodeName peerSpec toAddPeers))
      (∅ : gmap string PeerSpec) (map_to_list newPeers)) l1
    (fun toAddPeers l' out =>
       (exists m,
          l' = set_peers_ (fun _ => <[areaId := m]> (peers_ l)) l
          /\ forall n, m !! n
                       = (fun spec => mkKvStorePeerValue spec (wasSynced old n))
                         <$> newPeers !! n)
       /\ (forall n spec, toAddPeers !! n = Some spec <->
             newPeers !! n = Some spec
             /\ tPeerSpec <$> old !! n <> Some spec)
       /\ Forall isLogSample out
       /\ (toAddPeers = ∅ -> out = []))).
  { eapply wp_mono.
    { apply wp_foldM_prefix
        with (Inv := fun p (toAdd : gmap string PeerSpec) l' out =>
                (exists m,
                   l' = set_peers_ (fun _ => <[areaId := m]> (peers_ l)) l
                   /\ forall n v, m !! n = Some v <->
                        exists spec, (n, spec) ∈ p
                          /\ v = mkKvStorePeerValue spec (wasSynced old n))
                /\ (forall n spec, toAdd !! n = Some spec <->
                      (n, spec) ∈ p /\ tPeerSpec <$> old !! n <> Some spec)
                /\ Forall isLogSample out
                /\ (toAdd = ∅ -> out = [])).
      - split; [| split; [| split; [constructor | reflexivity]]].
        + exists ∅. split; [reflexivity |]. intros n v.
          rewrite lookup_empty. split; [discriminate |].
          intros (spec & Hin & _). inversion Hin.
        + intros n spec. rewrite lookup_empty. split; [discriminate |].
          intros [Hin _]. inversion Hin.
      - intros p [n0 spec0] rest toAdd l' out Hxs
          ((m & -> & Hm) & Hadd & Hlog & Hnil).
        cbn [fst snd]. cbv zeta.
        assert (Hfresh : forall a, (n0, a) ∈ p -> False).
        { intros a.
          apply (fresh_in_prefix (map_to_list newPeers) p rest (n0, spec0) a);
            [apply NoDup_fst_map_to_list | exact Hxs]. }
        assert (Hm0 : m !! n0 = None).
        { destruct (m !! n0) as [v |] eqn:Hv; [| reflexivity].
          apply Hm in Hv as (spec & Hin & _). now apply Hfresh in Hin. }
        assert (Ha0 : toAdd !! n0 = None).
        { destruct (toAdd !! n0) as [sp |] eqn:Hsp; [| reflexivity].
          apply Hadd in Hsp as [Hin _]. now apply Hfresh in Hin. }
        apply wp_bind, wp_modify. rewrite set_peers_emplace.
        fold (wasSynced old n0).
        set (m' := emplace n0 (mkKvStorePeerValue spec0 (wasSynced old n0)) m).
        assert (Hm' : forall n v, m' !! n = Some v <->
                  exists spec, (n, spec) ∈ p ++ [(n0, spec0)]
                    /\ v = mkKvStorePeerValue spec (wasSynced old n)).
        { intros n v. unfold m'. rewrite emplace_lookup, Hm0.
          destruct (decide (n0 = n)) as [<- | Hne].
          - split.
            + intros [= <-]. exists spec0. split; [| reflexivity].
              apply elem_of_app. right. constructor.
            + intros (spec & [Hin | Hin]%elem_of_app & ->).
              * now apply Hfresh in Hin.
              * apply list_elem_of_singleton in Hin. now injection Hin as ->.
          - rewrite Hm. split.
            + intros (spec & Hin & ->). exists spec.
              split; [apply elem_of_app; now left | reflexivity].
            + intros (spec & [Hin | Hin]%elem_of_app & ->); [eauto |].
              apply list_elem_of_singleton in Hin. congruence. }
        destruct (old !! n0) as [v0 |] eqn:Hold0.
        + case_bool_decide as Hsame.
          * apply wp_ret. rewrite !app_nil_r.
            split; [eauto |]. split; [| split; [exact Hlog | exact Hnil]].
            intros n spec. rewrite Hadd. split.
            -- intros [Hin Hne]. split; [apply elem_of_app; now left | exact Hne].
            -- intros [[Hin | Hin]%elem_of_app Hne]; [eauto |].
               apply list_elem_of_singleton in Hin. injection Hin as -> ->.
               rewrite Hold0 in Hne. cbn in Hne. congruence.
          * destruct (logPeerEvent_sample "ADD_PEER" n0 spec0
                        (set_peers_ (fun _ => <[areaId := m']> (peers_ l)) l))
              as (e & Hlog1 & He).
            apply wp_bind. eexists tt, _, [e]. split; [exact He |].
            apply wp_ret. rewrite !app_nil_r. cbn [app].
            split; [eauto |]. split; [| split].
            -- intros n spec. rewrite emplace_lookup, Ha0.
               destruct (decide (n0 = n)) as [<- | Hne].
               ++ split.
                  ** intros [= <-]. split.
                     --- apply elem_of_app. right. constructor.
                     --- rewrite Hold0. cbn. congruence.
                  ** intros [[Hin | Hin]%elem_of_app _].
                     --- now apply Hfresh in Hin.
                     --- apply list_elem_of_singleton in Hin.
                         now injection Hin as ->.
               ++ rewrite Hadd. split.
                  ** intros [Hin Hd]. split; [apply elem_of_app; now left | exact Hd].
                  ** intros [[Hin | Hin]%elem_of_app Hd]; [eauto |].
                     apply list_elem_of_singleton in Hin. congruence.
            -- apply Forall_app. split; [exact Hlog |].
               constructor; [exact Hlog1 | constructor].
            -- intros Habs. apply (f_equal (fun t => t !! n0)) in Habs.
               rewrite emplace_lookup, Ha0, decide_True, lookup_empty in Habs
                 by reflexivity.
               discriminate.
        + destruct (logPeerEvent_sample "ADD_PEER" n0 spec0
                      (set_peers_ (fun _ => <[areaId := m']> (peers_ l)) l))
            as (e & Hlog1 & He).
          apply wp_bind. eexists tt, _, [e]. split; [exact He |].
          apply wp_ret. rewrite !app_nil_r. cbn [app].
          split; [eauto |]. split; [| split].
          * intros n spec. rewrite emplace_lookup, Ha0.
            destruct (decide (n0 = n)) as [<- | Hne].
            -- split.
               ++ intros [= <-]. split.
                  ** apply elem_of_app. right. constructor.
                  ** rewrite Hold0. discriminate.
               ++ intros [[Hin | Hin]%elem_of_app _].
                  ** now apply Hfresh in Hin.
                  ** apply list_elem_of_singleton in Hin.
                     now injection Hin as ->.
            -- rewrite Hadd. split.
               ++ intros [Hin Hd]. split; [apply elem_of_app; now left | exact Hd].
               ++ intros [[Hin | Hin]%elem_of_app Hd]; [eauto |].
                  apply list_elem_of_singleton in Hin. congruence.
          * apply Forall_app. split; [exact Hlog |].
            constructor; [exact Hlog1 | constructor].
          * intros Habs. apply (f_equal (fun t => t !! n0)) in Habs.
            rewrite emplace_lookup, Ha0, decide_True, lookup_empty in Habs
              by reflexivity.
            discriminate. }
    intros toAdd l' out ((m & -> & Hm) & Hadd & Hlog & Hnil).
    split; [| split; [| split; [exact Hlog | exact Hnil]]].
    - exists m. split; [reflexivity |]. intros n. apply option_eq. intros v.
      rewrite Hm, fmap_Some. split.
      + intros (spec & Hin%elem_of_map_to_list & ->). eauto.
      + intros (spec & Hin & ->). exists spec.
        split; [now apply elem_of_map_to_list | reflexivity].
    - intros n spec. rewrite Hadd.
      now rewrite elem_of_map_to_list. }
  (* put the loops together *)
  destruct Hdel as (toDel & ? & out1 & Hrun1 & -> & Hdel & Hlog1 & Hnil1).
  destruct Hadd as (toAdd & ? & out2 & Hrun2 & (m & -> & Hm) & Hadd & Hlog2
                    & Hnil2).
  set (l2 := set_peers_ (fun _ => <[areaId := m]> (peers_ l)) l) in *.
  assert (Hupl : wp
    (foldM (fun toAddPeers (kv : string * PeerSpec) =>
        let name := kv.1 in
        let spec := kv.2 in
        l1 ← get;
        areaPeers ← at_ (peers_ l1) areaId;
        CHECK (bool_decide (is_Some (areaPeers !! name)));;
        if bool_decide (is_Some (toAddPeers !! name)) then mret toAddPeers
        else
          peer ← at_ areaPeers name;
          if bool_decide (spec ≠ tPeerSpec peer) then mret toAddPeers
          else mret (emplace name spec toAddPeers))
      toAdd (map_to_list upPeers)) l2
    (fun toAdd' l' out =>
       l' = l2 /\ out = []
       /\ (forall n spec, toAdd !! n = Some spec -> toAdd' !! n = Some spec)
       /\ (forall n spec, toAdd' !! n = Some spec ->
             toAdd !! n = Some spec
             \/ (upPeers !! n = Some spec /\ newPeers !! n = Some spec))
       /\ (forall n spec, upPeers !! n = Some spec ->
             newPeers !! n = Some spec -> toAdd' !! n = Some spec))).
  { eapply wp_mono.
    { apply wp_foldM
        with (Inv := fun (p : list (string * PeerSpec))
                         (toAdd' : gmap string PeerSpec) l' out =>
                l' = l2 /\ out = []
                /\ (forall n spec, toAdd !! n = Some spec ->
                      toAdd' !! n = Some spec)
                /\ (forall n spec, toAdd' !! n = Some spec ->
                      toAdd !! n = Some spec
                      \/ (upPeers !! n = Some spec
                          /\ newPeers !! n = Some spec))
                /\ (forall n spec, (n, spec) ∈ p ->
                      newPeers !! n = Some spec -> toAdd' !! n = Some spec)).
      - split; [reflexivity |]. split; [reflexivity |].
        split; [auto |]. split; [auto |].
        intros n spec Hin. inversion Hin.
      - intros p [name spec] b l' out Hin (-> & -> & Hmono & Hfrom & Hdone).
        cbn [fst snd]. cbv zeta. apply elem_of_map_to_list in Hin.
        apply wp_bind, wp_get. cbn beta.
        apply wp_bind. eapply wp_at; [apply lookup_insert_eq |].
        assert (Hs : is_Some (newPeers !! name)).
        { destruct (Hup name) as (i & v & Hv & He); [eauto |].
          eapply getPeersFromAdjacencies_dom; eauto. }
        destruct Hs as [spec' Hs].
        assert (Hmn : m !! name
                      = Some (mkKvStorePeerValue spec' (wasSynced old name))).
        { now rewrite Hm, Hs. }
        apply wp_bind, wp_CHECK; [apply bool_decide_eq_true_2; eauto |].
        case_bool_decide as Hthere.
        + apply wp_ret. split; [reflexivity |]. split; [reflexivity |].
          split; [exact Hmono |]. split; [exact Hfrom |].
          intros n sp [Hp | Hp]%elem_of_app Hn; [now apply (Hdone n sp) |].
          apply list_elem_of_singleton in Hp. injection Hp as -> ->.
          destruct Hthere as [sp' Hsp']. rewrite Hsp'.
          destruct (Hfrom _ _ Hsp') as [Ha | [Hu _]].
          * apply Hadd in Ha as [Ha _]. congruence.
          * congruence.
        + apply wp_bind. eapply wp_at; [exact Hmn |]. cbn [tPeerSpec].
          assert (Hb : b !! name = None).
          { destruct (b !! name) eqn:Hb; [| reflexivity].
            exfalso. apply Hthere. eauto. }
          case_bool_decide as Hspec; apply wp_ret.
          * split; [reflexivity |]. split; [reflexivity |].
            split; [exact Hmono |]. split; [exact Hfrom |].
            intros n sp [Hp | Hp]%elem_of_app Hn; [now apply (Hdone n sp) |].
            apply list_elem_of_singleton in Hp. injection Hp as -> ->.
            congruence.
          * subst spec'.
            split; [reflexivity |]. split; [reflexivity |].
            split; [| split].
            -- intros n sp Hn. rewrite emplace_lookup, Hb.
               destruct (decide (name = n)) as [<- |]; [| now apply Hmono].
               apply Hmono in Hn. congruence.
            -- intros n sp. rewrite emplace_lookup, Hb.
               destruct (decide (name = n)) as [<- |]; [| apply Hfrom].
               intros [= <-]. right. now split.
            -- intros n sp Hp Hn. rewrite emplace_lookup, Hb.
               destruct (decide (name = n)) as [<- |]; [congruence |].
               apply elem_of_app in Hp as [Hp | Hp]; [now apply (Hdone n sp) |].
               apply list_elem_of_singleton in Hp. congruence. }
    intros toAdd' l' out (-> & -> & Hmono & Hfrom & Hdone).
    split; [reflexivity |]. split; [reflexivity |].
    split; [exact Hmono |]. split; [exact Hfrom |].
    intros n sp Hu. apply Hdone. now apply elem_of_map_to_list. }
  destruct Hupl
    as (toAdd' & ? & out3 & Hrun3 & -> & -> & Hmono & Hfrom & Hdone).
  exists newPeers, m, toDel, toAdd', (out1 ++ out2).
  split; [exact Hnp |]. split.
  { assert (Hwp : wp (advertiseKvStorePeers areaId upPeers) l
              (fun _ l' out =>
                 l' = l2
                 /\ out = (out1 ++ out2) ++ peerUpdate areaId toDel toAdd')).
    { unfold advertiseKvStorePeers. apply wp_bind, wp_get. cbn beta.
      apply wp_bind, wp_modify.
      apply wp_bind. eapply wp_orThrow; [exact Hnp |].
      apply wp_bind. exists toDel, l1, out1. split; [exact Hrun1 |].
      apply wp_bind. exists toAdd, l2, out2. split; [exact Hrun2 |].
      apply wp_bind. exists toAdd', l2, []. split; [exact Hrun3 |].
      exists tt, l2, (peerUpdate areaId toDel toAdd').
      split; [apply peerUpdate_end |]. split; [reflexivity |].
      cbn [app]. now rewrite ?app_nil_r, ?app_assoc. }
    destruct Hwp as ([] & ? & ? & Hrun & -> & ->). exact Hrun. }
  split; [exact Hm |]. split; [exact Hdel |].
  split; [| split; [| split; [exact Hdone | split]]].
  - intros n spec Hn Hd. apply Hmono, Hadd. now split.
  - intros n spec Hn. destruct (Hfrom n spec Hn) as [Ha | [Hu Hnew]].
    + apply Hadd in Ha as [Hnew Hd]. split; [exact Hnew | now left].
    + split; [exact Hnew | now right].
  - apply Forall_app. now split.
  - intros Hd Ha. rewrite (Hnil1 Hd). cbn [app]. apply Hnil2.
    apply map_eq. intros n. rewrite lookup_empty.
    destruct (toAdd !! n) as [sp |] eqn:Hsp; [| reflexivity].
    apply Hmono in Hsp. rewrite Ha, lookup_empty in Hsp. discriminate.
Qed.

Lemma peerUpdate_elem (areaId : string) (toDelPeers : list string)
    (toAddPeers : gmap string PeerSpec) (e : Effect) :
  e ∈ peerUpdate areaId toDelPeers toAddPeers ->
  exists req,
    e = PushPeerUpdate req
    /\ req_area req = areaId
    /\ (forall dels, peerDelParams req = Some dels -> dels = toDelPeers)
    /\ (forall adds, peerAddParams req = Some adds -> adds = toAddPeers).
Proof.
  unfold peerUpdate.
  destruct toDelPeers as [| d ds]; case_decide as Hempty; intros He;
    try (now inversion He);
    apply list_elem_of_singleton in He; subst e; eexists;
    (split; [reflexivity |]); (split; [reflexivity |]); cbn;
    split; intros ? [=]; auto.
Qed.

Lemma peerUpdate_del (areaId : string) (toDelPeers : list string)
    (toAddPeers : gmap string PeerSpec) (n : string) :
  n ∈ toDelPeers ->
  exists req,
    PushPeerUpdate req ∈ peerUpdate areaId toDelPeers toAddPeers
    /\ req_area req = areaId
    /\ peerDelParams req = Some toDelPeers.
Proof.
  unfold peerUpdate. intros Hn.
  destruct toDelPeers as [| d ds]; [inversion Hn |].
  case_decide; eexists; (split; [apply list_elem_of_singleton; reflexivity |]);
    split; reflexivity.
Qed.

Lemma peerUpdate_add (areaId : string) (toDelPeers : list string)
    (toAddPeers : gmap string PeerSpec) (n : string) (spec : PeerSpec) :
  toAddPeers !! n = Some spec ->
  exists req,
    PushPeerUpdate req ∈ peerUpdate areaId toDelPeers toAddPeers
    /\ req_area req = areaId
    /\ peerAddParams req = Some toAddPeers.
Proof.
  unfold peerUpdate. intros Hn.
  assert (Hne : toAddPeers <> ∅).
  { intros ->. rewrite lookup_empty in Hn. discriminate. }
  destruct toDelPeers as [| d ds]; case_decide; try contradiction;
    eexists; (split; [apply list_elem_of_singleton; reflexivity |]);
    split; reflexivity.
Qed.

Lemma peerUpdate_length (areaId : string) (toDelPeers : list string)
    (toAddPeers : gmap string PeerSpec) :
  (length (peerUpdate areaId toDelPeers toAddPeers) <= 1)%nat.
Proof.
  unfold peerUpdate.
  destruct toDelPeers as [| d ds]; case_decide; cbn; lia.
Qed.

(** X13. After [advertiseKvStorePeers] the peers recorded for the area are the
    peers derived from the adjacencies, each with the synchronisation flag
    its session had before; the other areas and the adjacencies are as they
    were. *)
Theorem advertiseKvStorePeers_mirrors (areaId : string)
    (upPeers : gmap string PeerSpec) (l : LinkMonitor) :
  (forall name, is_Some (upPeers !! name) ->
     exists i v, adjacencies_ l !! (name, i) = Some v /\ eligible areaId v) ->
  exists newPeers l' out,
    getPeersFromAdjacencies (adjacencies_ l) areaId = Some newPeers
    /\ advertiseKvStorePeers areaId upPeers l = Some (tt, l', out)
    /\ adjacencies_ l' = adjacencies_ l
    /\ (forall a, a <> areaId -> peers_ l' !! a = peers_ l !! a)
    /\ exists areaPeers,
         peers_ l' !! areaId = Some areaPeers
         /\ forall n,
              areaPeers !! n
              = (fun spec =>
                   mkKvStorePeerValue spec
                     (wasSynced (default ∅ (peers_ l !! areaId)) n))
                <$> newPeers !! n.
Proof.
  intros Hup.
  destruct (advertiseKvStorePeers_post areaId upPeers l Hup)
    as (newPeers & m & toDel & toAdd & logs & Hnp & Hrun & Hm & _).
  exists newPeers. eexists _, _. split; [exact Hnp |].
  split; [exact Hrun |]. split; [reflexivity |]. split.
  - intros a Ha. cbn. now rewrite lookup_insert_ne.
  - exists m. split; [| exact Hm]. cbn. apply lookup_insert_eq.
Qed.

(** X14. [advertiseKvStorePeers] is idempotent: called again with no peer that
    came up, it changes nothing and sends nothing. *)
Theorem advertiseKvStorePeers_idempotent (areaId : string)
    (upPeers : gmap string PeerSpec) (l : LinkMonitor) :
  (forall name, is_Some (upPeers !! name) ->
     exists i v, adjacencies_ l !! (name, i) = Some v /\ eligible areaId v) ->
  exists l' out,
    advertiseKvStorePeers areaId upPeers l = Some (tt, l', out)
    /\ advertiseKvStorePeers areaId ∅ l' = Some (tt, l', []).
Proof.
  intros Hup.
  destruct (advertiseKvStorePeers_post areaId upPeers l Hup)
    as (newPeers & m & toDel & toAdd & logs & Hnp & Hrun & Hm & _).
  set (l' := set_peers_ (fun _ => <[areaId := m]> (peers_ l)) l) in *.
  exists l', (logs ++ peerUpdate areaId toDel toAdd).
  split; [exact Hrun |].
  assert (Hup' : forall name, is_Some ((∅ : gmap string PeerSpec) !! name) ->
            exists i v, adjacencies_ l' !! (name, i) = Some v
                        /\ eligible areaId v).
  { intros name [x Hx]. rewrite lookup_empty in Hx. discriminate. }
  destruct (advertiseKvStorePeers_post areaId ∅ l' Hup')
    as (newPeers' & m' & toDel' & toAdd' & logs' & Hnp' & Hrun' & Hm' & Hdel'
        & _ & Hadd' & _ & _ & Hnil').
  assert (Hold : default ∅ (peers_ l' !! areaId) = m).
  { unfold l'. cbn. now rewrite lookup_insert_eq. }
  rewrite Hold in Hm', Hdel', Hadd'.
  assert (Hsame : newPeers' = newPeers).
  { change (adjacencies_ l') with (adjacencies_ l) in Hnp'. congruence. }
  subst newPeers'.
  assert (HtoDel : toDel' = []).
  { destruct toDel' as [| d ds]; [reflexivity |].
    destruct (proj1 (Hdel' d)) as [[v Hv] Hn]; [constructor |].
    rewrite Hm, Hn in Hv. discriminate. }
  assert (HtoAdd : toAdd' = ∅).
  { apply map_eq. intros n. rewrite lookup_empty.
    destruct (toAdd' !! n) as [spec |] eqn:Hsp; [| reflexivity].
    destruct (Hadd' n spec Hsp) as [Hn [Hd | Hu]].
    - exfalso. apply Hd. now rewrite Hm, Hn.
    - rewrite lookup_empty in Hu. discriminate. }
  assert (Hmm : m' = m).
  { apply map_eq. intros n. rewrite Hm', Hm.
    destruct (newPeers !! n) as [spec |] eqn:Hn; [| reflexivity].
    cbn. do 2 f_equal. unfold wasSynced at 1. now rewrite Hm, Hn. }
  rewrite Hrun', (Hnil' HtoDel HtoAdd), HtoDel, HtoAdd, Hmm.
  assert (Hl : set_peers_ (fun _ => <[areaId := m]> (peers_ l')) l' = l').
  { unfold l'. cbn. rewrite insert_insert_eq. now destruct l. }
  rewrite Hl. reflexivity.
Qed.

(** X15. [advertiseKvStorePeers] announces every change: a peer that is no longer
    derived from the adjacencies is in the deletions of the request it
    pushes, and a peer that is new, whose session changed or that came up
    again is in its additions, with its current session. *)
Theorem peer_changes_announced (areaId : string)
    (upPeers : gmap string PeerSpec) (l : LinkMonitor) :
  (forall name, is_Some (upPeers !! name) ->
     exists i v, adjacencies_ l !! (name, i) = Some v /\ eligible areaId v) ->
  let old := default ∅ (peers_ l !! areaId) in
  exists newPeers l' out,
    getPeersFromAdjacencies (adjacencies_ l) areaId = Some newPeers
    /\ advertiseKvStorePeers areaId upPeers l = Some (tt, l', out)
    /\ (forall n,
          is_Some (old !! n) -> newPeers !! n = None ->
          exists req dels,
            PushPeerUpdate req ∈ out /\ req_area req = areaId
            /\ peerDelParams req = Some dels /\ n ∈ dels)
    /\ (forall n spec,
          newPeers !! n = Some spec ->
          tPeerSpec <$> old !! n <> Some spec \/ upPeers !! n = Some spec ->
          exists req adds,
            PushPeerUpdate req ∈ out /\ req_area req = areaId
            /\ peerAddParams req = Some adds /\ adds !! n = Some spec).
Proof.
  intros Hup old.
  destruct (advertiseKvStorePeers_post areaId upPeers l Hup)
    as (newPeers & m & toDel & toAdd & logs & Hnp & Hrun & _ & Hdel & Hnew
        & _ & Hagain & _).
  exists newPeers. eexists _, _. split; [exact Hnp |].
  split; [exact Hrun |]. split.
  - intros n Hold Hgone.
    assert (Hn : n ∈ toDel) by (apply Hdel; now split).
    destruct (peerUpdate_del areaId toDel toAdd n Hn) as (req & Hin & Ha & Hd).
    exists req, toDel. split; [apply elem_of_app; now right |]. auto.
  - intros n spec Hn Hwhy.
    assert (Ht : toAdd !! n = Some spec).
    { destruct Hwhy as [Hd | Hu]; [now apply Hnew | now apply Hagain]. }
    destruct (peerUpdate_add areaId toDel toAdd n spec Ht)
      as (req & Hin & Ha & Hd).
    exists req, toAdd. split; [apply elem_of_app; now right |]. auto.
Qed.

(** X16. [advertiseKvStorePeers] announces nothing else: apart from log samples
    it pushes at most one request, as its last effect, for its own area;
    the request deletes only peers that were recorded and are no longer
    derived, and adds only peers that are derived now, with the session
    derived for them. *)
Theorem peer_update_sound (areaId : string)
    (upPeers : gmap string PeerSpec) (l : LinkMonitor) :
  (forall name, is_Some (upPeers !! name) ->
     exists i v, adjacencies_ l !! (name, i) = Some v /\ eligible areaId v) ->
  let old := default ∅ (peers_ l !! areaId) in
  exists newPeers l' logs reqs,
    getPeersFromAdjacencies (adjacencies_ l) areaId = Some newPeers
    /\ advertiseKvStorePeers areaId upPeers l = Some (tt, l', logs ++ reqs)
    /\ Forall isLogSample logs
    /\ (length reqs <= 1)%nat
    /\ forall e, e ∈ reqs ->
         exists req,
           e = PushPeerUpdate req
           /\ req_area req = areaId
           /\ (forall dels n,
                 peerDelParams req = Some dels -> n ∈ dels ->
                 is_Some (old !! n) /\ newPeers !! n = None)
           /\ (forall adds n spec,
                 peerAddParams req = Some adds -> adds !! n = Some spec ->
                 newPeers !! n = Some spec
                 /\ (tPeerSpec <$> old !! n <> Some spec
                     \/ upPeers !! n = Some spec)).
Proof.
  intros Hup old.
  destruct (advertiseKvStorePeers_post areaId upPeers l Hup)
    as (newPeers & m & toDel & toAdd & logs & Hnp & Hrun & _ & Hdel & _
        & Hadd & _ & Hlogs & _).
  exists newPeers. eexists _, logs, (peerUpdate areaId toDel toAdd).
  split; [exact Hnp |]. split; [exact Hrun |]. split; [exact Hlogs |].
  split; [apply peerUpdate_length |].
  intros e He.
  destruct (peerUpdate_elem areaId toDel toAdd e He)
    as (req & -> & Ha & Hd & Hs).
  exists req. split; [reflexivity |]. split; [exact Ha |]. split.
  - intros dels n Hdels Hn. apply Hd in Hdels as ->. now apply Hdel.
  - intros adds n spec Hadds Hn. apply Hs in Hadds as ->. now apply Hadd.
Qed.

Lemma up_peers_witness_known (name : string) :
  is_Some (({[ "node2"%string := Examples.spec_eth "eth10" ]}
            : gmap string PeerSpec) !! name) ->
  exists i v,
    adjacencies_ Examples.lm_adjacent !! (name, i) = Some v
    /\ eligible "0" v.
Proof.
  intros [x Hx]. apply lookup_singleton_Some in Hx as [<- _].
  exists "eth2"%string,
    (mkAdjacencyValue "0" (Examples.spec_eth "eth2")
       (Examples.adj_eth "node2" "eth2") false).
  split; [vm_compute; reflexivity | split; reflexivity].
Qed.

Lemma advertiseKvStorePeers_mirrors_witness :
  exists newPeers l' out,
    getPeersFromAdjacencies (adjacencies_ Examples.lm_adjacent) "0"
    = Some newPeers
    /\ advertiseKvStorePeers "0"
         {[ "node2"%string := Examples.spec_eth "eth10" ]}
         Examples.lm_adjacent
       = Some (tt, l', out)
    /\ adjacencies_ l' = adjacencies_ Examples.lm_adjacent.
Proof.
  destruct (advertiseKvStorePeers_mirrors "0"
              {[ "node2"%string := Examples.spec_eth "eth10" ]}
              Examples.lm_adjacent up_peers_witness_known)
    as (newPeers & l' & out & Hnp & Hrun & Hadj & _).
  exists newPeers, l', out. auto.
Defined.

Lemma advertiseKvStorePeers_idempotent_witness :
  exists l' out,
    advertiseKvStorePeers "0"
      {[ "node2"%string := Examples.spec_eth "eth10" ]} Examples.lm_adjacent
    = Some (tt, l', out)
    /\ advertiseKvStorePeers "0" ∅ l' = Some (tt, l', []).
Proof.
  exact (advertiseKvStorePeers_idempotent "0"
           {[ "node2"%string := Examples.spec_eth "eth10" ]}
           Examples.lm_adjacent up_peers_witness_known).
Defined.

Lemma peer_changes_announced_witness :
  exists newPeers l' out,
    getPeersFromAdjacencies (adjacencies_ Examples.lm_adjacent) "0"
    = Some newPeers
    /\ advertiseKvStorePeers "0"
         {[ "node2"%string := Examples.spec_eth "eth10" ]}
         Examples.lm_adjacent
       = Some (tt, l', out).
Proof.
  destruct (peer_changes_announced "0"
              {[ "node2"%string := Examples.spec_eth "eth10" ]}
              Examples.lm_adjacent up_peers_witness_known)
    as (newPeers & l' & out & Hnp & Hrun & _).
  exists newPeers, l', out. auto.
Defined.

Lemma peer_update_sound_witness :
  exists newPeers l' logs reqs,
    getPeersFromAdjacencies (adjacencies_ Examples.lm_adjacent) "0"
    = Some newPeers
    /\ advertiseKvStorePeers "0"
         {[ "node2"%string := Examples.spec_eth "eth10" ]}
         Examples.lm_adjacent
       = Some (tt, l', logs ++ reqs)
    /\ (length reqs <= 1)%nat.
Proof.
  destruct (peer_update_sound "0"
              {[ "node2"%string := Examples.spec_eth "eth10" ]}
              Examples.lm_adjacent up_peers_witness_known)
    as (newPeers & l' & logs & reqs & Hnp & Hrun & _ & Hlen & _).
  exists newPeers, l', logs, reqs. auto.
Defined.

End PeerSessions.

(** ** Interfaces and their addresses *)

Section InterfaceAdvertisement.
Import Util LinkMonitor Spec.

Lemma anyAreaShouldDiscoverOnIface_spec (l : LinkMonitor) (iface : string) :
  anyAreaShouldDiscoverOnIface l iface = true
  <-> exists areaId conf,
        areas_ l !! areaId = Some conf
        /\ shouldDiscoverOnIface conf iface = true.
Proof.
  unfold anyAreaShouldDiscoverOnIface.
  assert (Hfold : forall (xs : list (string * AreaConfiguration)) b,
    foldl (fun anyMatch kv => anyMatch || shouldDiscoverOnIface kv.2 iface)
      b xs = true
    <-> b = true
        \/ exists kv, kv ∈ xs /\ shouldDiscoverOnIface kv.2 iface = true).
  { induction xs as [| x xs IH]; intros b; cbn [foldl].
    - split; [auto |]. intros [Hb | (kv & Hin & _)]; [exact Hb | inversion Hin].
    - rewrite IH, orb_true_iff. split.
      + intros [[Hb | Hx] | (kv & Hin & Hkv)].
        * now left.
        * right. exists x. split; [constructor | exact Hx].
        * right. exists kv. split; [now constructor | exact Hkv].
      + intros [Hb | (kv & Hin & Hkv)]; [left; now left |].
        apply elem_of_cons in Hin as [-> | Hin]; [left; now right |].
        right. eauto. }
  rewrite Hfold. split.
  - intros [Hf | ([a c] & Hin%elem_of_map_to_list & Hc)]; [discriminate |].
    eauto.
  - intros (a & c & Hin & Hc). right. exists (a, c).
    split; [now apply elem_of_map_to_list | exact Hc].
Qed.

Lemma advertiseInterfaces_fold (l : LinkMonitor)
    (xs : list (string * InterfaceEntry)) (k : string) (info : InterfaceInfo) :
  NoDup xs.*1 ->
  foldl (fun ifDb (kv : string * InterfaceEntry) =>
      if negb (anyAreaShouldDiscoverOnIface l kv.1) then ifDb
      else
        let interfaceInfo :=
          set_isUp (isActive kv.2) (getInterfaceInfo kv.2) in
        emplace kv.1 interfaceInfo ifDb)
    ∅ xs !! k = Some info
  <-> exists interface,
        (k, interface) ∈ xs
        /\ anyAreaShouldDiscoverOnIface l k = true
        /\ info = set_isUp (isActive interface) (getInterfaceInfo interface).
Proof.
  revert k info.
  induction xs as [| [k0 i0] xs IH] using rev_ind; intros k info Hnd.
  - cbn. rewrite lookup_empty. split; [discriminate |].
    intros (i & Hin & _). inversion Hin.
  - rewrite fmap_app in Hnd. apply NoDup_app in Hnd as (Hnd & Hfresh & _).
    rewrite foldl_snoc. cbn [fst snd]. cbv zeta.
    set (m := foldl _ ∅ xs) in *.
    assert (Hnone : m !! k0 = None).
    { destruct (m !! k0) as [b0 |] eqn:Hb0; [| reflexivity].
      apply IH in Hb0 as (i & Hin & _); [| exact Hnd]. exfalso.
      apply (Hfresh k0); [| cbn; constructor].
      apply list_elem_of_fmap. now exists (k0, i). }
    assert (Hold : forall i, (k, i) ∈ xs ++ [(k0, i0)] ->
              (k, i) ∈ xs \/ (k = k0 /\ i = i0)).
    { intros i [Hin | Hin]%elem_of_app; [now left |].
      apply list_elem_of_singleton in Hin. injection Hin as -> ->. now right. }
    destruct (anyAreaShouldDiscoverOnIface l k0) eqn:Hany; cbn [negb].
    + rewrite emplace_lookup, Hnone.
      destruct (decide (k0 = k)) as [<- | Hne].
      * split.
        -- intros [= <-]. exists i0. split; [| split; [exact Hany | easy]].
           apply elem_of_app. right. constructor.
        -- intros (i & Hin & _ & ->).
           destruct (Hold i Hin) as [Hin' | [_ ->]]; [| reflexivity].
           exfalso. apply (Hfresh k0); [| cbn; constructor].
           apply list_elem_of_fmap. now exists (k0, i).
      * rewrite IH by exact Hnd. split.
        -- intros (i & Hin & Hrest). exists i.
           split; [apply elem_of_app; now left | exact Hrest].
        -- intros (i & Hin & Hrest).
           destruct (Hold i Hin) as [Hin' | [-> _]]; [eauto | congruence].
    + rewrite IH by exact Hnd. split.
      * intros (i & Hin & Hrest). exists i.
        split; [apply elem_of_app; now left | exact Hrest].
      * intros (i & Hin & Hk & Hi).
        destruct (Hold i Hin) as [Hin' | [-> _]]; [eauto | congruence].
Qed.

(** X17. [advertiseInterfaces] pushes one interface database, whether or not the
    hold timer is scheduled: it names this node and holds exactly the
    tracked interfaces that some area discovers neighbors on, each reported
    up when the interface is active. *)
Theorem advertiseInterfaces_publishes (l : LinkMonitor) :
  exists ifDb,
    advertiseInterfaces l = Some (tt, l, [PushInterfaceDb ifDb])
    /\ ifdb_thisNodeName ifDb = nodeId_ l
    /\ forall ifName info,
         interfaces ifDb !! ifName = Some info
         <-> exists interface areaId conf,
               interfaces_ l !! ifName = Some interface
               /\ areas_ l !! areaId = Some conf
               /\ shouldDiscoverOnIface conf ifName = true
               /\ info = set_isUp (isActive interface)
                           (getInterfaceInfo interface).
Proof.
  eexists. split; [reflexivity |]. split; [reflexivity |].
  intros ifName info. cbn [interfaces].
  rewrite advertiseInterfaces_fold by apply NoDup_fst_map_to_list.
  split.
  - intros (i & Hin%elem_of_map_to_list & Hany & ->).
    apply anyAreaShouldDiscoverOnIface_spec in Hany as (a & c & Ha & Hc).
    exists i, a, c. auto.
  - intros (i & a & c & Hi & Ha & Hc & ->). exists i.
    split; [now apply elem_of_map_to_list |]. split; [| reflexivity].
    apply anyAreaShouldDiscoverOnIface_spec. eauto.
Qed.

Lemma forM_emit {A : Type} (g : A -> Effect) (xs : list A) (l : LinkMonitor) :
  forM_ (fun x => emit (g x)) xs l = Some (tt, l, map g xs).
Proof.
  induction xs as [| x xs IH]; [reflexivity |].
  cbn [forM_ map]. unfold mbind, M_bind. cbn [emit]. now rewrite IH.
Qed.

Lemma redist_area_absent (name : string) (ifp : list PrefixEntry)
    (ys : list (string * AreaConfiguration))
    (acc : gmap string (list PrefixEntry)) (areaId : string) :
  areaId ∉ ys.*1 ->
  foldl (fun areaPrefixes (akv : string * AreaConfiguration) =>
      if shouldRedistributeIface akv.2 name
      then <[akv.1 := default [] (areaPrefixes !! akv.1) ++ ifp]> areaPrefixes
      else areaPrefixes)
    acc ys !! areaId
  = acc !! areaId.
Proof.
  revert acc. induction ys as [| [a c] ys IH]; intros acc Hn; [reflexivity |].
  cbn [foldl fst snd]. cbn in Hn. apply not_elem_of_cons in Hn as [Hne Hn].
  rewrite IH by exact Hn.
  destruct (shouldRedistributeIface c name); [| reflexivity].
  now rewrite lookup_insert_ne.
Qed.

Lemma redist_area_present (name : string) (ifp : list PrefixEntry)
    (ys : list (string * AreaConfiguration))
    (acc : gmap string (list PrefixEntry)) (areaId : string)
    (conf : AreaConfiguration) :
  NoDup ys.*1 ->
  (areaId, conf) ∈ ys ->
  default [] (foldl (fun areaPrefixes (akv : string * AreaConfiguration) =>
      if shouldRedistributeIface akv.2 name
      then <[akv.1 := default [] (areaPrefixes !! akv.1) ++ ifp]> areaPrefixes
      else areaPrefixes)
    acc ys !! areaId)
  = default [] (acc !! areaId)
    ++ (if shouldRedistributeIface conf name then ifp else []).
Proof.
  revert acc. induction ys as [| [a c] ys IH]; intros acc Hnd Hin;
    [inversion Hin |].
  cbn [foldl fst snd]. cbn in Hnd. apply NoDup_cons in Hnd as [Hfresh Hnd].
  apply elem_of_cons in Hin as [[= <- <-] | Hin].
  - rewrite redist_area_absent by exact Hfresh.
    destruct (shouldRedistributeIface conf name).
    + now rewrite lookup_insert_eq.
    + now rewrite app_nil_r.
  - rewrite IH by assumption.
    assert (Hne : a <> areaId).
    { intros ->. apply Hfresh. apply list_elem_of_fmap.
      now exists (areaId, conf). }
    destruct (shouldRedistributeIface c name); [| reflexivity].
    now rewrite lookup_insert_ne.
Qed.

Lemma redist_interfaces_fold (l : LinkMonitor)
    (ys : list (string * AreaConfiguration)) (areaId : string)
    (conf : AreaConfiguration) :
  NoDup ys.*1 ->
  (areaId, conf) ∈ ys ->
  forall (xs : list (string * InterfaceEntry))
         (acc : gmap string (list PrefixEntry)),
    default [] (foldl (fun (areaPrefixes : gmap string (list PrefixEntry))
                           (kv : string * InterfaceEntry) =>
        let interface := kv.2 in
        if negb (isActive interface) then areaPrefixes
        else
          let ifacePrefixes :=
            map (redistPrefix l interface)
              (getGlobalUnicastNetworks interface (enableV4_ l)) in
          foldl (fun (areaPrefixes : gmap string (list PrefixEntry))
                     (akv : string * AreaConfiguration) =>
              if shouldRedistributeIface akv.2 (getIfName interface)
              then <[akv.1 :=
                       default [] (areaPrefixes !! akv.1) ++ ifacePrefixes]>
                     areaPrefixes
              else areaPrefixes)
            areaPrefixes ys)
      acc xs !! areaId)
    = default [] (acc !! areaId)
      ++ flat_map (fun kv : string * InterfaceEntry =>
            if isActive kv.2 && shouldRedistributeIface conf (getIfName kv.2)
            then map (redistPrefix l kv.2)
                   (getGlobalUnicastNetworks kv.2 (enableV4_ l))
            else [])
          xs.
Proof.
  intros Hnd Hin. induction xs as [| [n i] xs IH]; intros acc.
  - cbn. now rewrite app_nil_r.
  - cbn [foldl flat_map fst snd]. cbv zeta. cbv zeta in IH. rewrite IH.
    destruct (isActive i); cbn [negb andb].
    + rewrite (redist_area_present _ _ _ _ _ conf Hnd Hin).
      now rewrite <- app_assoc.
    + reflexivity.
Qed.

(** X18. Once the hold timer is over, [advertiseRedistAddrs] leaves the object as
    it is and pushes exactly one request per configured area, a
    synchronisation of the LOOPBACK prefixes destined to that area alone.
    The request of an area holds the global unicast networks of the active
    interfaces the area redistributes, interface by interface, and nothing
    else. *)
Theorem advertiseRedistAddrs_requests (l : LinkMonitor) :
  adjHoldTimer_ l = false ->
  exists areaPrefixes : string -> list PrefixEntry,
    advertiseRedistAddrs l
    = Some (tt, l,
            map (fun kv : string * AreaConfiguration =>
                   PushPrefixUpdate
                     (mkPrefixUpdateRequest SYNC_PREFIXES_BY_TYPE LOOPBACK
                        (areaPrefixes kv.1) {[ kv.1 ]}))
              (map_to_list (areas_ l)))
    /\ forall areaId conf,
         areas_ l !! areaId = Some conf ->
         areaPrefixes areaId
         = flat_map (fun kv : string * InterfaceEntry =>
               if isActive kv.2
                  && shouldRedistributeIface conf (getIfName kv.2)
               then map (redistPrefix l kv.2)
                      (getGlobalUnicastNetworks kv.2 (enableV4_ l))
               else [])
             (map_to_list (interfaces_ l)).
Proof.
  intros Hhold. unfold advertiseRedistAddrs.
  unfold mbind at 1. unfold M_bind at 1. cbn [get]. rewrite Hhold.
  cbv zeta.
  match goal with
  | |- context [forM_ (fun kv => emit (PushPrefixUpdate
                  (mkPrefixUpdateRequest _ _ (default [] (?m !! kv.1)) _)))] =>
      set (areaPrefixes := m)
  end.
  exists (fun areaId => default [] (areaPrefixes !! areaId)).
  split.
  { rewrite (forM_emit
               (fun kv : string * AreaConfiguration =>
                  PushPrefixUpdate
                    (mkPrefixUpdateRequest SYNC_PREFIXES_BY_TYPE LOOPBACK
                       (default [] (areaPrefixes !! kv.1)) {[ kv.1 ]}))).
    reflexivity. }
  intros areaId conf Hconf. cbv beta. unfold areaPrefixes.
  assert (Hin : (areaId, conf) ∈ map_to_list (areas_ l))
    by now apply elem_of_map_to_list.
  pose proof (redist_interfaces_fold l (map_to_list (areas_ l)) areaId conf
                (NoDup_fst_map_to_list (areas_ l)) Hin
                (map_to_list (interfaces_ l)) ∅) as Hfold.
  rewrite lookup_empty in Hfold. exact Hfold.
Qed.

Lemma started_hold_over : adjHoldTimer_ Examples.lm_started = false.
Proof. reflexivity. Qed.

Lemma addressed_area :
  areas_ Examples.lm_addressed !! "0"%string
  = Some (mkAreaConfiguration (fun _ => true) (fun _ => true)).
Proof. reflexivity. Qed.

Lemma addressed_hold_over : adjHoldTimer_ Examples.lm_addressed = false.
Proof. reflexivity. Qed.

Lemma advertiseRedistAddrs_requests_witness :
  exists areaPrefixes : string -> list PrefixEntry,
    advertiseRedistAddrs Examples.lm_addressed
    = Some (tt, Examples.lm_addressed,
            map (fun kv : string * AreaConfiguration =>
                   PushPrefixUpdate
                     (mkPrefixUpdateRequest SYNC_PREFIXES_BY_TYPE LOOPBACK
                        (areaPrefixes kv.1) {[ kv.1 ]}))
              (map_to_list (areas_ Examples.lm_addressed)))
    /\ areaPrefixes "0"%string
       = [ redistPrefix Examples.lm_addressed Examples.eth0g
             Examples.prefix0g ]
    /\ prefix (redistPrefix Examples.lm_addressed Examples.eth0g
                 Examples.prefix0g) = "2001:db8::1/64"%string
    /\ forwardingType (redistPrefix Examples.lm_addressed Examples.eth0g
                         Examples.prefix0g) = IP.
Proof.
  destruct (advertiseRedistAddrs_requests Examples.lm_addressed
              addressed_hold_over) as (areaPrefixes & Hrun & Hpfx).
  exists areaPrefixes. split; [exact Hrun |].
  split; [| split; reflexivity].
  rewrite (Hpfx "0"%string _ addressed_area). vm_compute. reflexivity.
Defined.

Lemma retry_loop_inv (maxBackoff : Z) (xs : list (string * InterfaceEntry)) :
  0 < maxBackoff ->
  let r :=
    foldl (fun minRemainMs (kv : string * InterfaceEntry) =>
        let interface := kv.2 in
        if isActive interface then minRemainMs
        else
          let curRemainMs := getBackoffDuration interface in
          if 0 <? curRemainMs
          then Z.min maxBackoff curRemainMs
          else minRemainMs)
      0 xs in
  (r = 0
   /\ forall kv, kv ∈ xs ->
        isActive kv.2 = true \/ getBackoffDuration kv.2 <= 0)
  \/ (0 < r
      /\ exists kv, kv ∈ xs /\ isActive kv.2 = false
           /\ 0 < getBackoffDuration kv.2
           /\ r = Z.min maxBackoff (getBackoffDuration kv.2)).
Proof.
  intros Hmax. induction xs as [| [n i] xs IH] using rev_ind; cbv zeta.
  - left. split; [reflexivity |]. intros kv Hin. inversion Hin.
  - rewrite foldl_snoc. cbn [snd]. cbv zeta in IH.
    set (r := foldl _ 0 xs) in *.
    destruct (isActive i) eqn:Hact.
    + destruct IH as [[Hr Hall] | (Hr & kv & Hin & Hrest)].
      * left. split; [exact Hr |].
        intros kv [Hin | Hin]%elem_of_app; [now apply Hall |].
        apply list_elem_of_singleton in Hin. subst kv. now left.
      * right. split; [exact Hr |]. exists kv.
        split; [apply elem_of_app; now left | exact Hrest].
    + destruct (0 <? getBackoffDuration i) eqn:Hpos.
      * apply Z.ltb_lt in Hpos. right. split; [lia |].
        exists (n, i). split; [apply elem_of_app; right; constructor |].
        auto.
      * apply Z.ltb_ge in Hpos.
        destruct IH as [[Hr Hall] | (Hr & kv & Hin & Hrest)].
        -- left. split; [exact Hr |].
           intros kv [Hin | Hin]%elem_of_app; [now apply Hall |].
           apply list_elem_of_singleton in Hin. subst kv. now right.
        -- right. split; [exact Hr |]. exists kv.
           split; [apply elem_of_app; now left | exact Hrest].
Qed.

(** X19. With a positive maximal backoff, [getRetryTimeOnUnstableInterfaces]
    is zero exactly when no inactive interface is still backing off;
    otherwise it is the remaining backoff of one such interface, capped by
    the maximal backoff, and so never more than the cap. *)
Theorem getRetryTimeOnUnstableInterfaces_spec (l : LinkMonitor) :
  0 < linkflapMaxBackoff_ l ->
  (getRetryTimeOnUnstableInterfaces l = 0
   <-> forall ifName interface,
         interfaces_ l !! ifName = Some interface ->
         isActive interface = true \/ getBackoffDuration interface <= 0)
  /\ (getRetryTimeOnUnstableInterfaces l <> 0 ->
      0 < getRetryTimeOnUnstableInterfaces l <= linkflapMaxBackoff_ l
      /\ exists ifName interface,
           interfaces_ l !! ifName = Some interface
           /\ isActive interface = false
           /\ 0 < getBackoffDuration interface
           /\ getRetryTimeOnUnstableInterfaces l
              = Z.min (linkflapMaxBackoff_ l) (getBackoffDuration interface)).
Proof.
  intros Hmax. unfold getRetryTimeOnUnstableInterfaces.
  pose proof (retry_loop_inv (linkflapMaxBackoff_ l)
                (map_to_list (interfaces_ l)) Hmax) as Hinv.
  cbv zeta in Hinv.
  set (r := foldl _ 0 (map_to_list (interfaces_ l))) in *.
  destruct Hinv as [[Hr Hall] | (Hr & [n i] & Hin & Hact & Hpos & Heq)].
  - split; [| intros Hne; contradiction].
    split; [| intros _; exact Hr].
    intros _ ifName interface Hi.
    apply (Hall (ifName, interface)). now apply elem_of_map_to_list.
  - cbn [snd] in *. split.
    + split; [lia |]. intros Hall. exfalso.
      apply elem_of_map_to_list in Hin.
      destruct (Hall n i Hin) as [Ha | Hb]; [congruence | lia].
    + intros _. split; [lia |]. exists n, i.
      split; [now apply elem_of_map_to_list | auto].
Qed.

Lemma started_max_backoff : 0 < linkflapMaxBackoff_ Examples.lm_started.
Proof. reflexivity. Qed.

Lemma flapping_max_backoff : 0 < linkflapMaxBackoff_ Examples.lm_flapping.
Proof. reflexivity. Qed.

Lemma flapping_retry :
  getRetryTimeOnUnstableInterfaces Examples.lm_flapping = 3000.
Proof. vm_compute. reflexivity. Qed.

Lemma getRetryTimeOnUnstableInterfaces_spec_witness :
  getRetryTimeOnUnstableInterfaces Examples.lm_flapping = 3000
  /\ 0 < getRetryTimeOnUnstableInterfaces Examples.lm_flapping
        <= linkflapMaxBackoff_ Examples.lm_flapping
  /\ exists ifName interface,
       interfaces_ Examples.lm_flapping !! ifName = Some interface
       /\ isActive interface = false
       /\ 0 < getBackoffDuration interface
       /\ getRetryTimeOnUnstableInterfaces Examples.lm_flapping
          = Z.min (linkflapMaxBackoff_ Examples.lm_flapping)
              (getBackoffDuration interface).
Proof.
  split; [exact flapping_retry |].
  apply (proj2 (getRetryTimeOnUnstableInterfaces_spec Examples.lm_flapping
                  flapping_max_backoff)).
  rewrite flapping_retry. discriminate.
Defined.

End InterfaceAdvertisement.

(** ** Neighbor events and peer sessions *)

Section NeighborSessions.
Import LinkMonitor Spec.

Lemma advertiseKvStorePeers_wp (areaId : string)
    (upPeers : gmap string PeerSpec) (l : LinkMonitor) :
  (forall name, is_Some (upPeers !! name) ->
     exists i v, adjacencies_ l !! (name, i) = Some v /\ eligible areaId v) ->
  wp (advertiseKvStorePeers areaId upPeers) l
    (peersAdvertised areaId upPeers l).
Proof.
  intros Hup.
  destruct (advertiseKvStorePeers_post areaId upPeers l Hup)
    as (newPeers & m & toDel & toAdd & logs & Hnp & Hrun & Hm & Hdel & _
        & Hadd & Hagain & Hlogs & _).
  eexists tt, _, _. split; [exact Hrun |].
  exists newPeers, m, toDel, toAdd, logs. auto 10.
Qed.

Lemma quiet_peers (areaId : string) (toDelPeers : list string)
    (toAddPeers : gmap string PeerSpec) (logs : list Effect) :
  Forall isLogSample logs ->
  quiet (logs ++ peerUpdate areaId toDelPeers toAddPeers).
Proof.
  intros Hlogs. apply Forall_app. split.
  - eapply Forall_impl; [exact Hlogs |]. now intros e [sample ->].
  - unfold peerUpdate.
    destruct toDelPeers; case_decide; repeat constructor.
Qed.

Lemma no_empty_up_peers (areaId : string) (l : LinkMonitor) (name : string) :
  is_Some ((∅ : gmap string PeerSpec) !! name) ->
  exists i v, adjacencies_ l !! (name, i) = Some v /\ eligible areaId v.
Proof. intros [x Hx]. rewrite lookup_empty in Hx. discriminate. Qed.

Lemma neighborDown_run (event : SparkNeighborEvent) (l l2 l3 : LinkMonitor)
    (out2 out3 : list Effect) :
  eventType event = NEIGHBOR_DOWN ->
  advertiseKvStorePeers (nbr_area (info event)) ∅
    (set_adjacencies_ (delete (adjIdOf event)) l) = Some (tt, l2, out2) ->
  advertiseAdjacencies_area (nbr_area (info event)) l2 = Some (tt, l3, out3) ->
  exists log,
    processNeighborEvent event l
    = Some (tt, l3, PushLogSample log :: out2 ++ out3).
Proof.
  intros Htype Hrun2 Hrun3. unfold processNeighborEvent.
  unfold mbind at 1. unfold M_bind at 1. cbn [get]. rewrite Htype.
  unfold neighborDownEvent, logNeighborEvent. cbv zeta.
  unfold mbind, M_bind. cbn [emit modify]. unfold adjIdOf in Hrun2.
  rewrite Hrun2, Hrun3. eexists. reflexivity.
Qed.

Lemma neighborRestarting_run (event : SparkNeighborEvent)
    (l l2 : LinkMonitor) (out2 : list Effect) :
  eventType event = NEIGHBOR_RESTARTING ->
  advertiseKvStorePeers (nbr_area (info event)) ∅
    (set_adjacencies_ (alter (set_isRestarting true) (adjIdOf event)) l)
  = Some (tt, l2, out2) ->
  exists log,
    processNeighborEvent event l = Some (tt, l2, PushLogSample log :: out2).
Proof.
  intros Htype Hrun2. unfold processNeighborEvent.
  unfold mbind at 1. unfold M_bind at 1. cbn [get]. rewrite Htype.
  unfold neighborRestartingEvent, logNeighborEvent. cbv zeta.
  unfold mbind, M_bind. cbn [emit modify]. unfold adjIdOf in Hrun2.
  rewrite Hrun2. eexists. reflexivity.
Qed.

(** X20. When a neighbor goes down its adjacency is forgotten, whether it was
    known or not, and the drain state is untouched.  Once the hold timer is
    over the adjacency database of the neighbor's area, built without the
    adjacency, is written to the KvStore in the same turn, not through the
    throttle; while the hold timer is scheduled nothing is advertised. *)
Theorem neighbor_down_advertised (event : SparkNeighborEvent)
    (l : LinkMonitor) :
  eventType event = NEIGHBOR_DOWN ->
  let areaId := nbr_area (info event) in
  exists l' out,
    processNeighborEvent event l = Some (tt, l', out)
    /\ adjacencies_ l' = delete (adjIdOf event) (adjacencies_ l)
    /\ state_ l' = state_ l
    /\ (adjHoldTimer_ l = false ->
        advertiseAdjacenciesThrottled_ l' = false
        /\ exists pre, out = pre ++ advertisement l' areaId /\ quiet pre)
    /\ (adjHoldTimer_ l = true -> quiet out).
Proof.
  intros Htype areaId.
  set (l1 := set_adjacencies_ (delete (adjIdOf event)) l).
  destruct (advertiseKvStorePeers_wp areaId ∅ l1 (no_empty_up_peers areaId l1))
    as ([] & l2 & out2 & Hrun2 & newPeers & m & toDel & toAdd & logs & _
        & Hl2 & Hout2 & _ & _ & _ & _ & Hlogs).
  assert (Hq2 : quiet out2) by (rewrite Hout2; now apply quiet_peers).
  destruct (adjHoldTimer_ l) eqn:Hhold.
  - destruct (neighborDown_run event l l2 l2 out2 [] Htype Hrun2)
      as (log & Hrun).
    { apply advertiseAdjacencies_area_hold. now rewrite Hl2. }
    exists l2. eexists. split; [exact Hrun |].
    rewrite Hl2. split; [reflexivity |]. split; [reflexivity |].
    split; [discriminate |]. intros _. rewrite app_nil_r.
    constructor; [reflexivity | exact Hq2].
  - destruct (neighborDown_run event l l2 (cancelThrottle l2) out2
                (advertisement l2 areaId) Htype Hrun2) as (log & Hrun).
    { apply advertiseAdjacencies_area_run. now rewrite Hl2. }
    exists (cancelThrottle l2). eexists. split; [exact Hrun |].
    split; [| split; [| split; [| discriminate]]].
    + rewrite Hl2. unfold cancelThrottle. cbn.
      now destruct (advertiseAdjacenciesThrottled_ l).
    + rewrite cancelThrottle_state. now rewrite Hl2.
    + intros _. split; [apply cancelThrottle_idle |].
      exists (PushLogSample log :: out2). split.
      * now rewrite advertisement_cancelThrottle.
      * constructor; [reflexivity | exact Hq2].
Qed.

Lemma peers_after (areaId : string) (upPeers : gmap string PeerSpec)
    (l l' : LinkMonitor) (out : list Effect) (n : string) :
  peersAdvertised areaId upPeers l tt l' out ->
  (is_Some (default ∅ (peers_ l' !! areaId) !! n)
   <-> exists i v, adjacencies_ l !! (n, i) = Some v /\ eligible areaId v)
  /\ adjacencies_ l' = adjacencies_ l
  /\ state_ l' = state_ l
  /\ advertiseAdjacenciesThrottled_ l' = advertiseAdjacenciesThrottled_ l
  /\ quiet out.
Proof.
  intros (newPeers & m & toDel & toAdd & logs & Hnp & -> & -> & Hm & _ & _
          & _ & Hlogs).
  split; [| split; [reflexivity | split; [reflexivity | split;
    [reflexivity | now apply quiet_peers]]]].
  cbn. rewrite lookup_insert_eq. cbn. rewrite Hm, fmap_is_Some.
  now apply getPeersFromAdjacencies_dom.
Qed.

(** X21. The session to a neighbor follows its links.  After a link to it went
    down, the neighbor is still a peer of the area exactly when another
    link to it is usable there; when the lost link was the last one of a
    recorded peer, the request pushed in the same turn deletes the peer. *)
Theorem last_link_down_ends_session (event : SparkNeighborEvent)
    (l : LinkMonitor) :
  eventType event = NEIGHBOR_DOWN ->
  let node := nodeName (info event) in
  let areaId := nbr_area (info event) in
  exists l' out,
    processNeighborEvent event l = Some (tt, l', out)
    /\ (is_Some (default ∅ (peers_ l' !! areaId) !! node)
        <-> exists i v,
              i <> localIfName (info event)
              /\ adjacencies_ l !! (node, i) = Some v /\ eligible areaId v)
    /\ (is_Some (default ∅ (peers_ l !! areaId) !! node) ->
        (forall i v,
           adjacencies_ l !! (node, i) = Some v -> eligible areaId v ->
           i = localIfName (info event)) ->
        exists req dels,
          PushPeerUpdate req ∈ out /\ req_area req = areaId
          /\ peerDelParams req = Some dels /\ node ∈ dels).
Proof.
  intros Htype node areaId.
  set (l1 := set_adjacencies_ (delete (adjIdOf event)) l).
  destruct (advertiseKvStorePeers_wp areaId ∅ l1 (no_empty_up_peers areaId l1))
    as ([] & l2 & out2 & Hrun2 & Hpost).
  destruct (peers_after areaId ∅ l1 l2 out2 node Hpost) as (Hpeer & _).
  destruct Hpost as (newPeers & m & toDel & toAdd & logs & Hnp & Hl2 & Hout2
                     & Hm & Hdel & _).
  assert (Hrun : exists l3 out3 log,
            peers_ l3 = peers_ l2
            /\ processNeighborEvent event l
               = Some (tt, l3, PushLogSample log :: out2 ++ out3)).
  { assert (Hadv : exists l3 out3,
              advertiseAdjacencies_area areaId l2 = Some (tt, l3, out3)
              /\ peers_ l3 = peers_ l2).
    { destruct (adjHoldTimer_ l2) eqn:Hhold.
      - exists l2, []. split; [now apply advertiseAdjacencies_area_hold |].
        reflexivity.
      - eexists _, _. split; [now apply advertiseAdjacencies_area_run |].
        unfold cancelThrottle.
        now destruct (advertiseAdjacenciesThrottled_ l2). }
    destruct Hadv as (l3 & out3 & Hrun3 & Hp3).
    destruct (neighborDown_run event l l2 l3 out2 out3 Htype Hrun2 Hrun3)
      as (log & Hrun).
    exists l3, out3, log. now split. }
  destruct Hrun as (l3 & out3 & log & Hp3 & Hrun). exists l3. eexists.
  split; [exact Hrun |]. rewrite Hp3.
  assert (Hleft : (exists i v, adjacencies_ l1 !! (node, i) = Some v
                               /\ eligible areaId v)
                  <-> exists i v, i <> localIfName (info event)
                        /\ adjacencies_ l !! (node, i) = Some v
                        /\ eligible areaId v).
  { unfold l1. cbn. split.
    - intros (i & v & Hv & He). apply lookup_delete_Some in Hv as [Hne Hv].
      exists i, v. split; [| now split]. intros ->. now apply Hne.
    - intros (i & v & Hne & Hv & He). exists i, v. split; [| exact He].
      apply lookup_delete_Some. split; [| exact Hv].
      unfold adjIdOf. intros [= Heq]. now apply Hne. }
  split; [now rewrite Hpeer |].
  intros Hold Hlast.
  assert (Hgone : newPeers !! node = None).
  { destruct (newPeers !! node) as [spec |] eqn:Hn; [| reflexivity]. exfalso.
    assert (Hs : is_Some (newPeers !! node)) by eauto.
    apply (getPeersFromAdjacencies_dom _ _ _ _ Hnp), Hleft in Hs.
    destruct Hs as (i & v & Hne & Hv & He). now apply Hne, (Hlast i v). }
  assert (Hn : node ∈ toDel).
  { apply Hdel. split; [| exact Hgone]. exact Hold. }
  destruct (peerUpdate_del areaId toDel toAdd node Hn) as (req & Hin & Ha & Hd).
  exists req, toDel. split; [| auto].
  apply elem_of_cons. right. apply elem_of_app. left. rewrite Hout2.
  apply elem_of_app. now right.
Qed.

Lemma neighborUp_wp_full (event : SparkNeighborEvent) (l : LinkMonitor) :
  let node := nodeName (info event) in
  let areaId := nbr_area (info event) in
  (forall i v,
     adjacencies_ l !! (node, i) = Some v -> eligible areaId v ->
     String.leb (localIfName (info event)) i = true) ->
  wp (logNeighborEvent event;; neighborUpEvent event) l (fun _ l' out =>
    exists V,
      adjacencies_ l' = <[adjIdOf event := V]> (adjacencies_ l)
      /\ area V = areaId
      /\ isRestarting V = false
      /\ metric (adjacency V)
         = (if useRttMetric_ l then getRttMetric (rttUs (info event)) else 1)
      /\ state_ l' = state_ l
      /\ advertiseAdjacenciesThrottled_ l' = true
      /\ quiet out
      /\ (exists req adds,
            PushPeerUpdate req ∈ out /\ req_area req = areaId
            /\ peerAddParams req = Some adds
            /\ adds !! node = Some (peerSpec V))
      /\ tPeerSpec <$> default ∅ (peers_ l' !! areaId) !! node
         = Some (peerSpec V)).
Proof.
  intros node areaId Hmin.
  apply wp_bind. unfold logNeighborEvent. apply wp_emit.
  unfold neighborUpEvent. apply wp_bind, wp_get. cbn beta zeta.
  apply wp_bind, wp_CHECK.
  { destruct (mockMode_ l); reflexivity. }
  apply wp_bind, wp_CHECK.
  { apply negb_true_iff.
    destruct (mockMode_ l); cbn [negb]; [reflexivity |].
    apply append_nonempty. discriminate. }
  apply wp_bind, wp_modify.
  match goal with
  | |- context [set_adjacencies_ <[?k := ?V]> l] =>
      set (V0 := V); set (l1 := set_adjacencies_ <[k := V0]> l)
  end.
  assert (Hl1 : adjacencies_ l1 !! (node, localIfName (info event)) = Some V0).
  { unfold l1; cbn. apply lookup_insert_eq. }
  apply wp_bind. eapply wp_mono.
  { apply advertiseKvStorePeers_wp.
    intros name [spec Hname].
    apply lookup_singleton_Some in Hname as [<- _].
    exists (localIfName (info event)), V0.
    split; [exact Hl1 | split; reflexivity]. }
  intros [] l2 out2 Hpost. cbn beta.
  unfold advertiseAdjacenciesThrottled. apply wp_modify.
  destruct (peers_after _ _ l1 l2 out2 node Hpost)
    as (_ & Hadj & Hst & _ & Hq).
  destruct Hpost as (newPeers & m & toDel & toAdd & logs & Hnp & Hl2 & Hout2
                     & Hm & _ & _ & Hagain & _).
  assert (Hnew : newPeers !! node = Some (peerSpec V0)).
  { destruct (getPeersFromAdjacencies_lookup (adjacencies_ l1)
                (nbr_area (info event))) as (peers & Hp & Hspec).
    assert (peers = newPeers) as -> by congruence.
    apply Hspec. exists (localIfName (info event)), V0.
    split; [exact Hl1 |]. split; [split; reflexivity |].
    split; [reflexivity |].
    intros i' v' Hv' He'. unfold l1 in Hv'. cbn in Hv'.
    apply lookup_insert_Some in Hv' as [[[= <-] _] | [Hne Hv']].
    - apply string_leb_refl.
    - now apply (Hmin i' v'). }
  exists V0. split; [exact Hadj |]. split; [reflexivity |].
  split; [reflexivity |]. split; [reflexivity |]. split; [exact Hst |].
  split; [reflexivity |]. split; [| split].
  - cbn [app]. rewrite !app_nil_r. constructor; [reflexivity | exact Hq].
  - assert (Ht : toAdd !! node = Some (peerSpec V0)).
    { apply Hagain; [| exact Hnew]. apply lookup_singleton_Some. now split. }
    destruct (peerUpdate_add (nbr_area (info event)) toDel toAdd node _ Ht)
      as (req & Hin & Ha & Hd).
    exists req, toAdd. split; [| auto]. cbn [app]. rewrite !app_nil_r.
    apply elem_of_cons. right. rewrite Hout2. apply elem_of_app. now right.
  - rewrite Hl2. cbn. rewrite lookup_insert_eq. cbn.
    now rewrite Hm, Hnew.
Qed.

(** X22. When a neighbor comes up, or is back from a restart, on the link with
    the smallest interface name among its usable links in the area, its
    adjacency is recorded as not restarting, with the metric of the measured
    round-trip time or 1; the session of that link is announced to the
    KvStore in the same turn and recorded for the neighbor; the adjacency
    itself is left to the throttle, and nothing is written to the KvStore
    in this turn. *)
Theorem neighbor_up_adds_peer (event : SparkNeighborEvent) (l : LinkMonitor) :
  eventType event = NEIGHBOR_UP \/ eventType event = NEIGHBOR_RESTARTED ->
  let node := nodeName (info event) in
  let areaId := nbr_area (info event) in
  (forall i v,
     adjacencies_ l !! (node, i) = Some v -> eligible areaId v ->
     String.leb (localIfName (info event)) i = true) ->
  exists l' out V,
    processNeighborEvent event l = Some (tt, l', out)
    /\ adjacencies_ l' = <[adjIdOf event := V]> (adjacencies_ l)
    /\ area V = areaId
    /\ isRestarting V = false
    /\ metric (adjacency V)
       = (if useRttMetric_ l then getRttMetric (rttUs (info event)) else 1)
    /\ state_ l' = state_ l
    /\ advertiseAdjacenciesThrottled_ l' = true
    /\ quiet out
    /\ (exists req adds,
          PushPeerUpdate req ∈ out /\ req_area req = areaId
          /\ peerAddParams req = Some adds
          /\ adds !! node = Some (peerSpec V))
    /\ tPeerSpec <$> default ∅ (peers_ l' !! areaId) !! node
       = Some (peerSpec V).
Proof.
  intros Htype node areaId Hmin.
  destruct (neighborUp_wp_full event l Hmin)
    as ([] & l' & out & Hrun & V & Hrest).
  exists l', out, V. split; [| exact Hrest].
  unfold processNeighborEvent. unfold mbind at 1. unfold M_bind at 1.
  cbn [get]. destruct Htype as [-> | ->]; rewrite Hrun;
    now rewrite app_nil_l.
Qed.

(** X23. A neighbor that announces its restart keeps its adjacency, marked as
    restarting: the adjacency databases list the same adjacencies as before
    and nothing is written to the KvStore, in or out of the hold time.  Its
    link no longer counts for the session: the neighbor stays a peer of the
    area exactly when another link to it is usable there. *)
Theorem neighbor_restarting_keeps_adjacency (event : SparkNeighborEvent)
    (l : LinkMonitor) :
  eventType event = NEIGHBOR_RESTARTING ->
  let node := nodeName (info event) in
  let areaId := nbr_area (info event) in
  exists l' out,
    processNeighborEvent event l = Some (tt, l', out)
    /\ adjacencies_ l'
       = alter (set_isRestarting true) (adjIdOf event) (adjacencies_ l)
    /\ state_ l' = state_ l
    /\ advertiseAdjacenciesThrottled_ l' = advertiseAdjacenciesThrottled_ l
    /\ quiet out
    /\ (forall a adj,
          In adj (adjacencies (buildAdjacencyDatabase a l'))
          <-> In adj (adjacencies (buildAdjacencyDatabase a l)))
    /\ (is_Some (default ∅ (peers_ l' !! areaId) !! node)
        <-> exists i v,
              i <> localIfName (info event)
              /\ adjacencies_ l !! (node, i) = Some v /\ eligible areaId v).
Proof.
  intros Htype node areaId.
  set (l1 := set_adjacencies_
               (alter (set_isRestarting true) (adjIdOf event)) l).
  destruct (advertiseKvStorePeers_wp areaId ∅ l1 (no_empty_up_peers areaId l1))
    as ([] & l2 & out2 & Hrun2 & Hpost).
  destruct (peers_after areaId ∅ l1 l2 out2 node Hpost)
    as (Hpeer & Hadj & Hst & Hthr & Hq).
  destruct (neighborRestarting_run event l l2 out2 Htype Hrun2)
    as (log & Hrun).
  exists l2. eexists. split; [exact Hrun |].
  split; [exact Hadj |]. split; [exact Hst |]. split; [exact Hthr |].
  split; [constructor; [reflexivity | exact Hq] |].
  split.
  - intros a adj. unfold buildAdjacencyDatabase. cbn [adjacencies].
    rewrite Hst, Hadj. unfold l1. cbn [adjacencies_ set_adjacencies_ state_].
    rewrite <- !list_elem_of_In, !list_elem_of_omap. split.
    + intros ([k v] & Hin%elem_of_map_to_list & Hb). cbn [snd] in Hb.
      apply lookup_alter_Some in Hin as [[<- (x & Hx & ->)] | [Hne Hin]].
      * exists (adjIdOf event, x).
        split; [now apply elem_of_map_to_list | exact Hb].
      * exists (k, v). split; [now apply elem_of_map_to_list | exact Hb].
    + intros ([k v] & Hin%elem_of_map_to_list & Hb). cbn [snd] in Hb.
      destruct (decide (adjIdOf event = k)) as [<- | Hne].
      * exists (adjIdOf event, set_isRestarting true v). split; [| exact Hb].
        apply elem_of_map_to_list, lookup_alter_Some. left. eauto.
      * exists (k, v). split; [| exact Hb].
        apply elem_of_map_to_list, lookup_alter_Some. right. now split.
  - rewrite Hpeer. unfold l1. cbn. split.
    + intros (i & v & Hv & He).
      apply lookup_alter_Some in Hv as [[Heq (x & Hx & ->)] | [Hne Hv]].
      * destruct He as [_ He]. discriminate He.
      * exists i, v. split; [| now split]. intros ->. now apply Hne.
    + intros (i & v & Hne & Hv & He). exists i, v. split; [| exact He].
      apply lookup_alter_Some. right. split; [| exact Hv].
      unfold adjIdOf. intros [= Heq]. now apply Hne.
Qed.

(** X24. A change of the round-trip time is ignored when the node does not use
    it as metric: nothing is logged, changed or advertised.  Otherwise an
    unknown adjacency is left alone, and a known one takes the new metric
    and the new round-trip time, narrowed to 32 bits, and is left to the
    throttle; nothing is written to the KvStore in this turn. *)
Theorem rtt_change_updates_metric (event : SparkNeighborEvent)
    (l : LinkMonitor) :
  eventType event = NEIGHBOR_RTT_CHANGE ->
  (useRttMetric_ l = false -> processNeighborEvent event l = Some (tt, l, []))
  /\ (useRttMetric_ l = true ->
      adjacencies_ l !! adjIdOf event = None ->
      exists log,
        processNeighborEvent event l = Some (tt, l, [PushLogSample log]))
  /\ (useRttMetric_ l = true ->
      forall v, adjacencies_ l !! adjIdOf event = Some v ->
      exists log,
        processNeighborEvent event l
        = Some (tt,
                set_advertiseAdjacenciesThrottled_ true
                  (set_adjacencies_
                     (fun _ =>
                        <[adjIdOf event :=
                            set_adjacency
                              (fun adj =>
                                 set_rtt (Int32.wrap (rttUs (info event)))
                                   (set_metric
                                      (getRttMetric (rttUs (info event)))
                                      adj)) v]> (adjacencies_ l)) l),
                [PushLogSample log])).
Proof.
  intros Htype.
  assert (Hstart : processNeighborEvent event l
                   = (if negb (useRttMetric_ l) then mret tt
                      else logNeighborEvent event;;
                           neighborRttChangeEvent event) l).
  { unfold processNeighborEvent. unfold mbind at 1. unfold M_bind at 1.
    cbn [get]. rewrite Htype.
    match goal with
    | |- match ?c with _ => _ end = _ => destruct c as [[[[] ?] ?] |]
    end; reflexivity. }
  rewrite Hstart. split; [| split].
  - intros ->. reflexivity.
  - intros -> Hnone. cbn [negb].
    unfold neighborRttChangeEvent, logNeighborEvent.
    unfold mbind, M_bind. cbn [emit get]. cbv zeta.
    unfold adjIdOf in Hnone. rewrite Hnone. eexists. reflexivity.
  - intros -> v Hv. cbn [negb].
    unfold neighborRttChangeEvent, logNeighborEvent,
      advertiseAdjacenciesThrottled.
    unfold mbind, M_bind. cbn [emit get modify]. cbv zeta.
    pose proof Hv as Hv'. unfold adjIdOf in Hv'. rewrite Hv'.
    eexists. cbn [app]. do 3 f_equal.
    assert (Hmap : alter (set_adjacency
                      (fun adj => set_rtt (Int32.wrap (rttUs (info event)))
                         (set_metric (getRttMetric (rttUs (info event)))
                            adj)))
                     (adjIdOf event) (adjacencies_ l)
                   = <[adjIdOf event :=
                         set_adjacency
                           (fun adj =>
                              set_rtt (Int32.wrap (rttUs (info event)))
                                (set_metric
                                   (getRttMetric (rttUs (info event))) adj))
                           v]> (adjacencies_ l)).
    { apply map_eq. intros k.
      destruct (decide (adjIdOf event = k)) as [<- | Hne].
      - now rewrite lookup_alter_eq, lookup_insert_eq, Hv.
      - now rewrite lookup_alter_ne, lookup_insert_ne. }
    unfold adjIdOf in Hmap. unfold set_adjacencies_, adjIdOf. cbn.
    now rewrite Hmap.
Qed.

Lemma started_no_adjacency (i : string) (v : AdjacencyValue) :
  adjacencies_ Examples.lm_started !! ("node2"%string, i) = Some v ->
  eligible "0" v ->
  String.leb "eth0" i = true.
Proof.
  intros Hv _. change (adjacencies_ Examples.lm_started) with
    (∅ : gmap AdjacencyKey AdjacencyValue) in Hv.
  rewrite lookup_empty in Hv. discriminate.
Qed.

Lemma adjacent_hold_over : adjHoldTimer_ Examples.lm_adjacent = false.
Proof. reflexivity. Qed.

Lemma adjacent_eth2 :
  adjacencies_ Examples.lm_adjacent !! ("node2", "eth2")%string
  = Some (mkAdjacencyValue "0" (Examples.spec_eth "eth2")
            (Examples.adj_eth "node2" "eth2") false).
Proof. vm_compute. reflexivity. Qed.

Lemma neighbor_down_advertised_witness :
  exists l' out pre,
    processNeighborEvent Examples.downEth2 Examples.lm_adjacent
    = Some (tt, l', out)
    /\ is_Some (adjacencies_ Examples.lm_adjacent !! ("node2", "eth2")%string)
    /\ adjacencies_ l' !! ("node2", "eth2")%string = None
    /\ out = pre ++ advertisement l' "0".
Proof.
  destruct (neighbor_down_advertised Examples.downEth2 Examples.lm_adjacent
              eq_refl) as (l' & out & Hrun & Hadj & _ & Hpub & _).
  destruct (Hpub adjacent_hold_over) as (_ & pre & Hout & _).
  exists l', out, pre. split; [exact Hrun |].
  split; [rewrite adjacent_eth2; eauto |]. split; [| exact Hout].
  rewrite Hadj.
  change (adjIdOf Examples.downEth2) with ("node2"%string, "eth2"%string).
  apply lookup_delete_eq.
Defined.

Lemma linked_peer_recorded :
  is_Some (default ∅ (peers_ Examples.lm_linked !! "0"%string)
             !! "node2"%string).
Proof. vm_compute. eauto. Qed.

Lemma linked_last_link (i : string) (v : AdjacencyValue) :
  adjacencies_ Examples.lm_linked !! ("node2"%string, i) = Some v ->
  eligible "0" v ->
  i = "eth0"%string.
Proof.
  intros Hv _. apply elem_of_map_to_list in Hv.
  assert (Hk : (map_to_list (adjacencies_ Examples.lm_linked)).*1
               = [("node2", "eth0")%string]) by (vm_compute; reflexivity).
  assert (Hin : ("node2"%string, i)
                ∈ (map_to_list (adjacencies_ Examples.lm_linked)).*1).
  { apply list_elem_of_fmap. exists ("node2"%string, i, v).
    split; [reflexivity | exact Hv]. }
  rewrite Hk in Hin. apply list_elem_of_singleton in Hin.
  now injection Hin.
Qed.

Lemma last_link_down_ends_session_witness :
  exists l' out req dels,
    processNeighborEvent Examples.downEth0 Examples.lm_linked
    = Some (tt, l', out)
    /\ is_Some (default ∅ (peers_ Examples.lm_linked !! "0"%string)
                  !! "node2"%string)
    /\ PushPeerUpdate req ∈ out
    /\ peerDelParams req = Some dels
    /\ "node2"%string ∈ dels
    /\ default ∅ (peers_ l' !! "0"%string) !! "node2"%string = None.
Proof.
  destruct (last_link_down_ends_session Examples.downEth0 Examples.lm_linked
              eq_refl) as (l' & out & Hrun & Hiff & Hdel).
  destruct (Hdel linked_peer_recorded linked_last_link)
    as (req & dels & Hin & _ & Hd & Hn).
  exists l', out, req, dels. split; [exact Hrun |].
  split; [exact linked_peer_recorded |]. split; [exact Hin |].
  split; [exact Hd |]. split; [exact Hn |].
  destruct (default ∅ (peers_ l' !! "0"%string) !! "node2"%string)
    as [peer |] eqn:Hpeer; [| reflexivity].
  exfalso.
  assert (Hs : is_Some (default ∅ (peers_ l' !! "0"%string)
                          !! "node2"%string)) by (rewrite Hpeer; eauto).
  destruct (proj1 Hiff Hs) as (i & v & Hne & Hv & He).
  apply Hne. exact (linked_last_link i v Hv He).
Defined.

Lemma neighbor_up_adds_peer_witness :
  exists l' out V,
    processNeighborEvent Examples.upFast Examples.lm_started
    = Some (tt, l', out)
    /\ adjacencies_ l'
       = <[adjIdOf Examples.upFast := V]> (adjacencies_ Examples.lm_started)
    /\ advertiseAdjacenciesThrottled_ l' = true.
Proof.
  destruct (neighbor_up_adds_peer Examples.upFast Examples.lm_started
              (or_introl eq_refl) started_no_adjacency)
    as (l' & out & V & Hrun & Hadj & _ & _ & _ & _ & Hthr & _).
  exists l', out, V. auto.
Defined.

Lemma neighbor_restarting_keeps_adjacency_witness :
  exists l' out v,
    processNeighborEvent Examples.restartingEth2 Examples.lm_adjacent
    = Some (tt, l', out)
    /\ adjacencies_ l' !! ("node2", "eth2")%string = Some v
    /\ isRestarting v = true
    /\ adjacency v = Examples.adj_eth "node2" "eth2"
    /\ quiet out.
Proof.
  destruct (neighbor_restarting_keeps_adjacency Examples.restartingEth2
              Examples.lm_adjacent eq_refl)
    as (l' & out & Hrun & Hadj & _ & _ & Hq & _).
  eexists l', out, _. split; [exact Hrun |]. split.
  { rewrite Hadj.
    change (adjIdOf Examples.restartingEth2)
      with ("node2"%string, "eth2"%string).
    rewrite lookup_alter_eq, adjacent_eth2. reflexivity. }
  split; [reflexivity |]. split; [reflexivity | exact Hq].
Defined.

Lemma rtt_change_updates_metric_witness :
  exists log l' v,
    processNeighborEvent Examples.rttEth2 Examples.lm_adjacent
    = Some (tt, l', [PushLogSample log])
    /\ adjacencies_ l' !! ("node2", "eth2")%string = Some v
    /\ metric (adjacency v) = 25
    /\ rtt (adjacency v) = 2500
    /\ metric (Examples.adj_eth "node2" "eth2") = 1
    /\ advertiseAdjacenciesThrottled_ l' = true.
Proof.
  destruct (proj2 (proj2 (rtt_change_updates_metric Examples.rttEth2
                            Examples.lm_adjacent eq_refl))
              eq_refl _ adjacent_eth2) as (log & Hrun).
  eexists log, _, _. split; [exact Hrun |]. split.
  { unfold set_advertiseAdjacenciesThrottled_, set_adjacencies_.
    cbn [adjacencies_].
    change (adjIdOf Examples.rttEth2) with ("node2"%string, "eth2"%string).
    apply lookup_insert_eq. }
  repeat split.
Defined.

End NeighborSessions.

(** ** The event loop *)

Section EventLoopMore.
Import Util LinkMonitor Spec.

Lemma keeps_ret {A : Type} (a : A) : keepsInterfaces (mret a).
Proof. intros l a' l' out [= _ <- _]. reflexivity. Qed.

Lemma keeps_bind {A B : Type} (c : M A) (k : A -> M B) :
  keepsInterfaces c -> (forall a, keepsInterfaces (k a)) ->
  keepsInterfaces (c ≫= k).
Proof.
  intros Hc Hk l b l2 out. unfold mbind, M_bind.
  destruct (c l) as [[[a l1] out1] |] eqn:Hcl; [| discriminate].
  destruct (k a l1) as [[[b' l2'] out2] |] eqn:Hkl; [| discriminate].
  intros [= _ <- _]. rewrite (Hk a _ _ _ _ Hkl). exact (Hc _ _ _ _ Hcl).
Qed.

Lemma keeps_get : keepsInterfaces get.
Proof. intros l a l' out [= _ <- _]. reflexivity. Qed.

Lemma keeps_emit (e : Effect) : keepsInterfaces (emit e).
Proof. intros l a l' out [= _ <- _]. reflexivity. Qed.

Lemma keeps_modify (f : LinkMonitor -> LinkMonitor) :
  (forall l, interfaces_ (f l) = interfaces_ l) -> keepsInterfaces (modify f).
Proof. intros Hf l a l' out [= _ <- _]. apply Hf. Qed.

Lemma keeps_CHECK (b : bool) : keepsInterfaces (CHECK b).
Proof.
  intros l a l' out. unfold CHECK. destruct b; [| discriminate].
  intros [= _ <- _]. reflexivity.
Qed.

Lemma keeps_orThrow {A : Type} (o : option A) : keepsInterfaces (orThrow o).
Proof.
  intros l a l' out. unfold orThrow. destruct o; [| discriminate].
  intros [= _ <- _]. reflexivity.
Qed.

Lemma keeps_forM_ {A : Type} (f : A -> M unit) (xs : list A) :
  Forall (fun x => keepsInterfaces (f x)) xs -> keepsInterfaces (forM_ f xs).
Proof.
  induction 1 as [| x xs Hx _ IH]; cbn [forM_]; [apply keeps_ret |].
  apply keeps_bind; [exact Hx | intros _; exact IH].
Qed.

Lemma keeps_foldM {A B : Type} (f : B -> A -> M B) (xs : list A) (b : B) :
  (forall b x, keepsInterfaces (f b x)) -> keepsInterfaces (foldM f b xs).
Proof.
  intros Hf. revert b. induction xs as [| x xs IH]; intros b; cbn [foldM].
  - apply keeps_ret.
  - apply keeps_bind; [apply Hf | intros b'; apply IH].
Qed.

Local Ltac keeps :=
  repeat first
    [ apply keeps_ret | apply keeps_get | apply keeps_emit
    | apply keeps_CHECK | apply keeps_orThrow
    | apply keeps_modify; intros; reflexivity
    | apply keeps_bind; [| intros; cbv beta]
    | apply keeps_foldM; intros; cbv beta
    | apply keeps_forM_; apply Forall_forall; intros; cbv beta
    | assumption
    | match goal with
      | |- keepsInterfaces (if ?b then _ else _) => destruct b
      | |- keepsInterfaces (match ?x with _ => _ end) => destruct x
      | |- keepsInterfaces (let _ := _ in _) => cbv zeta
      end ].

Lemma advertiseKvStorePeers_keeps (areaId : string)
    (upPeers : gmap string PeerSpec) :
  keepsInterfaces (advertiseKvStorePeers areaId upPeers).
Proof. unfold advertiseKvStorePeers, logPeerEvent, at_. keeps. Qed.

Lemma advertiseAdjacencies_keeps : keepsInterfaces advertiseAdjacencies.
Proof. unfold advertiseAdjacencies, advertiseAdjacencies_area. keeps. Qed.

Lemma advertiseIfaceAddr_keeps : keepsInterfaces advertiseIfaceAddr.
Proof.
  unfold advertiseIfaceAddr, advertiseInterfaces, advertiseRedistAddrs. keeps.
Qed.

Lemma processNeighborEvent_keeps (event : SparkNeighborEvent) :
  keepsInterfaces (processNeighborEvent event).
Proof.
  pose proof advertiseKvStorePeers_keeps as Hpeers.
  unfold processNeighborEvent, logNeighborEvent, neighborUpEvent,
    neighborDownEvent, neighborRestartingEvent, neighborRttChangeEvent,
    advertiseAdjacencies_area, advertiseAdjacenciesThrottled.
  keeps; apply Hpeers.
Qed.

Lemma step_keeps (t : Z) (i : Input) :
  isInterfacesChanged i = false -> keepsInterfaces (step t i).
Proof.
  pose proof advertiseAdjacencies_keeps as Hadj.
  pose proof advertiseIfaceAddr_keeps as Hif.
  pose proof processNeighborEvent_keeps as Hnbr.
  intros Hi. unfold step. destruct i; try discriminate Hi;
    unfold setNodeOverload, setInterfaceOverload, setLinkMetric,
      setAdjacencyMetric, advertiseAdjacenciesThrottled;
    keeps; first [apply Hadj | apply Hif | apply Hnbr].
Qed.

(** X25. Whatever neighbor events, drain commands and expiries of timers
    and throttles the event loop is given, in whatever order and from
    whatever state of the object, every turn ends normally: no [CHECK] fails
    and no [at] throws; the metric mode chosen at construction is never
    changed, and the tracked interfaces are not touched.  The turns that
    stand for the netlink handlers are left out. *)
Theorem run_never_aborts (inputs : list (Z * Input)) (l : LinkMonitor) :
  Forall (fun ti => isInterfacesChanged ti.2 = false) inputs ->
  exists l' out,
    run inputs l = Some (tt, l', out)
    /\ useRttMetric_ l' = useRttMetric_ l
    /\ interfaces_ l' = interfaces_ l.
Proof.
  intros Hturns.
  destruct (run_spec inputs l ∅) as ([] & l' & out & Hrun & _ & Hr & _).
  exists l', out. split; [exact Hrun |]. split; [exact Hr |].
  assert (Hkeeps : keepsInterfaces (run inputs)).
  { unfold run. apply keeps_forM_.
    eapply Forall_impl; [exact Hturns |].
    intros [t i] Hi. now apply step_keeps. }
  exact (Hkeeps _ _ _ _ Hrun).
Qed.

Lemma run_never_aborts_witness :
  Forall (fun ti => isInterfacesChanged ti.2 = false)
    Examples.turns_no_netlink
  /\ exists l' out,
       run Examples.turns_no_netlink Examples.lm_new = Some (tt, l', out)
       /\ useRttMetric_ l' = useRttMetric_ Examples.lm_new
       /\ interfaces_ l' = interfaces_ Examples.lm_new.
Proof.
  assert (Hturns : Forall (fun ti => isInterfacesChanged ti.2 = false)
                     Examples.turns_no_netlink)
    by (repeat constructor).
  split; [exact Hturns |].
  exact (run_never_aborts Examples.turns_no_netlink Examples.lm_new Hturns).
Defined.

Lemma expiry_idle (t : Z) (l : LinkMonitor) :
  adjHoldTimer_ l = false ->
  step t AdjHoldTimerExpired l = Some (tt, set_now_ t l, []).
Proof.
  intros Hh. unfold step. unfold mbind, M_bind, get, modify. cbn beta iota.
  change (adjHoldTimer_ (set_now_ t l)) with (adjHoldTimer_ l).
  rewrite Hh. reflexivity.
Qed.

Lemma advertiseRedistAddrs_same_state (l : LinkMonitor) :
  exists out,
    advertiseRedistAddrs l = Some (tt, l, out)
    /\ (adjHoldTimer_ l = true -> out = [])
    /\ (adjHoldTimer_ l = false ->
        forall areaId conf, areas_ l !! areaId = Some conf ->
          exists prefixes,
            In (PushPrefixUpdate
                  (mkPrefixUpdateRequest SYNC_PREFIXES_BY_TYPE LOOPBACK
                     prefixes {[ areaId ]})) out).
Proof.
  destruct (adjHoldTimer_ l) eqn:Hhold.
  - exists []. split; [now apply advertiseRedistAddrs_hold |].
    split; [reflexivity | discriminate].
  - unfold advertiseRedistAddrs.
    unfold mbind at 1. unfold M_bind at 1. cbn [get]. rewrite Hhold.
    cbv zeta.
    match goal with
    | |- context [forM_ (fun kv => emit (PushPrefixUpdate
                    (mkPrefixUpdateRequest _ _ (default [] (?m !! kv.1)) _)))]
      => set (areaPrefixes := m)
    end.
    rewrite (forM_emit
               (fun kv : string * AreaConfiguration =>
                  PushPrefixUpdate
                    (mkPrefixUpdateRequest SYNC_PREFIXES_BY_TYPE LOOPBACK
                       (default [] (areaPrefixes !! kv.1)) {[ kv.1 ]}))).
    eexists. split; [reflexivity |]. split; [discriminate |].
    intros _ areaId conf Hconf. exists (default [] (areaPrefixes !! areaId)).
    cbn [app]. apply in_map_iff. exists (areaId, conf).
    split; [reflexivity |]. now apply list_elem_of_In, elem_of_map_to_list.
Qed.

(** X26. When the hold timer expires the adjacency database of every configured
    area is written to the KvStore and a prefix synchronisation is pushed
    for every area, in that turn; the drain state and the adjacencies are
    as before.  The timer fires once: a later expiry does nothing. *)
Theorem hold_timer_expiry_advertises (t : Z) (l : LinkMonitor) :
  adjHoldTimer_ l = true ->
  exists l' out,
    step t AdjHoldTimerExpired l = Some (tt, l', out)
    /\ adjHoldTimer_ l' = false
    /\ state_ l' = state_ l
    /\ adjacencies_ l' = adjacencies_ l
    /\ (forall areaId conf,
          areas_ l !! areaId = Some conf ->
          In (PersistKey areaId (kAdjDbMarker (constants l) +:+ nodeId_ l)
                (buildAdjacencyDatabase areaId (set_now_ t l))
                (ttlKeyInKvStore_ l)) out
          /\ exists prefixes,
               In (PushPrefixUpdate
                     (mkPrefixUpdateRequest SYNC_PREFIXES_BY_TYPE LOOPBACK
                        prefixes {[ areaId ]})) out)
    /\ forall t', step t' AdjHoldTimerExpired l' = Some (tt, set_now_ t' l', []).
Proof.
  intros Hhold.
  set (l1 := set_adjHoldTimer_ false (set_now_ t l)).
  pose proof (advertiseAdjacencies_run l1 eq_refl) as Hadv.
  set (l2 := match map_to_list (areas_ l1) with
             | [] => l1
             | _ => cancelThrottle l1
             end) in *.
  assert (Hl2 : adjHoldTimer_ l2 = false /\ state_ l2 = state_ l
                /\ adjacencies_ l2 = adjacencies_ l /\ areas_ l2 = areas_ l).
  { unfold l2. destruct (map_to_list (areas_ l1)); [now repeat split |].
    unfold cancelThrottle. now destruct (advertiseAdjacenciesThrottled_ l1). }
  destruct Hl2 as (Hh2 & Hst2 & Hadj2 & Har2).
  destruct (advertiseRedistAddrs_same_state l2) as (out3 & Hred & _ & Hpfx).
  exists l2. eexists. split.
  { unfold step. unfold mbind, M_bind, get, modify. cbn beta iota.
    change (adjHoldTimer_ (set_now_ t l)) with (adjHoldTimer_ l).
    rewrite Hhold. fold l1.
    change (advertiseAdjacencies l1) with (advertiseAdjacencies l1).
    rewrite Hadv, Hred. reflexivity. }
  split; [exact Hh2 |]. split; [exact Hst2 |]. split; [exact Hadj2 |].
  split; [| intros t'; now apply expiry_idle].
  intros areaId conf Hconf. split.
  - cbn [app]. apply in_or_app. left. apply in_flat_map.
    exists (areaId, conf).
    split; [now apply list_elem_of_In, elem_of_map_to_list |].
    left. reflexivity.
  - rewrite <- Har2 in Hconf.
    destruct (Hpfx Hh2 areaId conf Hconf) as (prefixes & Hin).
    exists prefixes. cbn [app]. apply in_or_app. now right.
Qed.

Lemma new_hold_scheduled : adjHoldTimer_ Examples.lm_new = true.
Proof. reflexivity. Qed.

Lemma hold_timer_expiry_advertises_witness :
  exists l' out,
    step 5 AdjHoldTimerExpired Examples.lm_new = Some (tt, l', out)
    /\ adjHoldTimer_ l' = false.
Proof.
  destruct (hold_timer_expiry_advertises 5 Examples.lm_new new_hold_scheduled)
    as (l' & out & Hrun & Hh & _).
  exists l', out. now split.
Defined.

(** X27. [setNodeOverload] leaves the node's overload bit as asked, whatever it
    was: the bit is carried by every adjacency database built afterwards
    and is reported by [getInterfaces]; the rest of the drain state is
    untouched, the command answers once, as its last effect, and repeating
    it only answers. *)
Theorem node_overload_visible (overloaded : bool) (l : LinkMonitor) :
  exists l' out,
    setNodeOverload overloaded l = Some (tt, l', out ++ [SetValue])
    /\ state_ l' = set_isOverloaded overloaded (state_ l)
    /\ (forall areaId,
          db_isOverloaded (buildAdjacencyDatabase areaId l') = overloaded)
    /\ reply_isOverloaded (getInterfaces l') = overloaded
    /\ ~ In SetValue out
    /\ setNodeOverload overloaded l' = Some (tt, l', [SetValue]).
Proof.
  assert (Hgoal : exists l' out,
            setNodeOverload overloaded l = Some (tt, l', out ++ [SetValue])
            /\ state_ l' = set_isOverloaded overloaded (state_ l)
            /\ ~ In SetValue out).
  { destruct (decide (isOverloaded (state_ l) = overloaded)) as [Heq | Hne].
    - exists l, []. split; [now apply setNodeOverload_same |].
      split; [| intros []].
      rewrite <- Heq. unfold set_isOverloaded. now rewrite state_eta.
    - set (l1 := set_state_ (set_isOverloaded overloaded) l).
      destruct (adjHoldTimer_ l1) eqn:Hhold.
      + exists l1, []. split.
        { apply setNodeOverload_change; [exact Hne |].
          now apply advertiseAdjacencies_hold. }
        split; [reflexivity | intros []].
      + eexists _, _. split.
        { apply setNodeOverload_change; [exact Hne |].
          now apply advertiseAdjacencies_run. }
        split.
        * match goal with
          | |- context [match ?x with _ => _ end] => destruct x
          end; [reflexivity | now rewrite cancelThrottle_state].
        * intros Hin. apply in_flat_map in Hin as (kv & _ & Hin).
          cbn in Hin. destruct Hin as [Hin | [Hin | []]]; discriminate Hin. }
  destruct Hgoal as (l' & out & Hrun & Hst & Hno).
  exists l', out. split; [exact Hrun |]. split; [exact Hst |].
  split; [| split; [| split; [exact Hno |]]].
  - intros areaId. unfold buildAdjacencyDatabase. cbn [db_isOverloaded].
    now rewrite Hst.
  - unfold getInterfaces. cbn [reply_isOverloaded]. now rewrite Hst.
  - apply setNodeOverload_same. now rewrite Hst.
Qed.

(** X28. [advertiseIfaceAddr] always pushes the interface database first, in or
    out of the hold time, and during the hold time nothing else; it leaves
    its throttle idle, and with a positive maximal backoff it schedules the
    retry timer exactly when some inactive interface is still backing off.
    The drain state, the interfaces and the adjacencies are untouched. *)
Theorem advertiseIfaceAddr_schedules_retry (l : LinkMonitor) :
  0 < linkflapMaxBackoff_ l ->
  exists l' ifDb out,
    advertiseIfaceAddr l = Some (tt, l', PushInterfaceDb ifDb :: out)
    /\ (adjHoldTimer_ l = true -> out = [])
    /\ advertiseIfaceAddrThrottled_ l' = false
    /\ (advertiseIfaceAddrTimer_ l' = true
        <-> advertiseIfaceAddrTimer_ l = true
            \/ exists ifName interface,
                 interfaces_ l !! ifName = Some interface
                 /\ isActive interface = false
                 /\ 0 < getBackoffDuration interface)
    /\ state_ l' = state_ l
    /\ interfaces_ l' = interfaces_ l
    /\ adjacencies_ l' = adjacencies_ l.
Proof.
  intros Hmax.
  destruct (advertiseRedistAddrs_same_state l) as (out & Hred & Hq & _).
  pose proof (retry_loop_inv (linkflapMaxBackoff_ l)
                (map_to_list (interfaces_ l)) Hmax) as Hinv.
  cbv zeta in Hinv.
  assert (Hretry : (getRetryTimeOnUnstableInterfaces l =? 0) = false
                   <-> exists ifName interface,
                         interfaces_ l !! ifName = Some interface
                         /\ isActive interface = false
                         /\ 0 < getBackoffDuration interface).
  { unfold getRetryTimeOnUnstableInterfaces.
    set (r := foldl _ 0 (map_to_list (interfaces_ l))) in *.
    rewrite Z.eqb_neq.
    destruct Hinv as [[Hr Hall] | (Hr & [n i] & Hin & Hact & Hpos & _)].
    - split; [intros Hne; contradiction |].
      intros (n & i & Hi & Hact & Hpos). exfalso.
      destruct (Hall (n, i)) as [Ha | Hb];
        [now apply elem_of_map_to_list | cbn in Ha; congruence
        | cbn in Hb; lia].
    - split; [| lia]. intros _. exists n, i.
      split; [now apply elem_of_map_to_list | auto]. }
  assert (Hwp : wp advertiseIfaceAddr l (fun _ l' out' =>
            exists ifDb,
              out' = PushInterfaceDb ifDb :: out
              /\ advertiseIfaceAddrThrottled_ l' = false
              /\ (advertiseIfaceAddrTimer_ l' = true
                  <-> advertiseIfaceAddrTimer_ l = true
                      \/ (getRetryTimeOnUnstableInterfaces l =? 0) = false)
              /\ state_ l' = state_ l
              /\ interfaces_ l' = interfaces_ l
              /\ adjacencies_ l' = adjacencies_ l)).
  { unfold advertiseIfaceAddr. apply wp_bind, wp_get. cbv zeta.
    apply wp_bind. unfold advertiseInterfaces.
    apply wp_bind, wp_get. apply wp_emit.
    apply wp_bind. exists tt, l, out. split; [exact Hred |].
    apply wp_bind, wp_get. cbn beta.
    destruct (advertiseIfaceAddrThrottled_ l) eqn:Hthr;
      (apply wp_bind; [apply wp_modify || apply wp_ret]);
      destruct (getRetryTimeOnUnstableInterfaces l =? 0) eqn:Hr;
      cbn [negb]; (apply wp_modify || apply wp_ret);
      (eexists; split;
       [cbn [app]; rewrite ?app_nil_r; reflexivity |]);
      cbn;
      repeat (split; try reflexivity; try assumption);
      try tauto; try (intros [? | ?]; congruence); try (intros; now right). }
  destruct Hwp as ([] & l' & out' & Hrun & ifDb & -> & Hthr & Htimer & Hrest).
  exists l', ifDb, out. split; [exact Hrun |]. split; [exact Hq |].
  split; [exact Hthr |]. split; [| exact Hrest].
  now rewrite Htimer, Hretry.
Qed.

Lemma advertiseIfaceAddr_schedules_retry_witness :
  exists l' ifDb out,
    advertiseIfaceAddr Examples.lm_started
    = Some (tt, l', PushInterfaceDb ifDb :: out)
    /\ advertiseIfaceAddrThrottled_ l' = false.
Proof.
  destruct (advertiseIfaceAddr_schedules_retry Examples.lm_started eq_refl)
    as (l' & ifDb & out & Hrun & _ & Hthr & _).
  exists l', ifDb, out. now split.
Defined.

End EventLoopMore.

(** ** Links of the system *)

Section LinksProofs.
Import LinkMonitor Spec.

Lemma emplace_lookup_Z {V : Type} (k k' : Z) (v : V) (m : gmap Z V) :
  emplace k v m !! k'
  = match m !! k with
    | Some _ => m !! k'
    | None => if decide (k = k') then Some v else m !! k'
    end.
Proof.
  unfold emplace. destruct (m !! k) eqn:Hk; [reflexivity |].
  apply lookup_insert.
Qed.

Lemma snoc_split {A : Type} (ls pre post : list A) (x k : A) :
  ls ++ [x] = pre ++ k :: post ->
  (post = [] /\ pre = ls /\ k = x)
  \/ exists post', post = post' ++ [x] /\ ls = pre ++ k :: post'.
Proof.
  intros Heq. destruct post as [| p post _] using rev_ind.
  - left. apply app_inj_tail in Heq as [-> ->]. auto.
  - right. exists post. rewrite app_comm_cons, app_assoc in Heq.
    apply app_inj_tail in Heq as [-> ->]. auto.
Qed.

Lemma links_loop_None (nlLinks : list Link) (i : Z) :
  foldl (fun (links : gmap Z LinkEntry) nlLink =>
      emplace (link_getIfIndex nlLink)
        (mkLinkEntry (getLinkName nlLink) (link_getIfIndex nlLink)
           (link_isUp nlLink) [])
        links)
    ∅ nlLinks !! i = None
  <-> Forall (fun k => link_getIfIndex k <> i) nlLinks.
Proof.
  induction nlLinks as [| x ls IH] using rev_ind.
  - cbn. rewrite lookup_empty. split; [constructor | reflexivity].
  - rewrite foldl_snoc, emplace_lookup_Z, Forall_app, Forall_singleton.
    set (M := foldl _ ∅ ls) in *.
    destruct (M !! link_getIfIndex x) as [ex |] eqn:Hx.
    + rewrite IH. split; [| tauto]. intros Hall. split; [exact Hall |].
      intros Heq. rewrite Heq in Hx. apply IH in Hall. congruence.
    + destruct (decide (link_getIfIndex x = i)) as [Heq | Hne].
      * split; [discriminate | tauto].
      * rewrite IH. tauto.
Qed.

Lemma links_loop_lookup (nlLinks : list Link) (i : Z) (e : LinkEntry) :
  foldl (fun (links : gmap Z LinkEntry) nlLink =>
      emplace (link_getIfIndex nlLink)
        (mkLinkEntry (getLinkName nlLink) (link_getIfIndex nlLink)
           (link_isUp nlLink) [])
        links)
    ∅ nlLinks !! i = Some e
  <-> exists k,
        firstWithIndex nlLinks k /\ link_getIfIndex k = i
        /\ e = newLinkEntry k.
Proof.
  revert i e. induction nlLinks as [| x ls IH] using rev_ind; intros i e.
  - cbn. rewrite lookup_empty. split; [discriminate |].
    intros (k & (pre & post & Heq & _) & _). now destruct pre.
  - rewrite foldl_snoc, emplace_lookup_Z.
    pose proof (links_loop_None ls) as HNone.
    set (M := foldl _ ∅ ls) in *.
    assert (Hkeep : (exists k, firstWithIndex ls k /\ link_getIfIndex k = i
                               /\ e = newLinkEntry k)
                    -> exists k, firstWithIndex (ls ++ [x]) k
                                 /\ link_getIfIndex k = i
                                 /\ e = newLinkEntry k).
    { intros (k & (pre & post & -> & Hpre) & Hi & He). exists k.
      split; [| auto]. exists pre, (post ++ [x]).
      split; [now rewrite <- app_assoc | exact Hpre]. }
    destruct (M !! link_getIfIndex x) as [ex |] eqn:Hx.
    + rewrite IH. split; [exact Hkeep |].
      intros (k & (pre & post & Heq & Hpre) & Hi & He).
      apply snoc_split in Heq as [(-> & -> & ->) | (post' & -> & ->)].
      * apply HNone in Hpre. congruence.
      * exists k. split; [| auto]. now exists pre, post'.
    + destruct (decide (link_getIfIndex x = i)) as [Heq | Hne].
      * split.
        -- intros [= <-]. exists x. split; [| auto].
           exists ls, []. split; [reflexivity | now apply HNone].
        -- intros (k & (pre & post & Hsplit & Hpre) & Hi & ->).
           apply snoc_split in Hsplit as [(-> & -> & ->) | (post' & -> & ->)];
             [reflexivity |].
           exfalso. apply HNone in Hx.
           apply Forall_app in Hx as [_ Hx].
           apply Forall_cons in Hx as [Hx _]. congruence.
      * rewrite IH. split; [exact Hkeep |].
        intros (k & (pre & post & Hsplit & Hpre) & Hi & He).
        apply snoc_split in Hsplit as [(-> & -> & ->) | (post' & -> & ->)];
          [contradiction |].
        exists k. split; [| auto]. now exists pre, post'.
Qed.

Lemma addrs_loop_thrown (nlAddrs : list IfAddress) (thrown : Thrown) :
  foldl (fun (links : Thrown + gmap Z LinkEntry) nlAddr =>
      match links with
      | inl thrown => inl thrown
      | inr links =>
          match links !! getIfIndex nlAddr with
          | None => inl out_of_range
          | Some link =>
              match getPrefix nlAddr with
              | None => inl bad_optional_access
              | Some network =>
                  inr (<[getIfIndex nlAddr := add_network network link]> links)
              end
          end
      end)
    (inl thrown) nlAddrs
  = inl thrown.
Proof. induction nlAddrs as [| a nlAddrs IH]; [reflexivity | exact IH]. Qed.

(** The second loop of [getAllLinks]: it ends normally exactly when every
    address has a prefix and an entry, and then each entry has gained the
    prefixes of its addresses, in order. *)
Lemma addrs_loop_spec (nlAddrs : list IfAddress) (links : gmap Z LinkEntry) :
  let result :=
    foldl (fun (links : Thrown + gmap Z LinkEntry) nlAddr =>
        match links with
        | inl thrown => inl thrown
        | inr links =>
            match links !! getIfIndex nlAddr with
            | None => inl out_of_range
            | Some link =>
                match getPrefix nlAddr with
                | None => inl bad_optional_access
                | Some network =>
                    inr (<[getIfIndex nlAddr := add_network network link]>
                           links)
                end
            end
        end)
      (inr links) nlAddrs in
  (Forall (fun a => is_Some (getPrefix a)
                    /\ is_Some (links !! getIfIndex a)) nlAddrs
   /\ exists links',
        result = inr links'
        /\ forall i,
             links' !! i
             = (fun e => mkLinkEntry (le_ifName e) (le_ifIndex e) (le_isUp e)
                           (le_networks e ++ networksOf i nlAddrs))
               <$> links !! i)
  \/ (~ Forall (fun a => is_Some (getPrefix a)
                         /\ is_Some (links !! getIfIndex a)) nlAddrs
      /\ (result = inl out_of_range \/ result = inl bad_optional_access)).
Proof.
  revert links. induction nlAddrs as [| a nlAddrs IH]; intros links; cbv zeta.
  - left. split; [constructor |]. exists links. split; [reflexivity |].
    intros i. destruct (links !! i) as [[n x u nets] |]; cbn; [| reflexivity].
    now rewrite app_nil_r.
  - cbn [foldl].
    destruct (links !! getIfIndex a) as [link |] eqn:Hlink.
    + destruct (getPrefix a) as [network |] eqn:Hnet.
      * set (links1 := <[getIfIndex a := add_network network link]> links).
        assert (Hdom : forall i, is_Some (links1 !! i) <-> is_Some (links !! i)).
        { intros i. unfold links1.
          destruct (decide (getIfIndex a = i)) as [<- | Hne].
          - rewrite lookup_insert_eq, Hlink. split; eauto.
          - now rewrite lookup_insert_ne. }
        assert (Hall : Forall (fun a => is_Some (getPrefix a)
                         /\ is_Some (links1 !! getIfIndex a)) nlAddrs
                       <-> Forall (fun a => is_Some (getPrefix a)
                             /\ is_Some (links !! getIfIndex a)) nlAddrs).
        { apply Forall_iff. intros a'. now rewrite Hdom. }
        destruct (IH links1) as [[Hgood (links' & Hres & Hspec)] | [Hbad Hres]];
          cbv zeta in *.
        -- left. split.
           { constructor; [rewrite Hnet, Hlink; eauto | now apply Hall]. }
           exists links'. split; [exact Hres |]. intros i. rewrite Hspec.
           unfold links1, networksOf. cbn [omap list_omap].
           destruct (decide (getIfIndex a = i)) as [<- | Hne].
           ++ rewrite lookup_insert_eq, Hlink.
              rewrite bool_decide_eq_true_2 by reflexivity. rewrite Hnet.
              cbn. now rewrite <- app_assoc.
           ++ rewrite lookup_insert_ne by exact Hne.
              now rewrite bool_decide_eq_false_2 by exact Hne.
        -- right. split; [| exact Hres].
           intros Hgood. apply Hbad, Hall.
           now apply Forall_cons in Hgood as [_ Hgood].
      * right. rewrite addrs_loop_thrown. split; [| now right].
        intros Hgood. apply Forall_cons in Hgood as [[[x Hx] _] _].
        congruence.
    + right. rewrite addrs_loop_thrown. split; [| now left].
      intros Hgood. apply Forall_cons in Hgood as [[_ [x Hx]] _].
      congruence.
Qed.

Lemma known_address_iff (nlLinks : list Link) (a : IfAddress) :
  is_Some (getPrefix a)
  /\ is_Some (foldl (fun (links : gmap Z LinkEntry) nlLink =>
        emplace (link_getIfIndex nlLink)
          (mkLinkEntry (getLinkName nlLink) (link_getIfIndex nlLink)
             (link_isUp nlLink) [])
          links)
      ∅ nlLinks !! getIfIndex a)
  <-> knownAddress nlLinks a.
Proof.
  unfold knownAddress. apply and_iff_compat_l.
  rewrite <- not_eq_None_Some, links_loop_None.
  split.
  - intros Hnot.
    destruct (decide (Exists (fun k => link_getIfIndex k = getIfIndex a)
                        nlLinks)) as [Hex | Hno].
    + apply Exists_exists in Hex as (k & Hin & Hk). eauto.
    + exfalso. apply Hnot. apply Forall_forall. intros k Hin Hk.
      apply Hno, Exists_exists. eauto.
  - intros (k & Hin & Hk) Hall. rewrite Forall_forall in Hall.
    now apply (Hall k Hin).
Qed.

(** X29. [getAllLinks] fails with the netlink error when the links, or else the
    addresses, could not be fetched, the links being looked at first.
    With both at hand it returns exactly when every address has a prefix
    and belongs to a listed link; otherwise the continuation throws from
    [at] or from [value] and no list is returned. *)
Theorem getAllLinks_returns_iff (nlLinks : list Link)
    (nlAddrs : list IfAddress) :
  (forall code nlAddrs',
     getAllLinks (HasError code) nlAddrs'
     = inl (NlException "Failed fetching links" code))
  /\ (forall code,
        getAllLinks (HasValue nlLinks) (HasError code)
        = inl (NlException "Failed fetching addrs" code))
  /\ ((exists res, getAllLinks (HasValue nlLinks) (HasValue nlAddrs) = inr res)
      <-> Forall (knownAddress nlLinks) nlAddrs)
  /\ (forall thrown,
        getAllLinks (HasValue nlLinks) (HasValue nlAddrs) = inl thrown ->
        thrown = out_of_range \/ thrown = bad_optional_access).
Proof.
  split; [reflexivity |]. split; [reflexivity |].
  unfold getAllLinks. cbv zeta.
  set (links := foldl _ ∅ nlLinks).
  assert (Hknown : Forall (fun a => is_Some (getPrefix a)
                             /\ is_Some (links !! getIfIndex a)) nlAddrs
                   <-> Forall (knownAddress nlLinks) nlAddrs).
  { apply Forall_iff. intros a. apply known_address_iff. }
  destruct (addrs_loop_spec nlAddrs links)
    as [[Hgood (links' & Hres & _)] | [Hbad [Hres | Hres]]];
    cbv zeta in Hres; rewrite Hres.
  - split; [| discriminate]. split; [intros _; now apply Hknown | eauto].
  - split; [| intros thrown [= <-]; now left].
    split; [intros [res Hr]; discriminate Hr |].
    intros Hk. now apply Hknown in Hk.
  - split; [| intros thrown [= <-]; now right].
    split; [intros [res Hr]; discriminate Hr |].
    intros Hk. now apply Hknown in Hk.
Qed.

(** X30. When [getAllLinks] returns, the list holds one entry per interface
    index: for each index, the entry of the first link listed with it,
    with the name, index and state of that link, and with the prefixes of
    all the addresses on that index, in the order of the addresses. *)
Theorem getAllLinks_entries (nlLinks : list Link) (nlAddrs : list IfAddress)
    (res : list LinkEntry) :
  getAllLinks (HasValue nlLinks) (HasValue nlAddrs) = inr res ->
  NoDup (map le_ifIndex res)
  /\ forall e,
       In e res
       <-> exists k,
             firstWithIndex nlLinks k
             /\ e = mkLinkEntry (getLinkName k) (link_getIfIndex k)
                      (link_isUp k) (networksOf (link_getIfIndex k) nlAddrs).
Proof.
  unfold getAllLinks. cbv zeta.
  pose proof (links_loop_lookup nlLinks) as Hlinks.
  set (links := foldl _ ∅ nlLinks) in *.
  destruct (addrs_loop_spec nlAddrs links)
    as [[_ (links' & Hres & Hspec)] | [_ [Hres | Hres]]];
    cbv zeta in Hres; rewrite Hres; [| discriminate | discriminate].
  intros [= <-].
  assert (Hentry : forall i e,
            links' !! i = Some e
            <-> exists k,
                  firstWithIndex nlLinks k /\ link_getIfIndex k = i
                  /\ e = mkLinkEntry (getLinkName k) (link_getIfIndex k)
                           (link_isUp k) (networksOf i nlAddrs)).
  { intros i e. rewrite Hspec, fmap_Some. split.
    - intros (e0 & He0 & ->). apply Hlinks in He0 as (k & Hk & Hi & ->).
      exists k. cbn. auto.
    - intros (k & Hk & Hi & ->). exists (newLinkEntry k).
      split; [apply Hlinks; eauto | reflexivity]. }
  split.
  - assert (Hmap : map le_ifIndex (map snd (map_to_list links'))
                   = (map_to_list links').*1).
    { rewrite map_map.
      assert (Hin : forall kv, kv ∈ map_to_list links' ->
                le_ifIndex kv.2 = kv.1).
      { intros [i e] Hin%elem_of_map_to_list.
        apply Hentry in Hin as (k & _ & Hi & ->). exact Hi. }
      induction (map_to_list links') as [| kv rest IHr]; [reflexivity |].
      cbn. rewrite Hin by constructor. f_equal. apply IHr.
      intros kv' Hkv'. apply Hin. now constructor. }
    rewrite Hmap. apply NoDup_fst_map_to_list.
  - intros e. rewrite in_map_iff. split.
    + intros ([i e0] & <- & Hin%list_elem_of_In%elem_of_map_to_list).
      apply Hentry in Hin as (k & Hk & <- & ->). eauto.
    + intros (k & Hk & ->).
      exists (link_getIfIndex k,
              mkLinkEntry (getLinkName k) (link_getIfIndex k) (link_isUp k)
                (networksOf (link_getIfIndex k) nlAddrs)).
      split; [reflexivity |].
      apply list_elem_of_In, elem_of_map_to_list, Hentry. eauto.
Qed.

Lemma getAllLinks_entries_witness :
  getAllLinks (HasValue Examples.nlLinks3) (HasValue Examples.nlAddrs3)
  = inr [ mkLinkEntry "eth0" 2 true ["fe80::1/64"; "10.0.0.1/24"]%string;
          mkLinkEntry "lo" 1 true ["::1/128"%string] ]
  /\ NoDup (map le_ifIndex
              [ mkLinkEntry "eth0" 2 true ["fe80::1/64"; "10.0.0.1/24"]%string;
                mkLinkEntry "lo" 1 true ["::1/128"%string] ]).
Proof.
  split; [vm_compute; reflexivity |].
  apply (getAllLinks_entries Examples.nlLinks3 Examples.nlAddrs3).
  vm_compute. reflexivity.
Defined.

End LinksProofs.
